(** * go-raptor: a shallow embedding of the RAPTOR journey planner

    The development follows the Go sources:
    - [slice_it.go]: the reversible slice iterator;
    - [utils.go]: the time partitions;
    - [raptor_models.go]: the entity structs, round segments and journeys;
    - the raptor file: [PrepareRaptorInput], [SimpleRaptorDepartAt],
      [SimpleRaptorArriveBy] and [SimpleRaptor].

    Go values are modelled as follows.  [int] and [int64] are [Z] with the
    64-bit wrap-around written out ([wrap64]); a slice is its visible
    elements together with the cells of its backing array that lie between
    its length and its capacity (a slice expression may expose them); a map
    is a [gmap]; a run-time panic is the [Panic] result. *)

From Stdlib Require Import Sorting.Sorted.
From stdpp Require Import gmap strings list fin_maps.

Open Scope Z_scope.

(** ** Machine integers *)

Definition max_int : Z := 2 ^ 63 - 1.
Definition min_int : Z := - 2 ^ 63.

(** Two's complement wrap-around of a 64-bit signed integer. *)
Definition wrap64 (z : Z) : Z := (z + 2 ^ 63) mod 2 ^ 64 - 2 ^ 63.

Definition add64 (a b : Z) : Z := wrap64 (a + b).
Definition sub64 (a b : Z) : Z := wrap64 (a - b).

(** ** Panics and results *)

Inductive panic : Type :=
| SliceBoundsOutOfRange
| IndexOutOfRange
| NextNotGuarded      (* "Next always has to be pre-guarded by HasNext" *)
| FirstOfEmpty.       (* "can not get First element from empty slice" *)

Inductive Result (A : Type) : Type :=
| Ok (a : A)
| Panic (p : panic).
Arguments Ok {A} a.
Arguments Panic {A} p.

(** The error monad, with stdpp's [x ← r; k] notation. *)
#[global] Instance result_ret : MRet Result := λ A a, Ok a.
#[global] Instance result_bind : MBind Result := λ A B k r,
  match r with
  | Ok a => k a
  | Panic p => Panic p
  end.

(** [holds P r]: the run either panicked or ended in a value satisfying [P]. *)
Definition holds {A} (P : A → Prop) (r : Result A) : Prop :=
  match r with
  | Ok a => P a
  | Panic _ => True
  end.

(** ** Go slices *)

(** [elems] are the cells below the length, [spare] the cells of the backing
    array from the length up to the capacity. *)
Record GoSlice (T : Type) : Type := mkSlice {
  elems : list T;
  spare : list T;
}.
Arguments mkSlice {T} elems spare.
Arguments elems {T} _.
Arguments spare {T} _.

Definition nil_slice {T} : GoSlice T := mkSlice [] [].

Definition len {T} (s : GoSlice T) : Z := Z.of_nat (length (elems s)).
Definition cap {T} (s : GoSlice T) : Z :=
  Z.of_nat (length (elems s) + length (spare s)).

(** [s[i]] with its bounds check. *)
Definition index_slice {T} (s : GoSlice T) (i : Z) : Result T :=
  if bool_decide (0 ≤ i) then
    match elems s !! Z.to_nat i with
    | Some v => Ok v
    | None => Panic IndexOutOfRange
    end
  else Panic IndexOutOfRange.

(** [s[lo:hi]]: legal when [0 <= lo <= hi <= cap(s)]. *)
Definition reslice {T} (s : GoSlice T) (lo hi : Z) : Result (GoSlice T) :=
  if bool_decide (0 ≤ lo ∧ lo ≤ hi ∧ hi ≤ cap s) then
    let arr := elems s ++ spare s in
    Ok (mkSlice (take (Z.to_nat (hi - lo)) (drop (Z.to_nat lo) arr))
                (drop (Z.to_nat hi) arr))
  else Panic SliceBoundsOutOfRange.

(** [append(s, x)].  When the capacity is exhausted the runtime allocates a
    zeroed array whose capacity [growcap] chooses from the old one (at least
    the needed length). *)
Definition go_append {T} (growcap : nat → nat) (zero : T)
    (s : GoSlice T) (x : T) : GoSlice T :=
  mkSlice (elems s ++ [x])
    match spare s with
    | _ :: sp => sp
    | [] =>
        let n := length (elems s) in
        replicate (Nat.max (S n) (growcap n) - S n)%nat zero
    end.

(** The growth rule of the gc runtime for slices of machine words of up to
    256 elements: an empty array grows to one cell, otherwise the capacity
    doubles.  Appending one element at a time gives capacities 1, 2, 4, 4,
    8, 8, 8, 8, 16, ... *)
Definition gc_growcap (c : nat) : nat :=
  match c with
  | O => 1%nat
  | _ => (2 * c)%nat
  end.

(** The growth rule that never leaves a spare cell: [go_append] then gives
    every slice the capacity of its length. *)
Definition exact_growcap (c : nat) : nat := O.

(** ** slice_it.go *)

Module SliceIterator.

(** [length] is always the length of [data]: a length minus one cannot
    overflow, so [New], [First] and [Reset] subtract without wrapping.
    The offsets of [SliceIterator] are the caller's and do wrap. *)
Record t (T : Type) : Type := mk {
  data : GoSlice T;
  length : Z;
  index : Z;
  reverse : bool;
}.
Arguments mk {T} data length index reverse.
Arguments data {T} _.
Arguments length {T} _.
Arguments index {T} _.
Arguments reverse {T} _.

Definition New {T} (d : GoSlice T) (rev : bool) : t T :=
  mk d (len d) (if rev then len d - 1 else 0) rev.

Definition Length {T} (it : t T) : Z := length it.

Definition HasNext {T} (it : t T) : bool :=
  if reverse it then bool_decide (0 ≤ index it)
  else bool_decide (index it < len (data it)).

Definition Next {T} (it : t T) : Result (T * t T) :=
  if negb (HasNext it) then Panic NextNotGuarded
  else
    val ← index_slice (data it) (index it);
    Ok (val, mk (data it) (length it)
                (if reverse it then index it - 1 else index it + 1)
                (reverse it)).

Definition First {T} (it : t T) : Result T :=
  if bool_decide (length it = 0) then Panic FirstOfEmpty
  else if reverse it then index_slice (data it) (length it - 1)
  else index_slice (data it) 0.

Definition SliceIterator {T} (it : t T) (from_inclusive num_items : Z)
    : Result (t T) :=
  if reverse it then
    d ← reslice (data it)
          (sub64 (sub64 (length it) from_inclusive) num_items)
          (sub64 (length it) from_inclusive);
    Ok (New d (reverse it))
  else
    d ← reslice (data it) from_inclusive (add64 from_inclusive num_items);
    Ok (New d (reverse it)).

Definition Reset {T} (it : t T) : t T :=
  mk (data it) (length it)
     (if reverse it then length it - 1 else 0) (reverse it).

(** The loop [for it.HasNext() { x := it.Next(); body }].  [body] returns
    the new state and whether it executed [break].  The fuel bounds the
    number of iterations; [S (length (elems (data it)))] always suffices. *)
Fixpoint loop {T S} (fuel : nat) (it : t T)
    (body : T → S → Result (S * bool)) (s : S) : Result S :=
  match fuel with
  | O => Ok s
  | Datatypes.S fuel' =>
      if HasNext it then
        '(x, it') ← Next it;
        '(s', brk) ← body x s;
        if (brk : bool) then Ok s' else loop fuel' it' body s'
      else Ok s
  end.

Definition for_each {T S} (it : t T)
    (body : T → S → Result (S * bool)) (s : S) : Result S :=
  loop (Datatypes.S (Datatypes.length (elems (data it)))) it body s.

(** The elements a loop over [it] visits, in order. *)
Definition visited {T} (it : t T) : Result (list T) :=
  for_each it (λ x acc, Ok (acc ++ [x], false)) [].

End SliceIterator.

(** The constructor under its Go name. *)
Abbreviation NewSliceIterator := SliceIterator.New.

(** The order in which a new iterator visits its slice. *)
Definition iteration_order {T} (d : GoSlice T) (rev : bool) : list T :=
  if rev then reverse (elems d) else elems d.

(** [n] calls of [Next] in a row: the values returned, in order, and the
    iterator left. *)
Fixpoint next_n {T} (n : nat) (it : SliceIterator.t T)
    : Result (list T * SliceIterator.t T) :=
  match n with
  | O => Ok ([], it)
  | S n' =>
      '(x, it') ← SliceIterator.Next it;
      '(xs, it'') ← next_n n' it';
      Ok (x :: xs, it'')
  end.

(** The backing array of a slice: its cells up to the capacity. *)
Definition backing_array {T} (s : GoSlice T) : list T := elems s ++ spare s.

(** ** utils.go *)

(** Go's [/] on [int64] truncates towards zero and wraps on the one
    overflow, the most negative value divided by [-1]; [*] wraps. *)
Definition quot64 (a b : Z) : Z := wrap64 (a ÷ b).
Definition mul64 (a b : Z) : Z := wrap64 (a * b).

(** [GetTimePartition(timestamp, interval, upper)]: the boundary of the
    partition of width [interval] that [timestamp] falls in, the lower one
    or, when [upper] is set, the upper one.  Go's [%] is [Z.rem]: the
    remainder has the sign of the dividend.  [None] is the run-time panic
    "integer divide by zero". *)
Definition GetTimePartition (timestamp interval : Z) (upper : bool)
    : option Z :=
  if bool_decide (interval = 0) then None
  else
    let lower := sub64 timestamp (Z.rem timestamp interval) in
    if negb upper || bool_decide (lower = timestamp) then Some lower
    else Some (mul64 (add64 (quot64 lower interval) 1) interval).

(** ** Generic loops *)

(** [for _, x := range l { s = f(s, x) }] where the body may panic. *)
Fixpoint fold_result {A S} (f : S → A → Result S) (l : list A) (s : S)
    : Result S :=
  match l with
  | [] => Ok s
  | x :: l' => s' ← f s x; fold_result f l' s'
  end.

(** A loop over the elements of [l] whose body may panic or [break]. *)
Fixpoint list_loop {A S} (body : A → S → Result (S * bool)) (l : list A)
    (s : S) : Result S :=
  match l with
  | [] => Ok s
  | x :: l' =>
      '(s', brk) ← body x s;
      if (brk : bool) then Ok s' else list_loop body l' s'
  end.

(** [for index, x := range l { s = f(index, x, s) }], counting from [i]. *)
Fixpoint range_fold {A S} (f : Z → A → S → S) (i : Z) (l : list A) (s : S)
    : S :=
  match l with
  | [] => s
  | x :: l' => range_fold f (i + 1) l' (f i x s)
  end.

(** [l[i]] on an input list, with its bounds check. *)
Definition index_list {A} (l : list A) (i : Z) : Result A :=
  if bool_decide (0 ≤ i) then
    match l !! Z.to_nat i with
    | Some v => Ok v
    | None => Panic IndexOutOfRange
    end
  else Panic IndexOutOfRange.

(** Go visits the entries of a map once each, in an order it does not
    specify.  [pick_order choices l] is the visiting order a list of choices
    selects: each choice picks one of the entries not yet visited. *)
Fixpoint pick_order {A} (choices : list nat) (l : list A) : list A :=
  match choices with
  | [] => l
  | c :: choices' =>
      let i := (c `mod` Datatypes.length l)%nat in
      match l !! i with
      | Some x => x :: pick_order choices' (delete i l)
      | None => l
      end
  end.

(** The positions, counted from [i], of the elements of [l] that satisfy
    [f], in ascending order. *)
Fixpoint positions_from {A} (f : A → bool) (i : Z) (l : list A) : list Z :=
  match l with
  | [] => []
  | x :: l' =>
      if f x then i :: positions_from f (i + 1) l'
      else positions_from f (i + 1) l'
  end.

(** ** raptor_models.go *)

Definition RaptorModeDepartAt : string := "depart_at".
Definition RaptorModeArriveBy : string := "arrive_by".
Definition RaptorMarkedStopSourceArrival : string := "arrival".
Definition RaptorMarkedStopSourceTransfer : string := "transfer".

Section Raptor.
(** [ID] is any of the identifier types of [UniqueGtfsIdLike]; [zero_ID]
    is its zero value and [fmt_v] its rendering by the [%v] verb. *)
Context {ID : Type} `{Countable ID}.
Variable zero_ID : ID.
Variable fmt_v : ID → string.

Record GtfsStopStruct : Type := {
  GetUniqueID : ID;
}.

Record GtfsTransferStruct : Type := {
  GetFromUniqueStopID : ID;
  GetToUniqueStopID : ID;
  GetMinimumTransferTimeInSeconds : Z;
}.

Record GtfsStopTimeStruct : Type := {
  GetUniqueStopID : ID;
  GetUniqueTripID : ID;
  GetUniqueTripServiceID : ID;
  GetStopSequence : Z;
  GetArrivalTimeInSeconds : Z;
  GetDepartureTimeInSeconds : Z;
}.

Record ViaTrip : Type := {
  UniqueTripID : ID;
  UniqueTripServiceID : ID;
  FromStopSequenceInTrip : Z;
  ToStopSequenceInTrip : Z;
}.

(** [span_ViaTrip] is [None] for a walking transfer (a nil pointer). *)
Record RoundSegmentSpan : Type := {
  FromUniqueStopID : ID;
  ToUniqueStopID : ID;
  span_ViaTrip : option ViaTrip;
  ArrivalTimeInSecondsToUniqueStopID : Z;
  DepartureTimeInSecondsFromUniqueStopID : Z;
}.

Record RoundSegment : Type := {
  seg_UniqueStopID : ID;
  seg_ArrivalTimeInSeconds : Z;
  Spans : list RoundSegmentSpan;
}.

Record Journey : Type := {
  j_ToUniqueStopID : ID;
  j_FromUniqueStopID : ID;
  j_DepartureTimeInSeconds : Z;
  j_ArrivalTimeInSeconds : Z;
  Legs : list RoundSegmentSpan;
}.

(** The time-partition fields of the input are not read by the search and
    are left out. *)
Record SimpleRaptorInput : Type := {
  FromStops : list GtfsStopStruct;
  ToStops : list GtfsStopStruct;
  Transfers : list GtfsTransferStruct;
  StopTimes : list GtfsStopTimeStruct;
  Mode : string;
  TimeInSeconds : Z;
  MaximumTransfers : Z;
  AllowTransferHopping : bool;
  TransfersByUniqueStopId : option (gmap ID (GoSlice Z));
  StopTimesByUniqueStopId : option (gmap ID (GoSlice Z));
  StopTimesByUniqueTripServiceId : option (gmap ID (GoSlice Z));
}.

Record PreparedRaptorInput : Type := {
  Input : SimpleRaptorInput;
  FromStopsByUniqueStopId : gmap ID ID;
  ToStopsByUniqueStopId : gmap ID ID;
  p_TransfersByUniqueStopId : gmap ID (GoSlice Z);
  p_StopTimesByUniqueStopId : gmap ID (GoSlice Z);
  p_StopTimesByUniqueTripServiceId : gmap ID (GoSlice Z);
}.

Record RaptorMarkedStop : Type := {
  marked_ID : ID;
  Source : string;
}.

(** The zero value a map read yields for a missing key. *)
Definition zero_segment : RoundSegment :=
  {| seg_UniqueStopID := zero_ID; seg_ArrivalTimeInSeconds := 0;
     Spans := [] |}.

(** One part of a fingerprint: ["<from>|<trip or empty>|<to>"]. *)
Definition fingerprint_part (leg : RoundSegmentSpan) : string :=
  let tripID :=
    match span_ViaTrip leg with
    | Some via => fmt_v (UniqueTripID via)
    | None => EmptyString
    end in
  fmt_v (FromUniqueStopID leg) +:+ "|" +:+ tripID +:+ "|"
    +:+ fmt_v (ToUniqueStopID leg).

Definition fingerprint_of_spans (spans : list RoundSegmentSpan) : string :=
  String.concat "->" (fingerprint_part <$> spans).

Definition GetFingerPrint (j : RoundSegment) : string :=
  fingerprint_of_spans (Spans j).


(** ** PrepareRaptorInput *)

(** [growcap] is the growth rule [append] applies to the index slices. *)
Variable growcap : nat → nat.

(** [m[k] = append(m[k], index)], after [m[k] = []int{}] for a new key. *)
Definition add_index (m : gmap ID (GoSlice Z)) (k : ID) (index : Z)
    : gmap ID (GoSlice Z) :=
  let m' :=
    match m !! k with
    | Some _ => m
    | None => <[k := nil_slice]> m
    end in
  <[k := go_append growcap 0 (default nil_slice (m' !! k)) index]> m'.

Definition PrepareRaptorInput (input : SimpleRaptorInput)
    : PreparedRaptorInput :=
  let to_stops_by_unique_stop_id :=
    foldl (λ m stop, <[GetUniqueID stop := GetUniqueID stop]> m)
          (∅ : gmap ID ID) (ToStops input) in
  let from_stops_by_unique_stop_id :=
    foldl (λ m stop, <[GetUniqueID stop := GetUniqueID stop]> m)
          (∅ : gmap ID ID) (FromStops input) in
  let transfers_by_unique_stop_id :=
    match TransfersByUniqueStopId input with
    | Some supplied => supplied
    | None =>
        range_fold
          (λ index transfer m,
             add_index m (GetFromUniqueStopID transfer) index)
          0 (Transfers input) ∅
    end in
  let has_prepared_stop_times_by_unique_stop_id :=
    bool_decide (is_Some (StopTimesByUniqueStopId input)) in
  let has_prepared_stop_times_by_unique_trip_service_id :=
    bool_decide (is_Some (StopTimesByUniqueTripServiceId input)) in
  let supplied_by_stop := default ∅ (StopTimesByUniqueStopId input) in
  let supplied_by_trip := default ∅ (StopTimesByUniqueTripServiceId input) in
  let indices :=
    if negb has_prepared_stop_times_by_unique_stop_id
       || negb has_prepared_stop_times_by_unique_trip_service_id
    then
      range_fold
        (λ index stop_time (acc : gmap ID (GoSlice Z) * gmap ID (GoSlice Z)),
           (if has_prepared_stop_times_by_unique_stop_id then acc.1
            else add_index acc.1 (GetUniqueStopID stop_time) index,
            if has_prepared_stop_times_by_unique_trip_service_id then acc.2
            else add_index acc.2 (GetUniqueTripServiceID stop_time) index))
        0 (StopTimes input) (supplied_by_stop, supplied_by_trip)
    else (supplied_by_stop, supplied_by_trip) in
  {| Input := input;
     FromStopsByUniqueStopId := from_stops_by_unique_stop_id;
     ToStopsByUniqueStopId := to_stops_by_unique_stop_id;
     p_TransfersByUniqueStopId := transfers_by_unique_stop_id;
     p_StopTimesByUniqueStopId := indices.1;
     p_StopTimesByUniqueTripServiceId := indices.2 |}.

(** ** The search state *)

(** The variables the two searches mutate.  [segments] is the per-stop label
    map ([earliest_arrival_time_segments_by_unique_stop_id], respectively
    [latest_arrival_time_segments_by_unique_stop_id]). *)
Record RaptorState : Type := {
  segments : gmap ID RoundSegment;
  potential_journeys_found : list Journey;
  potential_journey_fingerprints : gmap string bool;
  stops_marked_for_round : gmap ID RaptorMarkedStop;
  stops_marked_for_next_round : gmap ID RaptorMarkedStop;
  trips_scanned_from_sequence : gmap ID Z;
}.

Definition set_segments (f : gmap ID RoundSegment → gmap ID RoundSegment)
    (s : RaptorState) : RaptorState :=
  {| segments := f (segments s);
     potential_journeys_found := potential_journeys_found s;
     potential_journey_fingerprints := potential_journey_fingerprints s;
     stops_marked_for_round := stops_marked_for_round s;
     stops_marked_for_next_round := stops_marked_for_next_round s;
     trips_scanned_from_sequence := trips_scanned_from_sequence s |}.

Definition set_marked_next
    (f : gmap ID RaptorMarkedStop → gmap ID RaptorMarkedStop)
    (s : RaptorState) : RaptorState :=
  {| segments := segments s;
     potential_journeys_found := potential_journeys_found s;
     potential_journey_fingerprints := potential_journey_fingerprints s;
     stops_marked_for_round := stops_marked_for_round s;
     stops_marked_for_next_round := f (stops_marked_for_next_round s);
     trips_scanned_from_sequence := trips_scanned_from_sequence s |}.

Definition set_trips_scanned (f : gmap ID Z → gmap ID Z)
    (s : RaptorState) : RaptorState :=
  {| segments := segments s;
     potential_journeys_found := potential_journeys_found s;
     potential_journey_fingerprints := potential_journey_fingerprints s;
     stops_marked_for_round := stops_marked_for_round s;
     stops_marked_for_next_round := stops_marked_for_next_round s;
     trips_scanned_from_sequence := f (trips_scanned_from_sequence s) |}.

(** [potential_journeys_found = append(potential_journeys_found, journey)]
    and [potential_journey_fingerprints[fp] = true]. *)
Definition add_journey (journey : Journey) (fp : string) (s : RaptorState)
    : RaptorState :=
  {| segments := segments s;
     potential_journeys_found := potential_journeys_found s ++ [journey];
     potential_journey_fingerprints :=
       <[fp := true]> (potential_journey_fingerprints s);
     stops_marked_for_round := stops_marked_for_round s;
     stops_marked_for_next_round := stops_marked_for_next_round s;
     trips_scanned_from_sequence := trips_scanned_from_sequence s |}.

(** The swap of the marked maps that opens and closes a round. *)
Definition begin_round (s : RaptorState) : RaptorState :=
  set_marked_next (λ _, ∅) s.

Definition end_round (s : RaptorState) : RaptorState :=
  {| segments := segments s;
     potential_journeys_found := potential_journeys_found s;
     potential_journey_fingerprints := potential_journey_fingerprints s;
     stops_marked_for_round := stops_marked_for_next_round s;
     stops_marked_for_next_round := stops_marked_for_next_round s;
     trips_scanned_from_sequence := trips_scanned_from_sequence s |}.

Definition mark (id : ID) (source : string) : RaptorMarkedStop :=
  {| marked_ID := id; Source := source |}.

Definition is_in_vehicle (span : RoundSegmentSpan) : bool :=
  bool_decide (is_Some (span_ViaTrip span)).

(** The journey check and emission that closes the scan of one stop time,
    shared by the two searches: [segment] is the label of the stop just
    reached.  Returns the state and whether the scan loop is left. *)
Definition check_journey (segment : RoundSegment) (s : RaptorState)
    : RaptorState * bool :=
  let segment_fingerprint := GetFingerPrint segment in
  match potential_journey_fingerprints s !! segment_fingerprint,
        head (Spans segment), last (Spans segment) with
  | None, Some first_segment_span, Some last_segment_span =>
      if is_in_vehicle first_segment_span && is_in_vehicle last_segment_span
      then
        let journey :=
          {| j_FromUniqueStopID := FromUniqueStopID first_segment_span;
             j_ToUniqueStopID := ToUniqueStopID last_segment_span;
             j_DepartureTimeInSeconds :=
               DepartureTimeInSecondsFromUniqueStopID first_segment_span;
             j_ArrivalTimeInSeconds :=
               ArrivalTimeInSecondsToUniqueStopID last_segment_span;
             Legs := Spans segment |} in
        (add_journey journey segment_fingerprint s, true)
      else (s, false)
  | _, _, _ => (s, false)
  end.

(** ** SimpleRaptorDepartAt *)

Section Search.
Variable input : SimpleRaptorInput.
Variable prepared_input : PreparedRaptorInput.

(** A map read of a slice-valued index: a missing key reads as nil. *)
Definition index_of (m : gmap ID (GoSlice Z)) (k : ID) : GoSlice Z :=
  default nil_slice (m !! k).

(** The body of the loop over the transfers out of the stop just reached. *)
Definition depart_relax_transfer (following_stop_time : GtfsStopTimeStruct)
    (existing_segment : RoundSegment) (s : RaptorState)
    (transfer_stop_index : Z) : Result RaptorState :=
  transfer_stop ← index_list (Transfers (Input prepared_input))
                    transfer_stop_index;
  let to := GetToUniqueStopID transfer_stop in
  let s1 :=
    match stops_marked_for_next_round s !! to with
    | Some _ => s
    | None =>
        set_marked_next
          (insert to (mark to RaptorMarkedStopSourceTransfer)) s
    end in
  let arrival_time_at_transfer_stop :=
    add64 (GetArrivalTimeInSeconds following_stop_time)
          (GetMinimumTransferTimeInSeconds transfer_stop) in
  let improves :=
    match segments s1 !! to with
    | None => true
    | Some existing_transfer_segment =>
        bool_decide (seg_ArrivalTimeInSeconds existing_transfer_segment
                     > arrival_time_at_transfer_stop)
    end in
  if improves then
    let updated_spans :=
      Spans existing_segment ++
      [ {| FromUniqueStopID := GetUniqueStopID following_stop_time;
           ToUniqueStopID := to;
           span_ViaTrip := None;
           DepartureTimeInSecondsFromUniqueStopID :=
             GetArrivalTimeInSeconds following_stop_time;
           ArrivalTimeInSecondsToUniqueStopID :=
             arrival_time_at_transfer_stop |} ] in
    Ok (set_segments
          (insert to
             {| seg_UniqueStopID := to;
                seg_ArrivalTimeInSeconds := arrival_time_at_transfer_stop;
                Spans := updated_spans |}) s1)
  else Ok s1.

(** The body of [following_stop_times_loop]. *)
Definition depart_scan (current_segment_for_stop : RoundSegment)
    (marked_stop : RaptorMarkedStop)
    (stop_time_for_marked_stop : GtfsStopTimeStruct)
    (following_index : Z) (s : RaptorState) : Result (RaptorState * bool) :=
  following_stop_time ← index_list (StopTimes (Input prepared_input))
                          following_index;
  let stop := GetUniqueStopID following_stop_time in
  let is_improvement_to_existing_arrival_time :=
    match segments s !! stop with
    | None => true
    | Some existing_segment =>
        bool_decide (seg_ArrivalTimeInSeconds existing_segment
                     > GetArrivalTimeInSeconds following_stop_time)
    end in
  s1 ← (if is_improvement_to_existing_arrival_time then
          let updated_spans :=
            Spans current_segment_for_stop ++
            [ {| FromUniqueStopID :=
                   GetUniqueStopID stop_time_for_marked_stop;
                 ToUniqueStopID := stop;
                 span_ViaTrip := Some
                   {| UniqueTripID := GetUniqueTripID following_stop_time;
                      UniqueTripServiceID :=
                        GetUniqueTripServiceID following_stop_time;
                      FromStopSequenceInTrip :=
                        GetStopSequence stop_time_for_marked_stop;
                      ToStopSequenceInTrip :=
                        GetStopSequence following_stop_time |};
                 DepartureTimeInSecondsFromUniqueStopID :=
                   GetDepartureTimeInSeconds stop_time_for_marked_stop;
                 ArrivalTimeInSecondsToUniqueStopID :=
                   GetArrivalTimeInSeconds following_stop_time |} ] in
          let existing_segment :=
            {| seg_UniqueStopID := stop;
               seg_ArrivalTimeInSeconds :=
                 GetArrivalTimeInSeconds following_stop_time;
               Spans := updated_spans |} in
          let s' := set_segments (insert stop existing_segment) s in
          if AllowTransferHopping input
             || bool_decide (Source marked_stop
                             = RaptorMarkedStopSourceArrival)
          then
            fold_result
              (depart_relax_transfer following_stop_time existing_segment)
              (elems (index_of (p_TransfersByUniqueStopId prepared_input)
                               stop))
              s'
          else Ok s'
        else Ok s);
  let s2 :=
    set_marked_next (insert stop (mark stop RaptorMarkedStopSourceArrival))
                    s1 in
  match ToStopsByUniqueStopId prepared_input !! stop with
  | Some _ =>
      Ok (check_journey (default zero_segment (segments s2 !! stop)) s2)
  | None => Ok (s2, false)
  end.

(** The body of the loop over the stop times of a marked stop. *)
Definition depart_board (current_segment_for_stop : RoundSegment)
    (marked_stop : RaptorMarkedStop)
    (stop_time_index : Z) (s : RaptorState) : Result (RaptorState * bool) :=
  stop_time_for_marked_stop ← index_list (StopTimes (Input prepared_input))
                                stop_time_index;
  let scanned :=
    trips_scanned_from_sequence s
      !! GetUniqueTripID stop_time_for_marked_stop in
  let trip_already_scanned_from_sequence := default 0 scanned in
  let has_already_scanned_trip_from_sequence :=
    bool_decide (is_Some scanned) in
  if bool_decide (GetDepartureTimeInSeconds stop_time_for_marked_stop
                  < seg_ArrivalTimeInSeconds current_segment_for_stop)
     || (has_already_scanned_trip_from_sequence
         && bool_decide (GetStopSequence stop_time_for_marked_stop
                         >= trip_already_scanned_from_sequence))
  then Ok (s, false)
  else
    let s1 :=
      set_trips_scanned
        (insert (GetUniqueTripID stop_time_for_marked_stop)
                (GetStopSequence stop_time_for_marked_stop)) s in
    let stop_times_for_unique_trip_id_it :=
      NewSliceIterator
        (index_of (p_StopTimesByUniqueTripServiceId prepared_input)
                  (GetUniqueTripServiceID stop_time_for_marked_stop))
        false in
    first_index ← SliceIterator.First stop_times_for_unique_trip_id_it;
    first_stop_time ← index_list (StopTimes (Input prepared_input))
                        first_index;
    let trip_stop_times_sequence_offset := GetStopSequence first_stop_time in
    let stop_times_start_offset :=
      add64 (sub64 (GetStopSequence stop_time_for_marked_stop)
                   trip_stop_times_sequence_offset) 1 in
    let stop_times_end_offset :=
      sub64 trip_already_scanned_from_sequence
            trip_stop_times_sequence_offset in
    after_current_stop_it ←
      (if has_already_scanned_trip_from_sequence then
         SliceIterator.SliceIterator stop_times_for_unique_trip_id_it
           stop_times_start_offset stop_times_end_offset
       else
         SliceIterator.SliceIterator stop_times_for_unique_trip_id_it
           stop_times_start_offset
           (SliceIterator.Length stop_times_for_unique_trip_id_it));
    s2 ← SliceIterator.for_each after_current_stop_it
           (depart_scan current_segment_for_stop marked_stop
                        stop_time_for_marked_stop) s1;
    Ok (s2, false).

(** The body of the loop over the stops marked for the round. *)
Definition depart_marked_stop (s : RaptorState)
    (marked_stop : RaptorMarkedStop) : Result RaptorState :=
  let current_segment_for_stop :=
    default zero_segment (segments s !! marked_ID marked_stop) in
  let stop_times_for_marked_stop :=
    index_of (p_StopTimesByUniqueStopId prepared_input)
             (marked_ID marked_stop) in
  SliceIterator.for_each
    (NewSliceIterator stop_times_for_marked_stop false)
    (depart_board current_segment_for_stop marked_stop) s.

(** ** SimpleRaptorArriveBy *)

(** The body of the loop over the transfers of the stop just reached. *)
Definition arrive_relax_transfer (preceeding_stop_time : GtfsStopTimeStruct)
    (existing_segment : RoundSegment) (s : RaptorState)
    (transfer_stop_index : Z) : Result RaptorState :=
  transfer_stop ← index_list (Transfers (Input prepared_input))
                    transfer_stop_index;
  let to := GetToUniqueStopID transfer_stop in
  let s1 :=
    match stops_marked_for_next_round s !! to with
    | Some _ => s
    | None =>
        set_marked_next
          (insert to (mark to RaptorMarkedStopSourceTransfer)) s
    end in
  let departure_time_from_transfer_stop :=
    sub64 (GetArrivalTimeInSeconds preceeding_stop_time)
          (GetMinimumTransferTimeInSeconds transfer_stop) in
  let improves :=
    match segments s1 !! to with
    | None => true
    | Some existing_transfer_segment =>
        bool_decide (departure_time_from_transfer_stop
                     > seg_ArrivalTimeInSeconds existing_transfer_segment)
    end in
  if improves then
    let updated_spans :=
      {| FromUniqueStopID := to;
         ToUniqueStopID := GetUniqueStopID preceeding_stop_time;
         span_ViaTrip := None;
         DepartureTimeInSecondsFromUniqueStopID :=
           departure_time_from_transfer_stop;
         ArrivalTimeInSecondsToUniqueStopID :=
           GetArrivalTimeInSeconds preceeding_stop_time |}
      :: Spans existing_segment in
    Ok (set_segments
          (insert to
             {| seg_UniqueStopID := to;
                seg_ArrivalTimeInSeconds := departure_time_from_transfer_stop;
                Spans := updated_spans |}) s1)
  else Ok s1.

(** The body of [preceeding_stop_times_loop]. *)
Definition arrive_scan (current_segment_for_stop : RoundSegment)
    (marked_stop : RaptorMarkedStop)
    (stop_time_for_marked_stop : GtfsStopTimeStruct)
    (preceeding_index : Z) (s : RaptorState) : Result (RaptorState * bool) :=
  preceeding_stop_time ← index_list (StopTimes (Input prepared_input))
                           preceeding_index;
  let stop := GetUniqueStopID preceeding_stop_time in
  let is_improvement_to_existing_arrival_time :=
    match segments s !! stop with
    | None => true
    | Some existing_segment =>
        bool_decide (GetArrivalTimeInSeconds preceeding_stop_time
                     > seg_ArrivalTimeInSeconds existing_segment)
    end in
  s1 ← (if is_improvement_to_existing_arrival_time then
          let updated_spans :=
            {| FromUniqueStopID := stop;
               ToUniqueStopID := GetUniqueStopID stop_time_for_marked_stop;
               span_ViaTrip := Some
                 {| UniqueTripID := GetUniqueTripID preceeding_stop_time;
                    UniqueTripServiceID :=
                      GetUniqueTripServiceID preceeding_stop_time;
                    FromStopSequenceInTrip :=
                      GetStopSequence preceeding_stop_time;
                    ToStopSequenceInTrip :=
                      GetStopSequence stop_time_for_marked_stop |};
               DepartureTimeInSecondsFromUniqueStopID :=
                 GetDepartureTimeInSeconds preceeding_stop_time;
               ArrivalTimeInSecondsToUniqueStopID :=
                 GetArrivalTimeInSeconds stop_time_for_marked_stop |}
            :: Spans current_segment_for_stop in
          let existing_segment :=
            {| seg_UniqueStopID := stop;
               seg_ArrivalTimeInSeconds :=
                 GetArrivalTimeInSeconds preceeding_stop_time;
               Spans := updated_spans |} in
          let s' := set_segments (insert stop existing_segment) s in
          if AllowTransferHopping input
             || bool_decide (Source marked_stop
                             = RaptorMarkedStopSourceArrival)
          then
            fold_result
              (arrive_relax_transfer preceeding_stop_time existing_segment)
              (elems (index_of (p_TransfersByUniqueStopId prepared_input)
                               stop))
              s'
          else Ok s'
        else Ok s);
  let s2 :=
    set_marked_next (insert stop (mark stop RaptorMarkedStopSourceArrival))
                    s1 in
  match FromStopsByUniqueStopId prepared_input !! stop with
  | Some _ =>
      Ok (check_journey (default zero_segment (segments s2 !! stop)) s2)
  | None => Ok (s2, false)
  end.

(** The body of the loop over the stop times of a marked stop. *)
Definition arrive_board (current_segment_for_stop : RoundSegment)
    (marked_stop : RaptorMarkedStop)
    (stop_time_index : Z) (s : RaptorState) : Result (RaptorState * bool) :=
  stop_time_for_marked_stop ← index_list (StopTimes (Input prepared_input))
                                stop_time_index;
  let scanned :=
    trips_scanned_from_sequence s
      !! GetUniqueTripID stop_time_for_marked_stop in
  let trip_already_scanned_from_sequence := default 0 scanned in
  let has_already_scanned_trip_from_sequence :=
    bool_decide (is_Some scanned) in
  if bool_decide (GetArrivalTimeInSeconds stop_time_for_marked_stop
                  > seg_ArrivalTimeInSeconds current_segment_for_stop)
     || (has_already_scanned_trip_from_sequence
         && bool_decide (GetStopSequence stop_time_for_marked_stop
                         ≤ trip_already_scanned_from_sequence))
  then Ok (s, false)
  else
    let s1 :=
      set_trips_scanned
        (insert (GetUniqueTripID stop_time_for_marked_stop)
                (GetStopSequence stop_time_for_marked_stop)) s in
    let stop_times_for_unique_trip_id_it :=
      NewSliceIterator
        (index_of (p_StopTimesByUniqueTripServiceId prepared_input)
                  (GetUniqueTripServiceID stop_time_for_marked_stop))
        true in
    last_index ← SliceIterator.First stop_times_for_unique_trip_id_it;
    last_stop_time ← index_list (StopTimes (Input prepared_input))
                       last_index;
    let stop_times_last_sequence := GetStopSequence last_stop_time in
    let stop_times_start_offset :=
      add64 (sub64 stop_times_last_sequence
                   (GetStopSequence stop_time_for_marked_stop)) 1 in
    let stop_times_end_offset :=
      sub64 stop_times_last_sequence trip_already_scanned_from_sequence in
    after_current_stop_it ←
      (if has_already_scanned_trip_from_sequence then
         SliceIterator.SliceIterator stop_times_for_unique_trip_id_it
           stop_times_start_offset stop_times_end_offset
       else
         SliceIterator.SliceIterator stop_times_for_unique_trip_id_it
           stop_times_start_offset
           (SliceIterator.Length stop_times_for_unique_trip_id_it));
    s2 ← SliceIterator.for_each after_current_stop_it
           (arrive_scan current_segment_for_stop marked_stop
                        stop_time_for_marked_stop) s1;
    Ok (s2, false).

(** The body of the loop over the stops marked for the round. *)
Definition arrive_marked_stop (s : RaptorState)
    (marked_stop : RaptorMarkedStop) : Result RaptorState :=
  let current_segment_for_stop :=
    default zero_segment (segments s !! marked_ID marked_stop) in
  let stop_times_for_marked_stop :=
    index_of (p_StopTimesByUniqueStopId prepared_input)
             (marked_ID marked_stop) in
  SliceIterator.for_each
    (NewSliceIterator stop_times_for_marked_stop true)
    (arrive_board current_segment_for_stop marked_stop) s.

End Search.

(** ** Rounds and entry points *)

(** [range_order r] drives the order in which round [r] visits the stops
    marked for it (a map range). *)
Variable range_order : nat → list nat.

Definition marked_in_order (r : nat) (m : gmap ID RaptorMarkedStop)
    : list RaptorMarkedStop :=
  pick_order (range_order r) (map_to_list m).*2.

(** One round: [process] is the body of the loop over the marked stops. *)
Definition raptor_round
    (process : RaptorState → RaptorMarkedStop → Result RaptorState)
    (r : nat) (s : RaptorState) : Result RaptorState :=
  s' ← fold_result process (marked_in_order r (stops_marked_for_round s))
         (begin_round s);
  Ok (end_round s').

(** [for range input.MaximumTransfers]: [n] rounds, the next one being [r]. *)
Fixpoint raptor_rounds
    (process : RaptorState → RaptorMarkedStop → Result RaptorState)
    (n : nat) (r : nat) (s : RaptorState) : Result RaptorState :=
  match n with
  | O => Ok s
  | S n' => s' ← raptor_round process r s; raptor_rounds process n' (S r) s'
  end.

(** The state before the first round: the [terminals] (origins when
    departing, destinations when arriving) are labelled with the reference
    time and marked. *)
Definition initial_state (input : SimpleRaptorInput)
    (terminals : list GtfsStopStruct) : RaptorState :=
  {| segments :=
       foldl (λ m stop,
                <[GetUniqueID stop :=
                    {| seg_UniqueStopID := GetUniqueID stop;
                       seg_ArrivalTimeInSeconds := TimeInSeconds input;
                       Spans := [] |}]> m)
             ∅ terminals;
     potential_journeys_found := [];
     potential_journey_fingerprints := ∅;
     stops_marked_for_round :=
       foldl (λ m stop,
                <[GetUniqueID stop :=
                    mark (GetUniqueID stop) RaptorMarkedStopSourceArrival]> m)
             ∅ terminals;
     stops_marked_for_next_round := ∅;
     trips_scanned_from_sequence := ∅ |}.

Definition SimpleRaptorDepartAt (input : SimpleRaptorInput)
    : Result (list Journey) :=
  let prepared_input := PrepareRaptorInput input in
  s ← raptor_rounds (depart_marked_stop input prepared_input)
        (Z.to_nat (MaximumTransfers input)) 0
        (initial_state input (FromStops input));
  Ok (potential_journeys_found s).

Definition SimpleRaptorArriveBy (input : SimpleRaptorInput)
    : Result (list Journey) :=
  let prepared_input := PrepareRaptorInput input in
  s ← raptor_rounds (arrive_marked_stop input prepared_input)
        (Z.to_nat (MaximumTransfers input)) 0
        (initial_state input (ToStops input));
  Ok (potential_journeys_found s).

Definition SimpleRaptor (input : SimpleRaptorInput) : Result (list Journey) :=
  if bool_decide (Mode input = RaptorModeDepartAt)
  then SimpleRaptorDepartAt input
  else SimpleRaptorArriveBy input.

End Raptor.

Arguments GtfsStopStruct : clear implicits.
Arguments GtfsTransferStruct : clear implicits.
Arguments GtfsStopTimeStruct : clear implicits.
Arguments ViaTrip : clear implicits.
Arguments RoundSegmentSpan : clear implicits.
Arguments RoundSegment : clear implicits.
Arguments Journey : clear implicits.
Arguments RaptorMarkedStop : clear implicits.
Arguments SimpleRaptorInput ID {_ _}.
Arguments PreparedRaptorInput ID {_ _}.
Arguments RaptorState ID {_ _}.

(** ** Properties of journeys and inputs *)

Section Properties.
Context {ID : Type} `{Countable ID}.
Variable fmt_v : ID → string.

(** The fingerprint of a journey: the fingerprint of its legs. *)
Definition journey_fingerprint (j : Journey ID) : string :=
  fingerprint_of_spans fmt_v (Legs j).

(** The legs are not empty and the first and the last one are rides. *)
Definition boundary_legs_in_vehicle (j : Journey ID) : Prop :=
  ∃ first_leg last_leg,
    head (Legs j) = Some first_leg ∧ last (Legs j) = Some last_leg ∧
    is_in_vehicle first_leg = true ∧ is_in_vehicle last_leg = true.

(** The number of rides of a journey. *)
Definition in_vehicle_legs (j : Journey ID) : nat :=
  length (filter (λ leg, is_in_vehicle leg = true) (Legs j)).

(** Time consistency of a sequence of legs: each leg departs no later than
    it arrives, and arrives no later than the next one departs. *)
Fixpoint legs_time_consistent (legs : list (RoundSegmentSpan ID)) : bool :=
  match legs with
  | [] => true
  | leg :: rest =>
      bool_decide (DepartureTimeInSecondsFromUniqueStopID leg
                   ≤ ArrivalTimeInSecondsToUniqueStopID leg)
      && match rest with
         | [] => true
         | next :: _ =>
             bool_decide (ArrivalTimeInSecondsToUniqueStopID leg
                          ≤ DepartureTimeInSecondsFromUniqueStopID next)
         end
      && legs_time_consistent rest
  end.

(** The input precondition on timetables: within each trip service the stop
    times are listed with strictly increasing stop sequences and times that
    never decrease, and each stop time arrives no later than it departs;
    transfer times are not negative. *)
Fixpoint trip_ascending (sts : list (GtfsStopTimeStruct ID)) : bool :=
  match sts with
  | [] => true
  | st :: rest =>
      bool_decide (GetArrivalTimeInSeconds st ≤ GetDepartureTimeInSeconds st)
      && match rest with
         | [] => true
         | next :: _ =>
             bool_decide (GetStopSequence st < GetStopSequence next)
             && bool_decide (GetDepartureTimeInSeconds st
                             ≤ GetArrivalTimeInSeconds next)
         end
      && trip_ascending rest
  end.

Definition timetable_precondition (input : SimpleRaptorInput ID) : bool :=
  forallb
    (λ st,
       trip_ascending
         (filter (λ st', GetUniqueTripServiceID st'
                         = GetUniqueTripServiceID st) (StopTimes input)))
    (StopTimes input)
  && forallb (λ tr, bool_decide (0 ≤ GetMinimumTransferTimeInSeconds tr))
             (Transfers input).

(** A by-stop index is sound when it lists under each stop only stop times
    at that stop.  The index built by [PrepareRaptorInput] is. *)
Definition by_stop_index_sound (input : SimpleRaptorInput ID) : Prop :=
  match StopTimesByUniqueStopId input with
  | None => True
  | Some supplied =>
      ∀ k sl i st,
        supplied !! k = Some sl → i ∈ elems sl →
        index_list (StopTimes input) i = Ok st → GetUniqueStopID st = k
  end.

(** The input with its three optional indices replaced. *)
Definition with_indices (input : SimpleRaptorInput ID)
    (transfers by_stop by_trip : option (gmap ID (GoSlice Z)))
    : SimpleRaptorInput ID :=
  {| FromStops := FromStops input;
     ToStops := ToStops input;
     Transfers := Transfers input;
     StopTimes := StopTimes input;
     Mode := Mode input;
     TimeInSeconds := TimeInSeconds input;
     MaximumTransfers := MaximumTransfers input;
     AllowTransferHopping := AllowTransferHopping input;
     TransfersByUniqueStopId := transfers;
     StopTimesByUniqueStopId := by_stop;
     StopTimesByUniqueTripServiceId := by_trip |}.

(** The input with the three indices left nil. *)
Definition without_indices (input : SimpleRaptorInput ID)
    : SimpleRaptorInput ID :=
  with_indices input None None None.

(** The input with the three indices set to the maps [PrepareRaptorInput]
    builds from the raw lists. *)
Definition with_prepared_indices (growcap : nat → nat)
    (input : SimpleRaptorInput ID) : SimpleRaptorInput ID :=
  let prepared := PrepareRaptorInput growcap (without_indices input) in
  with_indices input
    (Some (p_TransfersByUniqueStopId prepared))
    (Some (p_StopTimesByUniqueStopId prepared))
    (Some (p_StopTimesByUniqueTripServiceId prepared)).

End Properties.

(** ** The invariant behind the origin of depart-at journeys *)

Section OriginInvariant.
Context {ID : Type} `{Countable ID}.





End OriginInvariant.

(** ** The invariants behind the properties of the labels *)

Section Labels.
Context {ID : Type} `{Countable ID}.

(** The span [SimpleRaptorDepartAt] appends for a ride boarded at
    [stop_time_for_marked_stop] and left at [following_stop_time]. *)
Definition depart_ride_span
    (stop_time_for_marked_stop following_stop_time : GtfsStopTimeStruct ID)
    : RoundSegmentSpan ID :=
  {| FromUniqueStopID := GetUniqueStopID stop_time_for_marked_stop;
     ToUniqueStopID := GetUniqueStopID following_stop_time;
     span_ViaTrip := Some
       {| UniqueTripID := GetUniqueTripID following_stop_time;
          UniqueTripServiceID := GetUniqueTripServiceID following_stop_time;
          FromStopSequenceInTrip :=
            GetStopSequence stop_time_for_marked_stop;
          ToStopSequenceInTrip := GetStopSequence following_stop_time |};
     DepartureTimeInSecondsFromUniqueStopID :=
       GetDepartureTimeInSeconds stop_time_for_marked_stop;
     ArrivalTimeInSecondsToUniqueStopID :=
       GetArrivalTimeInSeconds following_stop_time |}.

(** The span it appends for the walk along [transfer_stop] from the stop of
    [following_stop_time]. *)
Definition depart_walk_span (following_stop_time : GtfsStopTimeStruct ID)
    (transfer_stop : GtfsTransferStruct ID) : RoundSegmentSpan ID :=
  {| FromUniqueStopID := GetUniqueStopID following_stop_time;
     ToUniqueStopID := GetToUniqueStopID transfer_stop;
     span_ViaTrip := None;
     DepartureTimeInSecondsFromUniqueStopID :=
       GetArrivalTimeInSeconds following_stop_time;
     ArrivalTimeInSecondsToUniqueStopID :=
       add64 (GetArrivalTimeInSeconds following_stop_time)
             (GetMinimumTransferTimeInSeconds transfer_stop) |}.

(** The span [SimpleRaptorArriveBy] prepends for a ride boarded at
    [preceeding_stop_time] and left at [stop_time_for_marked_stop]. *)
Definition arrive_ride_span
    (preceeding_stop_time stop_time_for_marked_stop : GtfsStopTimeStruct ID)
    : RoundSegmentSpan ID :=
  {| FromUniqueStopID := GetUniqueStopID preceeding_stop_time;
     ToUniqueStopID := GetUniqueStopID stop_time_for_marked_stop;
     span_ViaTrip := Some
       {| UniqueTripID := GetUniqueTripID preceeding_stop_time;
          UniqueTripServiceID := GetUniqueTripServiceID preceeding_stop_time;
          FromStopSequenceInTrip := GetStopSequence preceeding_stop_time;
          ToStopSequenceInTrip :=
            GetStopSequence stop_time_for_marked_stop |};
     DepartureTimeInSecondsFromUniqueStopID :=
       GetDepartureTimeInSeconds preceeding_stop_time;
     ArrivalTimeInSecondsToUniqueStopID :=
       GetArrivalTimeInSeconds stop_time_for_marked_stop |}.

(** The span it prepends for the walk along [transfer_stop] to the stop of
    [preceeding_stop_time]. *)
Definition arrive_walk_span (preceeding_stop_time : GtfsStopTimeStruct ID)
    (transfer_stop : GtfsTransferStruct ID) : RoundSegmentSpan ID :=
  {| FromUniqueStopID := GetToUniqueStopID transfer_stop;
     ToUniqueStopID := GetUniqueStopID preceeding_stop_time;
     span_ViaTrip := None;
     DepartureTimeInSecondsFromUniqueStopID :=
       sub64 (GetArrivalTimeInSeconds preceeding_stop_time)
             (GetMinimumTransferTimeInSeconds transfer_stop);
     ArrivalTimeInSecondsToUniqueStopID :=
       GetArrivalTimeInSeconds preceeding_stop_time |}.

(** A label: the segment the search stores for a stop. *)
Definition round_segment (stop : ID) (time : Z)
    (spans : list (RoundSegmentSpan ID)) : RoundSegment ID :=
  {| seg_UniqueStopID := stop; seg_ArrivalTimeInSeconds := time;
     Spans := spans |}.

(** The journey [check_journey] builds from the spans of a segment. *)
Definition journey_of_spans (first_segment_span last_segment_span
    : RoundSegmentSpan ID) (spans : list (RoundSegmentSpan ID))
    : Journey ID :=
  {| j_FromUniqueStopID := FromUniqueStopID first_segment_span;
     j_ToUniqueStopID := ToUniqueStopID last_segment_span;
     j_DepartureTimeInSeconds :=
       DepartureTimeInSecondsFromUniqueStopID first_segment_span;
     j_ArrivalTimeInSeconds :=
       ArrivalTimeInSecondsToUniqueStopID last_segment_span;
     Legs := spans |}.

(** The invariant of a search inside a round, for a property [L] of the
    labels and a property [J] of the journeys: every label satisfies [L],
    every journey [J], every stop marked for the next round is labelled,
    and so are the stops of [kept]. *)
Record labels_invariant (L : ID → RoundSegment ID → Prop)
    (J : Journey ID → Prop) (kept : list ID) (s : RaptorState ID)
    : Prop := {
  li_labels : ∀ k segment, segments s !! k = Some segment → L k segment;
  li_marked : ∀ k m,
    stops_marked_for_next_round s !! k = Some m →
    is_Some (segments s !! marked_ID m);
  li_journeys : ∀ j, j ∈ potential_journeys_found s → J j;
  li_kept : ∀ k, k ∈ kept → is_Some (segments s !! k);
}.

(** The same between rounds: the stops marked for the coming round are
    labelled. *)
Definition labels_round_invariant (L : ID → RoundSegment ID → Prop)
    (J : Journey ID → Prop) (s : RaptorState ID) : Prop :=
  (∀ k segment, segments s !! k = Some segment → L k segment) ∧
  (∀ k m, stops_marked_for_round s !! k = Some m →
          is_Some (segments s !! marked_ID m)) ∧
  (∀ j, j ∈ potential_journeys_found s → J j).

(** The depart-at search boards at the stop time [st], listed for the marked
    stop [m] whose label is [cur]: the label satisfies [L] and the stop time
    does not depart before the label's time. *)
Definition depart_boarded (p : PreparedRaptorInput ID)
    (L : ID → RoundSegment ID → Prop) (m : RaptorMarkedStop ID)
    (cur : RoundSegment ID) (st : GtfsStopTimeStruct ID) : Prop :=
  L (marked_ID m) cur ∧
  (∃ idx, idx ∈ elems (index_of (p_StopTimesByUniqueStopId p) (marked_ID m))
          ∧ index_list (StopTimes (Input p)) idx = Ok st) ∧
  seg_ArrivalTimeInSeconds cur ≤ GetDepartureTimeInSeconds st.

(** The arrive-by search alights at the stop time [st], listed for the
    marked stop [m] whose label is [cur]: the label satisfies [L] and the
    stop time does not arrive after the label's time. *)
Definition arrive_boarded (p : PreparedRaptorInput ID)
    (L : ID → RoundSegment ID → Prop) (m : RaptorMarkedStop ID)
    (cur : RoundSegment ID) (st : GtfsStopTimeStruct ID) : Prop :=
  L (marked_ID m) cur ∧
  (∃ idx, idx ∈ elems (index_of (p_StopTimesByUniqueStopId p) (marked_ID m))
          ∧ index_list (StopTimes (Input p)) idx = Ok st) ∧
  GetArrivalTimeInSeconds st ≤ seg_ArrivalTimeInSeconds cur.

End Labels.

(** ** Properties of legs *)

Section LegProperties.
Context {ID : Type} `{Countable ID}.

(** [R] relates every element of [l] to the next one. *)
Definition adjacent {A} (R : A → A → Prop) (l : list A) : Prop :=
  ∀ i a b, l !! i = Some a → l !! S i = Some b → R a b.

(** Each leg ends where the next one begins. *)
Definition legs_connected (legs : list (RoundSegmentSpan ID)) : Prop :=
  adjacent (λ a b, ToUniqueStopID a = FromUniqueStopID b) legs.

(** Each leg arrives no later than the next one departs. *)
Definition legs_chained_in_time (legs : list (RoundSegmentSpan ID)) : Prop :=
  adjacent (λ a b, ArrivalTimeInSecondsToUniqueStopID a
                   ≤ DepartureTimeInSecondsFromUniqueStopID b) legs.

(** No walk follows a walk. *)
Definition no_consecutive_walks (legs : list (RoundSegmentSpan ID)) : Prop :=
  adjacent (λ a b, is_in_vehicle a = true ∨ is_in_vehicle b = true) legs.

End LegProperties.

Section LegOrigins.
Context {ID : Type} `{Countable ID}.

(** A leg the depart-at search can build from the input. *)
Definition depart_leg_of_input (input : SimpleRaptorInput ID)
    (leg : RoundSegmentSpan ID) : Prop :=
  (∃ boarded alighted,
     boarded ∈ StopTimes input ∧ alighted ∈ StopTimes input ∧
     leg = depart_ride_span boarded alighted) ∨
  (∃ alighted transfer,
     alighted ∈ StopTimes input ∧ transfer ∈ Transfers input ∧
     leg = depart_walk_span alighted transfer).

(** A leg the arrive-by search can build from the input: the transfer of a
    walk is one the transfer index lists under the stop of the stop time
    the walk reaches. *)
Definition arrive_leg_of_input (input : SimpleRaptorInput ID)
    (transfers_by_stop : gmap ID (GoSlice Z))
    (leg : RoundSegmentSpan ID) : Prop :=
  (∃ boarded alighted,
     boarded ∈ StopTimes input ∧ alighted ∈ StopTimes input ∧
     leg = arrive_ride_span boarded alighted) ∨
  (∃ boarded index transfer,
     boarded ∈ StopTimes input ∧
     index ∈ elems (index_of transfers_by_stop (GetUniqueStopID boarded)) ∧
     index_list (Transfers input) index = Ok transfer ∧
     leg = arrive_walk_span boarded transfer).

End LegOrigins.

(** ** Inputs at the edge *)

Section Edge.
Context {ID : Type} `{Countable ID}.

(** The input with another bound on the number of rounds. *)
Definition with_maximum_transfers (input : SimpleRaptorInput ID) (n : Z)
    : SimpleRaptorInput ID :=
  {| FromStops := FromStops input;
     ToStops := ToStops input;
     Transfers := Transfers input;
     StopTimes := StopTimes input;
     Mode := Mode input;
     TimeInSeconds := TimeInSeconds input;
     MaximumTransfers := n;
     AllowTransferHopping := AllowTransferHopping input;
     TransfersByUniqueStopId := TransfersByUniqueStopId input;
     StopTimesByUniqueStopId := StopTimesByUniqueStopId input;
     StopTimesByUniqueTripServiceId :=
       StopTimesByUniqueTripServiceId input |}.

(** The stops a search starts from: the origins when departing, the
    destinations when arriving. *)
Definition starting_stops (input : SimpleRaptorInput ID)
    : list (GtfsStopStruct ID) :=
  if bool_decide (Mode input = RaptorModeDepartAt)
  then FromStops input else ToStops input.

End Edge.

(** The run returned, or it stopped on a slice expression out of range: no
    other panic. *)
Definition only_slice_bounds {A} (r : Result A) : Prop :=
  match r with
  | Ok _ => True
  | Panic p => p = SliceBoundsOutOfRange
  end.

(** ** Alightings on an ascending timetable *)

Section Alighting.
Context {ID : Type} `{Countable ID}.

(** The stop sequences of the input leave room for the offsets the
    searches compute from them, and the list of stop times has a length a
    Go slice can have. *)
Definition sequences_in_range (input : SimpleRaptorInput ID) : Prop :=
  Z.of_nat (length (StopTimes input)) ≤ max_int ∧
  ∀ st, st ∈ StopTimes input → 0 ≤ GetStopSequence st ≤ 2 ^ 62.

(** A stop time at a destination that arrives no later than the requested
    time: the first round of the arrive-by search does not skip it. *)
Definition reaches_in_time (input : SimpleRaptorInput ID)
    (st : GtfsStopTimeStruct ID) : Prop :=
  GetUniqueStopID st ∈ GetUniqueID <$> ToStops input ∧
  GetArrivalTimeInSeconds st ≤ TimeInSeconds input.

End Alighting.

(** ** Scenarios *)

(** The scenarios run on string identifiers, as the tests of the repository
    do; [%v] renders a string as itself. *)
Definition T_ref : Z := 1755964800.

Definition stop (id : string) : GtfsStopStruct string :=
  {| GetUniqueID := id |}.

Definition stop_time (stop_id trip : string) (seq arrival departure : Z)
    : GtfsStopTimeStruct string :=
  {| GetUniqueStopID := stop_id;
     GetUniqueTripID := trip;
     GetUniqueTripServiceID := trip;
     GetStopSequence := seq;
     GetArrivalTimeInSeconds := arrival;
     GetDepartureTimeInSeconds := departure |}.

Definition scenario (from to : list string)
    (stop_times : list (GtfsStopTimeStruct string))
    (mode : string) (time maximum_transfers : Z)
    : SimpleRaptorInput string :=
  {| FromStops := stop <$> from;
     ToStops := stop <$> to;
     Transfers := [];
     StopTimes := stop_times;
     Mode := mode;
     TimeInSeconds := time;
     MaximumTransfers := maximum_transfers;
     AllowTransferHopping := false;
     TransfersByUniqueStopId := None;
     StopTimesByUniqueStopId := None;
     StopTimesByUniqueTripServiceId := None |}.

Definition run (growcap : nat → nat) (range_order : nat → list nat)
    (input : SimpleRaptorInput string) : Result (list (Journey string)) :=
  SimpleRaptor EmptyString id growcap range_order input.

(** The timetable of S1 and S2: one trip, High St at sequence 5 and
    Franklin Av at sequence 6, in ascending order. *)
Definition single_trip : list (GtfsStopTimeStruct string) :=
  [ stop_time "High St" "A_20250823" 5 (T_ref - 10) (T_ref + 10);
    stop_time "Franklin Av" "A_20250823" 6 (T_ref + 120) (T_ref + 130) ].

Definition S1_input : SimpleRaptorInput string :=
  scenario ["High St"] ["Franklin Av"] single_trip RaptorModeDepartAt
           T_ref 4.

Definition S2_input : SimpleRaptorInput string :=
  scenario ["High St"] ["Franklin Av"] single_trip RaptorModeArriveBy
           (T_ref + 120) 4.

(** The inputs of [TestSimpleForwardRaptor] and [TestSimpleReverseRaptor]:
    the same trip on three successive days. *)
Definition epoch_20250822_120000_edt : Z := 1755878400.
Definition epoch_20250823_120000_edt : Z := 1755964800.
Definition epoch_20250824_120000_edt : Z := 1756051200.

Definition test_day (trip : string) (noon : Z)
    : list (GtfsStopTimeStruct string) :=
  [ stop_time "High St" trip 5 (noon - 10) (noon + 10);
    stop_time "Franklin Av" trip 6 (noon + 120) (noon + 130) ].

Definition test_stop_times : list (GtfsStopTimeStruct string) :=
  test_day "A_20250822" epoch_20250822_120000_edt
  ++ test_day "A_20250823" epoch_20250823_120000_edt
  ++ test_day "A_20250824" epoch_20250824_120000_edt.

Definition TestSimpleForwardRaptor_input : SimpleRaptorInput string :=
  scenario ["High St"] ["Franklin Av"] test_stop_times RaptorModeDepartAt
           epoch_20250823_120000_edt 4.

Definition TestSimpleReverseRaptor_input : SimpleRaptorInput string :=
  scenario ["High St"] ["Franklin Av"] test_stop_times RaptorModeArriveBy
           (epoch_20250823_120000_edt + 120) 4.

(** The same trip listed in descending order. *)
Definition descending_depart_input : SimpleRaptorInput string :=
  scenario ["High St"] ["Franklin Av"] (reverse single_trip)
           RaptorModeDepartAt T_ref 4.

(** The same trip listed in descending order, under a mode that is neither
    of the two constants. *)
Definition descending_trip_input : SimpleRaptorInput string :=
  scenario ["High St"] ["Franklin Av"] (reverse single_trip) "nonsense"
           (T_ref + 120) 4.

(** A trip of three stops whose second stop is the destination. *)
Definition three_stop_input : SimpleRaptorInput string :=
  scenario ["O"] ["F"]
    [ stop_time "O" "a" 1 5 10; stop_time "F" "a" 2 20 21;
      stop_time "G" "a" 3 30 31 ]
    RaptorModeDepartAt 0 1.

(** Trip t1 serves O, X, Y, W and Q; t2 reaches Y from X, t3 reaches W from
    Y and t4 reaches Z from W, each earlier than t1 does.  The destinations
    are the last stops the scans reach (Q, D2, D3 and Z).  Two rounds. *)
Definition chained_input : SimpleRaptorInput string :=
  scenario ["O"] ["Q"; "D2"; "D3"; "Z"]
    [ stop_time "O" "t1" 1 5 10; stop_time "X" "t1" 2 20 25;
      stop_time "Y" "t1" 3 100 105; stop_time "W" "t1" 4 200 205;
      stop_time "Q" "t1" 5 300 305;
      stop_time "X" "t2" 1 28 30; stop_time "Y" "t2" 2 50 55;
      stop_time "D2" "t2" 3 56 57;
      stop_time "Y" "t3" 1 58 60; stop_time "W" "t3" 2 70 75;
      stop_time "D3" "t3" 3 76 77;
      stop_time "W" "t4" 1 78 80; stop_time "Z" "t4" 2 90 95;
      stop_time "V" "t4" 3 96 97 ]
    RaptorModeDepartAt 0 2.

(** The same chain on trips of two stops, each listed in descending order:
    t1, u1 and v1 reach X, Y and W from O; t2, t3 and t4 as above. *)
Definition chained_descending_input : SimpleRaptorInput string :=
  scenario ["O"] ["Z"]
    [ stop_time "X" "t1" 2 20 25; stop_time "O" "t1" 1 5 10;
      stop_time "Y" "u1" 2 100 105; stop_time "O" "u1" 1 5 10;
      stop_time "W" "v1" 2 200 205; stop_time "O" "v1" 1 5 10;
      stop_time "Y" "t2" 2 50 55; stop_time "X" "t2" 1 28 30;
      stop_time "W" "t3" 2 70 75; stop_time "Y" "t3" 1 58 60;
      stop_time "Z" "t4" 2 90 95; stop_time "W" "t4" 1 78 80 ]
    RaptorModeDepartAt 0 2.

(** A visiting order that makes the same choices in every round. *)
Definition every_round (choices : list nat) (r : nat) : list nat := choices.

(** The order that visits the entries as the map lists them. *)
Definition as_listed : nat → list nat := every_round [].

(** The second round of [chained_input] has W, Y, Q and X marked, listed in
    this order; the choices 3, 1, 0 visit X, then Y, then W, then Q. *)
Definition x_then_y_then_w : nat → list nat :=
  every_round [3%nat; 1%nat; 0%nat].

(** The order that visits the first round as listed and every later round
    as [x_then_y_then_w] does. *)
Definition x_then_y_then_w_later (r : nat) : list nat :=
  match r with
  | O => []
  | _ => [3%nat; 1%nat; 0%nat]
  end.

(** The second round of [chained_descending_input] has O, W, Y and X
    marked, listed in this order; the choices 3, 2, 1 visit X, then Y, then
    W, then O. *)
Definition x_then_y_then_w_descending : nat → list nat :=
  every_round [3%nat; 2%nat; 1%nat].

(** Trip a (D, E) precedes trip b (O, X, Y) in the list; the destination is
    D, which trip b never serves. *)
Definition stray_input : SimpleRaptorInput string :=
  scenario ["O"] ["D"]
    [ stop_time "D" "a" 1 0 1; stop_time "E" "a" 2 5 6;
      stop_time "O" "b" 1 8 10; stop_time "X" "b" 2 20 21;
      stop_time "Y" "b" 3 30 31 ]
    RaptorModeDepartAt 9 1.


(** The same on a trip of three stops listed in ascending order. *)
Definition unsound_index_ascending_input : SimpleRaptorInput string :=
  with_indices
    (scenario ["O"] ["F"]
       [ stop_time "E" "a" 1 5 10; stop_time "F" "a" 2 20 21;
         stop_time "G" "a" 3 30 31 ]
       RaptorModeDepartAt 0 1)
    None (Some {[ "O" := mkSlice [0] [] ]}) None.

Definition transfer (from to : string) (seconds : Z)
    : GtfsTransferStruct string :=
  {| GetFromUniqueStopID := from; GetToUniqueStopID := to;
     GetMinimumTransferTimeInSeconds := seconds |}.

(** Trip t1 runs from O to X and trip t2 from Y to Z, each listed in
    descending order; X and Y are linked by a walk of two minutes in either
    direction.  Two rounds. *)
Definition walk_input (mode : string) (time : Z) : SimpleRaptorInput string :=
  {| FromStops := [stop "O"];
     ToStops := [stop "Z"];
     Transfers := [transfer "X" "Y" 120; transfer "Y" "X" 120];
     StopTimes :=
       [ stop_time "X" "t1" 2 20 25; stop_time "O" "t1" 1 5 10;
         stop_time "Z" "t2" 2 300 305; stop_time "Y" "t2" 1 195 200 ];
     Mode := mode;
     TimeInSeconds := time;
     MaximumTransfers := 2;
     AllowTransferHopping := false;
     TransfersByUniqueStopId := None;
     StopTimesByUniqueStopId := None;
     StopTimesByUniqueTripServiceId := None |}.

Definition walk_depart_input : SimpleRaptorInput string :=
  walk_input RaptorModeDepartAt 0.

Definition walk_arrive_input : SimpleRaptorInput string :=
  walk_input RaptorModeArriveBy 400.

(** S1 without an origin, and S1 without a timetable. *)
Definition no_origin_input : SimpleRaptorInput string :=
  scenario [] ["Franklin Av"] single_trip RaptorModeDepartAt T_ref 4.

Definition no_stop_time_input : SimpleRaptorInput string :=
  scenario ["High St"] ["Franklin Av"] [] RaptorModeDepartAt T_ref 4.

(** The trip of S2 asked for an arrival before the trip reaches the
    destination. *)
Definition too_early_input : SimpleRaptorInput string :=
  scenario ["High St"] ["Franklin Av"] single_trip RaptorModeArriveBy
           T_ref 4.

(** * Basic facts *)

(** ** Machine integers *)

Lemma wrap64_small z : min_int ≤ z ≤ max_int → wrap64 z = z.
Proof.
  unfold wrap64, min_int, max_int. intros Hz.
  rewrite Z.mod_small by lia. lia.
Qed.

(** ** Results *)

Lemma holds_bind {A B} (Q : A → Prop) (P : B → Prop) (r : Result A)
    (k : A → Result B) :
  holds Q r → (∀ a, Q a → holds P (k a)) → holds P (r ≫= k).
Proof. destruct r; simpl; auto. Qed.

Lemma index_list_Ok {A} (l : list A) i x :
  index_list l i = Ok x → 0 ≤ i ∧ l !! Z.to_nat i = Some x.
Proof.
  unfold index_list. case_bool_decide; [|done].
  destruct (l !! Z.to_nat i) eqn:E; [|done]. by intros [= ->].
Qed.

(** ** Loops *)

Lemma fold_result_inv {A St} (I : St → Prop) (f : St → A → Result St) l s :
  (∀ s x, x ∈ l → I s → holds I (f s x)) → I s →
  holds I (fold_result f l s).
Proof.
  revert s. induction l as [|x l IH]; intros s Hf Hs; simpl; [done|].
  eapply holds_bind.
  - apply Hf; [left|done].
  - intros s' Hs'. apply IH; [|done].
    intros s'' y Hy. apply Hf. by right.
Qed.

Lemma list_loop_inv {A St} (I : St → Prop)
    (body : A → St → Result (St * bool)) l s :
  (∀ x s, x ∈ l → I s → holds (λ r, I r.1) (body x s)) → I s →
  holds I (list_loop body l s).
Proof.
  revert s. induction l as [|x l IH]; intros s Hb Hs; simpl; [done|].
  eapply holds_bind.
  - apply Hb; [left|done].
  - intros [s' brk] Hs'. simpl in *. destruct brk; [done|].
    apply IH; [|done]. intros y s'' Hy. apply Hb. by right.
Qed.

(** The loop over a forward iterator standing at [i] visits the elements
    from [i] on. *)
Lemma loop_forward {T St} (body : T → St → Result (St * bool)) d n :
  ∀ fuel i s,
    (0 ≤ i ≤ len d) → (Z.to_nat (len d - i) < fuel)%nat →
    SliceIterator.loop fuel (SliceIterator.mk d n i false) body s
    = list_loop body (drop (Z.to_nat i) (elems d)) s.
Proof.
  induction fuel as [|fuel IH]; intros i s Hi Hfuel; [lia|].
  unfold len in *. simpl. unfold SliceIterator.HasNext. simpl.
  case_bool_decide as Hlt.
  - unfold SliceIterator.Next, SliceIterator.HasNext. simpl.
    rewrite bool_decide_true by done. simpl.
    unfold index_slice. rewrite bool_decide_true by lia.
    destruct (elems d !! Z.to_nat i) as [x|] eqn:Hx.
    2:{ apply lookup_ge_None in Hx. unfold len in *. lia. }
    rewrite (drop_S _ _ _ Hx). simpl.
    destruct (body x s) as [[s' brk]|p]; simpl; [|done].
    destruct brk; [done|].
    rewrite IH by (unfold len in *; lia).
    by replace (Z.to_nat (i + 1)) with (S (Z.to_nat i)) by lia.
  - rewrite drop_ge; [done|]. unfold len in *. lia.
Qed.

(** The loop over a reverse iterator standing at [i] visits the elements
    from [i] down to the first. *)
Lemma loop_reverse {T St} (body : T → St → Result (St * bool)) d n :
  ∀ fuel i s,
    (-1 ≤ i < len d) → (Z.to_nat (i + 1) < fuel)%nat →
    SliceIterator.loop fuel (SliceIterator.mk d n i true) body s
    = list_loop body (reverse (take (Z.to_nat (i + 1)) (elems d))) s.
Proof.
  induction fuel as [|fuel IH]; intros i s Hi Hfuel; [lia|].
  simpl. unfold SliceIterator.HasNext. simpl.
  case_bool_decide as Hlt.
  - unfold SliceIterator.Next, SliceIterator.HasNext. simpl.
    rewrite bool_decide_true by done. simpl.
    unfold index_slice. rewrite bool_decide_true by lia.
    destruct (elems d !! Z.to_nat i) as [x|] eqn:Hx.
    2:{ apply lookup_ge_None in Hx. unfold len in *. lia. }
    replace (Z.to_nat (i + 1)) with (S (Z.to_nat i)) by lia.
    rewrite (take_S_r _ _ _ Hx), reverse_snoc. simpl.
    destruct (body x s) as [[s' brk]|p]; simpl; [|done].
    destruct brk; [done|].
    rewrite (IH (i - 1) s') by lia.
    by replace (Z.to_nat (i - 1 + 1)) with (Z.to_nat i) by lia.
  - by replace (Z.to_nat (i + 1)) with 0%nat by lia.
Qed.

Lemma for_each_fresh {T St} (body : T → St → Result (St * bool)) d rev s :
  SliceIterator.for_each (NewSliceIterator d rev) body s
  = list_loop body (iteration_order d rev) s.
Proof.
  unfold SliceIterator.for_each, SliceIterator.New,
    iteration_order.
  destruct rev; cbn -[SliceIterator.loop Z.sub].
  - rewrite loop_reverse by (unfold len; lia).
    unfold len. replace (Z.to_nat _) with (length (elems d)) by lia.
    by rewrite take_ge.
  - rewrite loop_forward by (unfold len; lia). done.
Qed.

Lemma list_loop_collect {T} (l acc : list T) :
  list_loop (λ x acc, Ok (acc ++ [x], false)) l acc = Ok (acc ++ l).
Proof.
  revert acc. induction l as [|x l IH]; intros acc; simpl.
  - by rewrite app_nil_r.
  - rewrite IH. by rewrite <- app_assoc.
Qed.

Lemma visited_fresh {T} (d : GoSlice T) rev :
  SliceIterator.visited (NewSliceIterator d rev) = Ok (iteration_order d rev).
Proof.
  unfold SliceIterator.visited. rewrite for_each_fresh.
  by rewrite list_loop_collect.
Qed.

Lemma for_each_inv {T St} (I : St → Prop)
    (body : T → St → Result (St * bool)) d rev s :
  (∀ x s, x ∈ elems d → I s → holds (λ r, I r.1) (body x s)) → I s →
  holds I (SliceIterator.for_each (NewSliceIterator d rev) body s).
Proof.
  intros Hb Hs. rewrite for_each_fresh. apply list_loop_inv; [|done].
  intros x s' Hx Hs'. apply Hb; [|done]. unfold iteration_order in Hx.
  destruct rev; [by apply elem_of_reverse|done].
Qed.

(** * The sub-iterator *)

Example visited_forward :
  SliceIterator.visited (NewSliceIterator (mkSlice [1; 2; 3] []) false)
  = Ok [1; 2; 3].
Proof. reflexivity. Qed.

Example visited_reverse :
  SliceIterator.visited (NewSliceIterator (mkSlice [1; 2; 3] []) true)
  = Ok [3; 2; 1].
Proof. reflexivity. Qed.

Example sub_iterator_reverse :
  (sub ← SliceIterator.SliceIterator
           (NewSliceIterator (mkSlice [1; 2; 3; 4] []) true) 1 2;
   SliceIterator.visited sub)
  = Ok [3; 2].
Proof. reflexivity. Qed.

(** Three appends under the gc growth rule leave one spare cell. *)
Example gc_append_three :
  foldl (go_append gc_growcap 0) nil_slice [2; 3; 4] = mkSlice [2; 3; 4] [0].
Proof. reflexivity. Qed.

(** A count that reaches beyond the length panics when it also reaches
    beyond the capacity, and otherwise exposes the spare cells. *)
Example sub_iterator_beyond_capacity :
  SliceIterator.SliceIterator (NewSliceIterator (mkSlice [0; 1] []) false) 1 2
  = Panic SliceBoundsOutOfRange.
Proof. reflexivity. Qed.

Example sub_iterator_beyond_length :
  (sub ← SliceIterator.SliceIterator
           (NewSliceIterator (mkSlice [2; 3; 4] [0]) false) 1 3;
   SliceIterator.visited sub)
  = Ok [3; 4; 0].
Proof. reflexivity. Qed.

Lemma reslice_within {T} (d : GoSlice T) lo hi :
  0 ≤ lo → lo ≤ hi → hi ≤ len d →
  ∃ d', reslice d lo hi = Ok d' ∧
        elems d' = take (Z.to_nat (hi - lo)) (drop (Z.to_nat lo) (elems d)).
Proof.
  intros Hlo Hhi Hlen. unfold reslice, cap, len in *.
  rewrite bool_decide_true by lia.
  eexists; split; [done|]. simpl.
  rewrite drop_app_le by lia.
  rewrite take_app_le; [done|]. rewrite length_drop. lia.
Qed.

Lemma sub_order_reverse {T} (l : list T) (o c : nat) :
  (o + c ≤ length l)%nat →
  reverse (take c (drop (length l - o - c) l))
  = take c (drop o (reverse l)).
Proof.
  intros Hoc.
  rewrite drop_reverse, take_reverse, length_take.
  rewrite take_drop_commute. f_equal. f_equal; [lia|]. f_equal. lia.
Qed.

(** C7.  For a slice [d] (whose length fits an [int]), a direction flag, an
    offset [o >= 0] and a count [c >= 0] with [o + c <= len(d)], the
    iterator [SliceIterator(o, c)] of a new iterator over [d] exists and
    visits exactly the elements at positions [o .. o+c-1] of the order in
    which the parent visits [d]; for a reverse parent, offset 0 refers to
    the last element of [d]. *)
Theorem SliceIterator_sub_range {T} (d : GoSlice T) (rev : bool) (o c : Z) :
  0 ≤ o → 0 ≤ c → o + c ≤ len d → len d ≤ max_int →
  ∃ sub parent_order,
    SliceIterator.SliceIterator (NewSliceIterator d rev) o c = Ok sub ∧
    SliceIterator.visited (NewSliceIterator d rev) = Ok parent_order ∧
    SliceIterator.visited sub
      = Ok (take (Z.to_nat c) (drop (Z.to_nat o) parent_order)) ∧
    (rev = true → o = 0 → 0 < c →
     ∃ x, last (elems d) = Some x ∧ SliceIterator.First sub = Ok x).
Proof.
  intros Ho Hc Hoc Hmax.
  assert (Hmm : min_int ≤ 0 ∧ 0 ≤ max_int) by (unfold min_int, max_int; lia).
  unfold SliceIterator.SliceIterator. simpl.
  destruct rev; simpl.
  - unfold sub64.
    rewrite (wrap64_small (len d - o)) by lia.
    rewrite (wrap64_small (len d - o - c)) by lia.
    destruct (reslice_within d (len d - o - c) (len d - o))
      as (d' & -> & Hd'); [lia..|].
    replace (len d - o - (len d - o - c)) with c in Hd' by lia.
    exists (SliceIterator.New d' true), (reverse (elems d)). simpl.
    split; [done|]. split; [apply (visited_fresh d true)|].
    split.
    + rewrite (visited_fresh d' true). unfold iteration_order.
      rewrite Hd'. f_equal.
      rewrite <- sub_order_reverse by (unfold len in *; lia).
      do 3 f_equal. unfold len. lia.
    + intros _ -> Hc0. unfold SliceIterator.First, SliceIterator.New. simpl.
      assert (Hlen' : len d' = c).
      { unfold len in *. rewrite Hd', length_take, length_drop. lia. }
      rewrite bool_decide_false by lia.
      unfold index_slice. rewrite bool_decide_true by lia.
      rewrite Hlen', Hd', last_lookup.
      rewrite lookup_take_lt by lia. rewrite lookup_drop.
      replace (Z.to_nat (len d - 0 - c) + Z.to_nat (c - 1))%nat
        with (pred (length (elems d))) by (unfold len in *; lia).
      destruct (elems d !! pred (length (elems d))) as [x|] eqn:Hx.
      * by exists x.
      * apply lookup_ge_None in Hx. unfold len in *. lia.
  - unfold add64. rewrite (wrap64_small (o + c)) by lia.
    destruct (reslice_within d o (o + c)) as (d' & -> & Hd'); [lia..|].
    replace (o + c - o) with c in Hd' by lia.
    exists (SliceIterator.New d' false), (elems d). simpl.
    split; [done|]. split; [apply (visited_fresh d false)|].
    split; [|done].
    rewrite (visited_fresh d' false). unfold iteration_order. by rewrite Hd'.
Qed.


(** * Invariants of the journey list *)

(** Journeys and fingerprints are only added by [check_journey], and only
    under its guard.  A predicate on the journey list and the fingerprint
    map that the guarded addition preserves therefore holds of every
    result. *)
Section Journal.
Context {ID : Type} `{Countable ID}.
Variables (zero_ID : ID) (fmt_v : ID → string).
Variable P : list (Journey ID) → gmap string bool → Prop.

Hypothesis P_add : ∀ js fps seg first_span last_span,
  P js fps →
  fps !! GetFingerPrint fmt_v seg = None →
  head (Spans seg) = Some first_span →
  last (Spans seg) = Some last_span →
  is_in_vehicle first_span = true →
  is_in_vehicle last_span = true →
  P (js ++ [ {| j_FromUniqueStopID := FromUniqueStopID first_span;
                j_ToUniqueStopID := ToUniqueStopID last_span;
                j_DepartureTimeInSeconds :=
                  DepartureTimeInSecondsFromUniqueStopID first_span;
                j_ArrivalTimeInSeconds :=
                  ArrivalTimeInSecondsToUniqueStopID last_span;
                Legs := Spans seg |} ])
    (<[GetFingerPrint fmt_v seg := true]> fps).

Local Abbreviation JP := (λ s : RaptorState ID,
  P (potential_journeys_found s) (potential_journey_fingerprints s)).

Lemma check_journey_journal seg (s : RaptorState ID) :
  JP s → JP (check_journey fmt_v seg s).1.
Proof.
  intros Hs. unfold check_journey.
  destruct (potential_journey_fingerprints s !! _) eqn:Hfp; [done|].
  destruct (head (Spans seg)) as [f|] eqn:Hf; [|done].
  destruct (last (Spans seg)) as [l|] eqn:Hl; [|done].
  destruct (is_in_vehicle f) eqn:Hvf; [|done].
  destruct (is_in_vehicle l) eqn:Hvl; [|done].
  simpl. by apply P_add.
Qed.

(** The two searches share their shape; so do the proofs. *)
Local Ltac relax_journal :=
  destruct (index_list _ _) as [tr|]; simpl; [|done];
  repeat case_match; simpl; done.

Local Ltac scan_journal relax_lemma :=
  destruct (index_list _ _) as [fst|]; simpl; [|done];
  eapply (holds_bind JP);
  [ repeat case_match; simpl; try done;
    (apply fold_result_inv; [|done]); intros; by apply relax_lemma
  | intros s1 Hs1; case_match; simpl; [|done];
    by apply check_journey_journal ].

Lemma depart_relax_transfer_journal p fst seg (s : RaptorState ID) idx :
  JP s → holds JP (depart_relax_transfer p fst seg s idx).
Proof. intros Hs. unfold depart_relax_transfer. relax_journal. Qed.

Lemma arrive_relax_transfer_journal p fst seg (s : RaptorState ID) idx :
  JP s → holds JP (arrive_relax_transfer p fst seg s idx).
Proof. intros Hs. unfold arrive_relax_transfer. relax_journal. Qed.

Lemma depart_scan_journal input p cur m st idx (s : RaptorState ID) :
  JP s →
  holds (λ r, JP r.1) (depart_scan zero_ID fmt_v input p cur m st idx s).
Proof.
  intros Hs. unfold depart_scan. scan_journal depart_relax_transfer_journal.
Qed.

Lemma arrive_scan_journal input p cur m st idx (s : RaptorState ID) :
  JP s →
  holds (λ r, JP r.1) (arrive_scan zero_ID fmt_v input p cur m st idx s).
Proof.
  intros Hs. unfold arrive_scan. scan_journal arrive_relax_transfer_journal.
Qed.

(** Every sub-iterator is a new iterator over the sub-slice. *)
Lemma SliceIterator_fresh {T} (it : SliceIterator.t T) from num sub :
  SliceIterator.SliceIterator it from num = Ok sub →
  ∃ d, sub = NewSliceIterator d (SliceIterator.reverse it).
Proof.
  unfold SliceIterator.SliceIterator.
  destruct (SliceIterator.reverse it);
    destruct (reslice _ _ _) as [d|]; simpl; intros [= <-]; eauto.
Qed.

Local Ltac board_journal rev scan_lemma :=
  destruct (index_list _ _) as [st|]; simpl; [|done];
  case_match; simpl; [done|];
  destruct (SliceIterator.First _) as [fi|]; simpl; [|done];
  destruct (index_list _ _) as [fst|]; simpl; [|done];
  match goal with
  | |- holds _ (mbind _ ?r) =>
      let Hsub := fresh "Hsub" in
      destruct r as [sub|] eqn:Hsub; simpl; [|done];
      assert (∃ d, sub = NewSliceIterator d rev) as [d ->]
        by (destruct (bool_decide _) in Hsub;
            apply SliceIterator_fresh in Hsub; exact Hsub)
  end;
  eapply (holds_bind JP); [|by intros];
  (apply for_each_inv; [|done]); intros; by apply scan_lemma.

Lemma depart_board_journal input p cur m idx (s : RaptorState ID) :
  JP s →
  holds (λ r, JP r.1) (depart_board zero_ID fmt_v input p cur m idx s).
Proof.
  intros Hs. unfold depart_board. board_journal false depart_scan_journal.
Qed.

Lemma arrive_board_journal input p cur m idx (s : RaptorState ID) :
  JP s →
  holds (λ r, JP r.1) (arrive_board zero_ID fmt_v input p cur m idx s).
Proof.
  intros Hs. unfold arrive_board. board_journal true arrive_scan_journal.
Qed.

Lemma depart_marked_stop_journal input p (s : RaptorState ID) m :
  JP s → holds JP (depart_marked_stop zero_ID fmt_v input p s m).
Proof.
  intros Hs. unfold depart_marked_stop.
  apply for_each_inv; [|done]. intros; by apply depart_board_journal.
Qed.

Lemma arrive_marked_stop_journal input p (s : RaptorState ID) m :
  JP s → holds JP (arrive_marked_stop zero_ID fmt_v input p s m).
Proof.
  intros Hs. unfold arrive_marked_stop.
  apply for_each_inv; [|done]. intros; by apply arrive_board_journal.
Qed.

Lemma raptor_rounds_journal range_order process n r (s : RaptorState ID) :
  (∀ s m, JP s → holds JP (process s m)) →
  JP s → holds JP (raptor_rounds range_order process n r s).
Proof.
  intros Hp. revert r s. induction n as [|n IH]; intros r s Hs; simpl; [done|].
  eapply (holds_bind JP); [|by intros; apply IH].
  unfold raptor_round. eapply (holds_bind JP); [|by intros].
  apply fold_result_inv; [|done]. intros; by apply Hp.
Qed.

Lemma SimpleRaptor_journal growcap range_order input :
  P [] ∅ →
  holds (λ js, ∃ fps, P js fps)
        (SimpleRaptor zero_ID fmt_v growcap range_order input).
Proof.
  intros H0. unfold SimpleRaptor, SimpleRaptorDepartAt, SimpleRaptorArriveBy.
  case_bool_decide.
  - eapply (holds_bind JP); [|by intros; simpl; eauto].
    apply raptor_rounds_journal; [|done].
    intros; by apply depart_marked_stop_journal.
  - eapply (holds_bind JP); [|by intros; simpl; eauto].
    apply raptor_rounds_journal; [|done].
    intros; by apply arrive_marked_stop_journal.
Qed.

End Journal.

(** * Properties of every result *)

Section Universal.
Context {ID : Type} `{Countable ID}.
Variables (zero_ID : ID) (fmt_v : ID → string).
Variables (growcap : nat → nat) (range_order : nat → list nat).

(** C3.  In both modes every journey returned has at least one leg, and its
    first and its last leg are rides (their [ViaTrip] is not nil). *)
Theorem journeys_boundary_legs_in_vehicle (input : SimpleRaptorInput ID) js :
  SimpleRaptor zero_ID fmt_v growcap range_order input = Ok js →
  ∀ j, j ∈ js → boundary_legs_in_vehicle j.
Proof.
  intros Hrun.
  cut (holds (λ js, ∃ fps : gmap string bool,
                ∀ j, j ∈ js → boundary_legs_in_vehicle j)
             (SimpleRaptor zero_ID fmt_v growcap range_order input)).
  { rewrite Hrun. by intros [_ ?]. }
  apply (SimpleRaptor_journal zero_ID fmt_v
    (λ js _, ∀ j, j ∈ js → boundary_legs_in_vehicle j)).
  - intros js0 fps seg f l Hjs _ Hf Hl Hvf Hvl j [Hj|Hj]%elem_of_app.
    + by apply Hjs.
    + apply list_elem_of_singleton in Hj as ->.
      exists f, l. by simpl.
  - intros j Hj. by apply elem_of_nil in Hj.
Qed.

(** C8.  In both modes the journeys returned have pairwise distinct
    fingerprints. *)
Theorem journeys_fingerprints_distinct (input : SimpleRaptorInput ID) js :
  SimpleRaptor zero_ID fmt_v growcap range_order input = Ok js →
  NoDup (journey_fingerprint fmt_v <$> js).
Proof.
  intros Hrun.
  cut (holds (λ js, ∃ fps : gmap string bool,
                NoDup (journey_fingerprint fmt_v <$> js) ∧
                ∀ j, j ∈ js → is_Some (fps !! journey_fingerprint fmt_v j))
             (SimpleRaptor zero_ID fmt_v growcap range_order input)).
  { rewrite Hrun. by intros [_ [? _]]. }
  apply (SimpleRaptor_journal zero_ID fmt_v
    (λ js fps, NoDup (journey_fingerprint fmt_v <$> js) ∧
               ∀ j, j ∈ js → is_Some (fps !! journey_fingerprint fmt_v j))).
  - intros js0 fps seg f l [Hnd Hin] Hfresh _ _ _ _. split.
    + rewrite fmap_app. apply NoDup_app. split; [done|]. split.
      * intros fp [j [-> Hj]]%list_elem_of_fmap Hfp.
        apply list_elem_of_singleton in Hfp.
        apply Hin in Hj. unfold journey_fingerprint in Hfp at 2.
        simpl in Hfp. unfold GetFingerPrint in Hfresh.
        rewrite Hfp, Hfresh in Hj. by destruct Hj.
      * apply NoDup_singleton.
    + intros j [Hj|Hj]%elem_of_app.
      * destruct (decide (GetFingerPrint fmt_v seg
                          = journey_fingerprint fmt_v j)) as [->|Hne].
        -- rewrite lookup_insert_eq. eauto.
        -- rewrite lookup_insert_ne by done. by apply Hin.
      * apply list_elem_of_singleton in Hj as ->.
        unfold journey_fingerprint. simpl. unfold GetFingerPrint.
        rewrite lookup_insert_eq. eauto.
  - split; [constructor|]. intros j Hj. by apply elem_of_nil in Hj.
Qed.

(** The searches read their input through the lists and flags of the input
    and through the prepared maps only. *)
Lemma depart_marked_stop_same_data (input input' : SimpleRaptorInput ID)
    (p p' : PreparedRaptorInput ID) :
  AllowTransferHopping input' = AllowTransferHopping input →
  StopTimes (Input p') = StopTimes (Input p) →
  Transfers (Input p') = Transfers (Input p) →
  ToStopsByUniqueStopId p' = ToStopsByUniqueStopId p →
  p_TransfersByUniqueStopId p' = p_TransfersByUniqueStopId p →
  p_StopTimesByUniqueStopId p' = p_StopTimesByUniqueStopId p →
  p_StopTimesByUniqueTripServiceId p'
  = p_StopTimesByUniqueTripServiceId p →
  depart_marked_stop zero_ID fmt_v input' p'
  = depart_marked_stop zero_ID fmt_v input p.
Proof.
  intros Hhop Hsts Htrs Hto Htr Hst Htrip.
  unfold depart_marked_stop, depart_board, depart_scan,
    depart_relax_transfer.
  by rewrite Hhop, Hsts, Htrs, Hto, Htr, Hst, Htrip.
Qed.

Lemma arrive_marked_stop_same_data (input input' : SimpleRaptorInput ID)
    (p p' : PreparedRaptorInput ID) :
  AllowTransferHopping input' = AllowTransferHopping input →
  StopTimes (Input p') = StopTimes (Input p) →
  Transfers (Input p') = Transfers (Input p) →
  FromStopsByUniqueStopId p' = FromStopsByUniqueStopId p →
  p_TransfersByUniqueStopId p' = p_TransfersByUniqueStopId p →
  p_StopTimesByUniqueStopId p' = p_StopTimesByUniqueStopId p →
  p_StopTimesByUniqueTripServiceId p'
  = p_StopTimesByUniqueTripServiceId p →
  arrive_marked_stop zero_ID fmt_v input' p'
  = arrive_marked_stop zero_ID fmt_v input p.
Proof.
  intros Hhop Hsts Htrs Hfrom Htr Hst Htrip.
  unfold arrive_marked_stop, arrive_board, arrive_scan,
    arrive_relax_transfer.
  by rewrite Hhop, Hsts, Htrs, Hfrom, Htr, Hst, Htrip.
Qed.

(** [PrepareRaptorInput] adopts supplied indices as they are: supplying the
    maps it builds from the raw lists reproduces those maps. *)
Lemma PrepareRaptorInput_with_prepared_indices (input : SimpleRaptorInput ID) :
  let built := PrepareRaptorInput growcap (without_indices input) in
  let adopted :=
    PrepareRaptorInput growcap (with_prepared_indices growcap input) in
  p_TransfersByUniqueStopId adopted = p_TransfersByUniqueStopId built ∧
  p_StopTimesByUniqueStopId adopted = p_StopTimesByUniqueStopId built ∧
  p_StopTimesByUniqueTripServiceId adopted
  = p_StopTimesByUniqueTripServiceId built ∧
  FromStopsByUniqueStopId adopted = FromStopsByUniqueStopId built ∧
  ToStopsByUniqueStopId adopted = ToStopsByUniqueStopId built.
Proof.
  unfold with_prepared_indices, without_indices, with_indices,
    PrepareRaptorInput. cbn. done.
Qed.

(** C6 as amended.  Running with the three optional indices left nil and
    running with them set to the maps [PrepareRaptorInput] builds from the
    raw lists of the same input give the same result, the same journeys in
    the same order or the same panic, provided both runs visit the marked
    stops of every round in the same order: [range_order] is the order of
    both. *)
Theorem index_supply_idempotent (input : SimpleRaptorInput ID) :
  SimpleRaptor zero_ID fmt_v growcap range_order
    (with_prepared_indices growcap input)
  = SimpleRaptor zero_ID fmt_v growcap range_order (without_indices input).
Proof.
  destruct (PrepareRaptorInput_with_prepared_indices input)
    as (Htr & Hst & Htrip & Hfrom & Hto).
  unfold SimpleRaptor.
  change (Mode (with_prepared_indices growcap input))
    with (Mode (without_indices input)).
  case_bool_decide.
  - unfold SimpleRaptorDepartAt.
    rewrite (depart_marked_stop_same_data (without_indices input)
               (with_prepared_indices growcap input)
               (PrepareRaptorInput growcap (without_indices input)))
      by done.
    done.
  - unfold SimpleRaptorArriveBy.
    rewrite (arrive_marked_stop_same_data (without_indices input)
               (with_prepared_indices growcap input)
               (PrepareRaptorInput growcap (without_indices input)))
      by done.
    done.
Qed.

(** C9 as amended.  [SimpleRaptor] only tests whether the mode is
    [depart_at]: under every other mode value, [arrive_by] or not, it runs
    the arrive-by search and returns its result.  No mode value is reported
    as an error. *)
Theorem impossible_mode_runs_arrive_by (input : SimpleRaptorInput ID) :
  Mode input ≠ RaptorModeDepartAt →
  SimpleRaptor zero_ID fmt_v growcap range_order input
  = SimpleRaptorArriveBy zero_ID fmt_v growcap range_order input.
Proof.
  intros Hm. unfold SimpleRaptor. by rewrite bool_decide_false.
Qed.

End Universal.

(** * Depart-at journeys begin at an origin *)

Lemma pick_order_elem_of {A} (choices : list nat) (l : list A) x :
  x ∈ pick_order choices l → x ∈ l.
Proof.
  revert l. induction choices as [|c cs IH]; intros l; simpl; [done|].
  destruct (l !! _) as [y|] eqn:Hy; [|done].
  intros [->|Hx]%elem_of_cons.
  - by eapply list_elem_of_lookup_2.
  - eapply list_elem_of_delete_inv. by apply IH.
Qed.

Section Maps.
Context {ID : Type} `{Countable ID}.

Lemma foldl_insert_lookup {A V} (key : A → ID) (val : A → V) l
    (m0 : gmap ID V) k v :
  foldl (λ m x, <[key x := val x]> m) m0 l !! k = Some v →
  (∃ x, x ∈ l ∧ key x = k ∧ val x = v) ∨ m0 !! k = Some v.
Proof.
  revert m0. induction l as [|x l IH]; intros m0; simpl; [by right|].
  intros [(y & Hy & Hk & Hv)|Hm]%IH.
  - left. exists y. split; [by right|done].
  - rewrite lookup_insert in Hm. case_decide as Hk.
    + injection Hm as <-. left. exists x. split; [left|done].
    + by right.
Qed.

Lemma foldl_insert_is_Some {A V} (key : A → ID) (val : A → V) l
    (m0 : gmap ID V) k :
  (∃ x, x ∈ l ∧ key x = k) ∨ is_Some (m0 !! k) →
  is_Some (foldl (λ m x, <[key x := val x]> m) m0 l !! k).
Proof.
  revert m0. induction l as [|x l IH]; intros m0; simpl.
  - intros [(y & Hy & _)|Hm]; [by apply elem_of_nil in Hy|done].
  - intros [(y & [->|Hy]%elem_of_cons & Hk)|Hm]; apply IH.
    + right. subst. rewrite lookup_insert_eq. eauto.
    + left. eauto.
    + right. apply lookup_insert_is_Some'. by right.
Qed.

(** The index [add_index] builds. *)
Lemma lookup_add_index growcap (m : gmap ID (GoSlice Z)) k index k' :
  add_index growcap m k index !! k'
  = if decide (k = k')
    then Some (go_append growcap 0 (default nil_slice (m !! k)) index)
    else m !! k'.
Proof.
  unfold add_index. rewrite lookup_insert. case_decide; [|by case_match;
    [|rewrite lookup_insert_ne]].
  f_equal. f_equal. destruct (m !! k) eqn:Hk; simpl.
  - by rewrite Hk.
  - by rewrite lookup_insert_eq.
Qed.

Lemma elems_go_append {T} growcap (zero : T) s x :
  elems (go_append growcap zero s x) = elems s ++ [x].
Proof. done. Qed.

End Maps.


Section Origin.
Context {ID : Type} `{Countable ID}.
Variables (zero_ID : ID) (fmt_v : ID → string).
Variable input : SimpleRaptorInput ID.
Variable p : PreparedRaptorInput ID.
Variable origins : list ID.

Hypothesis by_stop_sound : ∀ k sl i st,
  p_StopTimesByUniqueStopId p !! k = Some sl → i ∈ elems sl →
  index_list (StopTimes (Input p)) i = Ok st → GetUniqueStopID st = k.










End Origin.

Section Rounds.
Context {ID : Type} `{Countable ID}.
Variables (zero_ID : ID) (fmt_v : ID → string).
Variables (growcap : nat → nat) (range_order : nat → list nat).


Lemma range_fold_fst {A S1 S2} (f : Z → A → S1 * S2 → S1 * S2)
    (g : Z → A → S1 → S1) l i acc :
  (∀ i x acc, (f i x acc).1 = g i x acc.1) →
  (range_fold f i l acc).1 = range_fold g i l acc.1.
Proof.
  intros Hfg. revert i acc. induction l as [|x l IH]; intros i acc; simpl.
  - done.
  - by rewrite IH, Hfg.
Qed.

Lemma range_fold_id {A S1} (g : Z → A → S1 → S1) l i acc :
  (∀ i x acc, g i x acc = acc) → range_fold g i l acc = acc.
Proof.
  intros Hg. revert i acc. induction l as [|x l IH]; intros i acc; simpl.
  - done.
  - by rewrite IH, Hg.
Qed.

Lemma built_by_stop_sound (sts pre l : list (GtfsStopTimeStruct ID))
    (m : gmap ID (GoSlice Z)) :
  sts = pre ++ l →
  (∀ k sl i st, m !! k = Some sl → i ∈ elems sl →
                index_list sts i = Ok st → GetUniqueStopID st = k) →
  ∀ k sl i st,
    range_fold
      (λ index stop_time m,
         add_index growcap m (GetUniqueStopID stop_time) index)
      (Z.of_nat (length pre)) l m !! k = Some sl →
    i ∈ elems sl → index_list sts i = Ok st → GetUniqueStopID st = k.
Proof.
  revert pre m. induction l as [|x l IH]; intros pre m Hsts Hm; simpl.
  - exact Hm.
  - replace (Z.of_nat (length pre) + 1) with (Z.of_nat (length (pre ++ [x])))
      by (rewrite length_app; simpl; lia).
    apply IH; [by rewrite <- app_assoc|].
    intros k sl i st. rewrite lookup_add_index. case_decide as Hk.
    + intros [= <-]. rewrite elems_go_append.
      intros [Hi|Hi]%elem_of_app.
      * destruct (m !! GetUniqueStopID x) as [sl|] eqn:Hsl; simpl in Hi.
        -- rewrite <- Hk. by eapply Hm.
        -- by apply elem_of_nil in Hi.
      * apply list_elem_of_singleton in Hi as ->.
        intros [_ Hst]%index_list_Ok.
        rewrite Nat2Z.id, Hsts, lookup_app_r, Nat.sub_diag in Hst by lia.
        simpl in Hst. by injection Hst as <-.
    + apply Hm.
Qed.

Lemma prepared_by_stop_sound (input : SimpleRaptorInput ID) :
  by_stop_index_sound input →
  ∀ k sl i st,
    p_StopTimesByUniqueStopId (PrepareRaptorInput growcap input) !! k
      = Some sl →
    i ∈ elems sl →
    index_list (StopTimes input) i = Ok st → GetUniqueStopID st = k.
Proof.
  unfold by_stop_index_sound, PrepareRaptorInput.
  cbn [p_StopTimesByUniqueStopId].
  destruct (StopTimesByUniqueStopId input) as [supplied|].
  - intros Hsound k sl i st.
    destruct (negb _ || negb _); [|by apply Hsound].
    rewrite (range_fold_fst _ (λ _ _ m, m)) by done.
    rewrite range_fold_id by done. by apply Hsound.
  - intros _ k sl i st.
    rewrite (bool_decide_false (is_Some None)) by (by intros [? ?]).
    cbn [negb orb].
    rewrite (range_fold_fst _
      (λ index stop_time m,
         add_index growcap m (GetUniqueStopID stop_time) index)) by done.
    apply (built_by_stop_sound (StopTimes input) [] (StopTimes input));
      [done|].
    intros k' sl' i' st'. simpl. by rewrite lookup_empty.
Qed.


End Rounds.

(** * Scenarios *)

Lemma pick_order_nil {A} (choices : list nat) : pick_order choices [] = @nil A.
Proof. by destruct choices. Qed.

Lemma pick_order_singleton {A} (choices : list nat) (x : A) :
  pick_order choices [x] = [x].
Proof.
  destruct choices as [|c cs]; [done|].
  cbn [pick_order Datatypes.length]. rewrite Nat.mod_1_r. simpl.
  by rewrite pick_order_nil.
Qed.

(** A round with a single marked stop does not depend on the visiting
    order. *)
Lemma raptor_round_single {ID : Type} `{Countable ID} range_order
    (process : RaptorState ID → RaptorMarkedStop ID → Result (RaptorState ID))
    r s m :
  (map_to_list (stops_marked_for_round s)).*2 = [m] →
  raptor_round range_order process r s
  = (s' ← process (begin_round s) m; Ok (end_round s')).
Proof.
  intros Hm. unfold raptor_round, marked_in_order.
  rewrite Hm, pick_order_singleton. simpl.
  by destruct (process _ _).
Qed.

(** When the only stop marked for the first round makes the search panic,
    so do the rounds. *)
Lemma first_round_panic {ID : Type} `{Countable ID} range_order
    (process : RaptorState ID → RaptorMarkedStop ID → Result (RaptorState ID))
    n s m p :
  (map_to_list (stops_marked_for_round s)).*2 = [m] →
  process (begin_round s) m = Panic p →
  raptor_rounds range_order process (S n) 0 s = Panic p.
Proof.
  intros Hm Hp. cbn [raptor_rounds].
  by rewrite (raptor_round_single _ _ _ _ m Hm), Hp.
Qed.

(** The trip index [PrepareRaptorInput] builds for S1 under the gc growth
    rule: two cells, none spare. *)
Example S1_trip_index :
  p_StopTimesByUniqueTripServiceId (PrepareRaptorInput gc_growcap S1_input)
    !! "A_20250823"
  = Some (mkSlice [0; 1] []).
Proof. vm_compute. reflexivity. Qed.

(** C1.  On scenario S1 the first boarding asks the trip's index slice
    (length 2, capacity 2) for the sub-iterator [SliceIterator(1, 2)], that
    is for [data[1:3]]: the search panics instead of returning the journey,
    whatever the visiting order. *)
Theorem S1_panics range_order :
  run gc_growcap range_order S1_input = Panic SliceBoundsOutOfRange.
Proof.
  unfold run, SimpleRaptor, SimpleRaptorDepartAt.
  rewrite bool_decide_true by done.
  change (Z.to_nat (MaximumTransfers S1_input)) with 4%nat.
  by rewrite (first_round_panic _ _ _ _
                (mark "High St" RaptorMarkedStopSourceArrival)
                SliceBoundsOutOfRange)
    by (vm_compute; reflexivity).
Qed.

(** C2.  On scenario S2 the first alighting asks the reverse iterator over
    the trip's index slice (length 2) for [SliceIterator(1, 2)], that is for
    [data[-1:1]]: the search panics, whatever the capacity of the slice and
    the visiting order. *)
Theorem S2_panics growcap range_order :
  run growcap range_order S2_input = Panic SliceBoundsOutOfRange.
Proof.
  unfold run, SimpleRaptor, SimpleRaptorArriveBy.
  rewrite bool_decide_false by done.
  change (Z.to_nat (MaximumTransfers S2_input)) with 4%nat.
  by rewrite (first_round_panic _ _ _ _
                (mark "Franklin Av" RaptorMarkedStopSourceArrival)
                SliceBoundsOutOfRange)
    by (vm_compute; reflexivity).
Qed.

(** The two tests of the repository that S1 and S2 summarise meet the same
    panics. *)
Lemma TestSimpleForwardRaptor_panics range_order :
  run gc_growcap range_order TestSimpleForwardRaptor_input
  = Panic SliceBoundsOutOfRange.
Proof.
  unfold run, SimpleRaptor, SimpleRaptorDepartAt.
  rewrite bool_decide_true by done.
  change (Z.to_nat (MaximumTransfers TestSimpleForwardRaptor_input))
    with 4%nat.
  by rewrite (first_round_panic _ _ _ _
                (mark "High St" RaptorMarkedStopSourceArrival)
                SliceBoundsOutOfRange)
    by (vm_compute; reflexivity).
Qed.

Lemma TestSimpleReverseRaptor_panics growcap range_order :
  run growcap range_order TestSimpleReverseRaptor_input
  = Panic SliceBoundsOutOfRange.
Proof.
  unfold run, SimpleRaptor, SimpleRaptorArriveBy.
  rewrite bool_decide_false by done.
  change (Z.to_nat (MaximumTransfers TestSimpleReverseRaptor_input))
    with 4%nat.
  by rewrite (first_round_panic _ _ _ _
                (mark "Franklin Av" RaptorMarkedStopSourceArrival)
                SliceBoundsOutOfRange)
    by (vm_compute; reflexivity).
Qed.

(** With one spare cell in the trip's index slice the same scenario returns
    the journey of S1: what the search does there depends on the capacity
    the runtime happened to give the slice. *)
Lemma S1_with_spare_capacity :
  ∃ j, run (λ _, 3%nat) as_listed S1_input = Ok [j] ∧
       j_DepartureTimeInSeconds j = T_ref + 10 ∧
       j_ArrivalTimeInSeconds j = T_ref + 120 ∧
       ∃ leg, Legs j = [leg] ∧ is_in_vehicle leg = true.
Proof.
  eexists. split; [vm_compute; reflexivity|]. simpl.
  repeat split; eauto.
Qed.

(** On a valid timetable the over-long sub-iterator is the rule: a trip of
    three stops, boarded at its first stop, is scanned when the runtime left
    a spare cell in its index slice and makes the search panic when it did
    not. *)
Example three_stop_input_gc :
  ∃ j, run gc_growcap as_listed three_stop_input = Ok [j] ∧
       ∃ leg, Legs j = [leg] ∧ is_in_vehicle leg = true.
Proof.
  eexists. split; [vm_compute; reflexivity|]. simpl. eauto.
Qed.

Example three_stop_input_exact :
  run exact_growcap as_listed three_stop_input = Panic SliceBoundsOutOfRange.
Proof. vm_compute. reflexivity. Qed.

(** The order in which [x_then_y_then_w] visits the four stops marked for
    the second round of [chained_input]. *)
Example chained_input_second_round_order :
  marked_ID <$>
    marked_in_order x_then_y_then_w 1
      (list_to_map
         ((λ k, (k, mark k RaptorMarkedStopSourceArrival))
            <$> ["X"; "Y"; "W"; "Q"]))
  = ["X"; "Y"; "W"; "Q"].
Proof. vm_compute. reflexivity. Qed.

(** C4.  [chained_input] satisfies the timetable precondition and allows two
    rounds.  When the second round visits X, then Y, then W, the visit of X
    extends the label of Y to two rides, the visit of Y extends the label of
    W to three and the visit of W boards a fourth trip, all in the same
    round: the search returns a journey of four rides (three transfers),
    more than [MaximumTransfers]. *)
Theorem chained_input_exceeds_maximum_transfers :
  timetable_precondition chained_input = true ∧
  ∃ js j, run gc_growcap x_then_y_then_w chained_input = Ok js ∧
          journey_fingerprint id <$> js
          = ["O|t1|Q"; "O|t1|X->X|t2|D2"; "O|t1|X->X|t2|Y->Y|t3|D3";
             "O|t1|X->X|t2|Y->Y|t3|W->W|t4|Z"] ∧
          j ∈ js ∧ in_vehicle_legs j = 4%nat ∧
          MaximumTransfers chained_input + 1 < Z.of_nat (in_vehicle_legs j).
Proof.
  split; [vm_compute; reflexivity|].
  eexists _, _. split; [vm_compute; reflexivity|].
  split; [vm_compute; reflexivity|].
  split; [right; right; right; left|].
  vm_compute. done.
Qed.

(** The same chaining without any spare capacity: when no slice has a spare
    cell and the trips are listed in descending order (so that every
    sub-iterator stays within the length of its slice), two rounds again
    return a journey of four rides. *)
Lemma chained_descending_input_exceeds_maximum_transfers :
  ∃ j, run exact_growcap x_then_y_then_w_descending chained_descending_input
       = Ok [j] ∧
       journey_fingerprint id j = "O|t1|X->X|t2|Y->Y|t3|W->W|t4|Z" ∧
       in_vehicle_legs j = 4%nat.
Proof.
  eexists. split; [vm_compute; reflexivity|].
  split; vm_compute; reflexivity.
Qed.

(** C5.  [stray_input] satisfies the timetable precondition.  Boarding trip
    b at O asks its index slice (length 3, capacity 4) for [data[1:4]]; the
    fourth cell is the zero beyond the length, so stop time 0 (trip a at D,
    arriving at 0) is scanned as a stop of trip b.  The journey returned
    departs at 10 and arrives at 0. *)
Theorem stray_input_journey_not_time_consistent range_order :
  timetable_precondition stray_input = true ∧
  ∃ j, run gc_growcap range_order stray_input = Ok [j] ∧
       j_DepartureTimeInSeconds j = 10 ∧ j_ArrivalTimeInSeconds j = 0 ∧
       legs_time_consistent (Legs j) = false.
Proof.
  split; [vm_compute; reflexivity|].
  unfold run, SimpleRaptor. rewrite bool_decide_true by done.
  unfold SimpleRaptorDepartAt.
  change (Z.to_nat (MaximumTransfers stray_input)) with 1%nat.
  cbn [raptor_rounds].
  rewrite (raptor_round_single _ _ _ _
             (mark "O" RaptorMarkedStopSourceArrival))
    by (vm_compute; reflexivity).
  eexists. split; [vm_compute; reflexivity|].
  vm_compute. done.
Qed.

(** C6, the claim as stated fails: every run ranges over the marked stops
    in an order of its own.  On [chained_input] the run with the indices
    left nil that visits them as listed returns two journeys, and the run
    with the built indices that visits X, then Y, then W returns four: the
    two sets of journeys differ. *)
Lemma index_supply_journeys_differ :
  ∃ js js' j,
    run gc_growcap as_listed (without_indices chained_input) = Ok js ∧
    run gc_growcap x_then_y_then_w
      (with_prepared_indices gc_growcap chained_input) = Ok js' ∧
    journey_fingerprint id <$> js = ["O|t1|Q"; "O|t1|X->X|t2|D2"] ∧
    journey_fingerprint id <$> js'
    = ["O|t1|Q"; "O|t1|X->X|t2|D2"; "O|t1|X->X|t2|Y->Y|t3|D3";
       "O|t1|X->X|t2|Y->Y|t3|W->W|t4|Z"] ∧
    j ∈ js' ∧ j ∉ js.
Proof.
  eexists _, _, _. split; [vm_compute; reflexivity|].
  split; [vm_compute; reflexivity|].
  split; [vm_compute; reflexivity|].
  split; [vm_compute; reflexivity|].
  split; [right; right; left|].
  intros Hin.
  repeat (apply elem_of_cons in Hin as [Heq|Hin]; [discriminate Heq|]).
  by apply elem_of_nil in Hin.
Qed.

(** C9, the claim as stated fails: under the mode ["nonsense"] the search
    does not stop with an error but returns a journey. *)
Lemma impossible_mode_returns_journey :
  Mode descending_trip_input ≠ RaptorModeDepartAt ∧
  Mode descending_trip_input ≠ RaptorModeArriveBy ∧
  ∃ j, run gc_growcap as_listed descending_trip_input = Ok [j].
Proof.
  split; [done|]. split; [done|].
  eexists. vm_compute. reflexivity.
Qed.


(** The same on a trip listed in ascending order, under the gc growth
    rule. *)
Lemma unsound_index_ascending_journey_not_from_origin :
  ∃ j, SimpleRaptorDepartAt EmptyString id gc_growcap as_listed
         unsound_index_ascending_input = Ok [j] ∧
       j_FromUniqueStopID j = "E".
Proof. eexists. split; [vm_compute; reflexivity|]. reflexivity. Qed.

(** * The iterator protocol *)

Section IteratorProtocol.
Context {T : Type}.
Implicit Types (d : GoSlice T) (it : SliceIterator.t T).

Lemma Next_forward d n i :
  0 ≤ i →
  SliceIterator.Next (SliceIterator.mk d n i false)
  = match elems d !! Z.to_nat i with
    | Some x => Ok (x, SliceIterator.mk d n (i + 1) false)
    | None => Panic NextNotGuarded
    end.
Proof.
  intros Hi. unfold SliceIterator.Next, SliceIterator.HasNext. simpl.
  destruct (elems d !! Z.to_nat i) as [x|] eqn:Hx.
  - apply lookup_lt_Some in Hx as Hlt.
    rewrite bool_decide_true by (unfold len; lia). simpl.
    unfold index_slice. rewrite bool_decide_true by done. by rewrite Hx.
  - apply lookup_ge_None in Hx.
    by rewrite bool_decide_false by (unfold len; lia).
Qed.

Lemma Next_reverse d n i :
  i < len d →
  SliceIterator.Next (SliceIterator.mk d n i true)
  = if bool_decide (0 ≤ i) then
      match elems d !! Z.to_nat i with
      | Some x => Ok (x, SliceIterator.mk d n (i - 1) true)
      | None => Panic IndexOutOfRange
      end
    else Panic NextNotGuarded.
Proof.
  intros Hi. unfold SliceIterator.Next, SliceIterator.HasNext. simpl.
  case_bool_decide; simpl; [|done].
  unfold index_slice. rewrite bool_decide_true by done.
  by destruct (elems d !! Z.to_nat i).
Qed.

Lemma next_n_forward d n k i :
  0 ≤ i → (Z.to_nat i + k ≤ length (elems d))%nat →
  next_n k (SliceIterator.mk d n i false)
  = Ok (take k (drop (Z.to_nat i) (elems d)),
        SliceIterator.mk d n (i + Z.of_nat k) false).
Proof.
  revert i. induction k as [|k IH]; intros i Hi Hk; simpl.
  - by rewrite Z.add_0_r.
  - rewrite Next_forward by done.
    destruct (elems d !! Z.to_nat i) as [x|] eqn:Hx.
    2:{ apply lookup_ge_None in Hx. lia. }
    simpl. rewrite IH by lia. simpl.
    rewrite (drop_S _ _ _ Hx). simpl.
    replace (Z.to_nat (i + 1)) with (S (Z.to_nat i)) by lia.
    do 3 f_equal. lia.
Qed.

Lemma next_n_reverse d n k i :
  i < len d → (k ≤ Z.to_nat (i + 1))%nat →
  next_n k (SliceIterator.mk d n i true)
  = Ok (take k (reverse (take (Z.to_nat (i + 1)) (elems d))),
        SliceIterator.mk d n (i - Z.of_nat k) true).
Proof.
  revert i. induction k as [|k IH]; intros i Hi Hk; simpl.
  - by rewrite Z.sub_0_r.
  - rewrite Next_reverse by done.
    rewrite bool_decide_true by lia.
    destruct (elems d !! Z.to_nat i) as [x|] eqn:Hx.
    2:{ apply lookup_ge_None in Hx. unfold len in Hi. lia. }
    simpl. rewrite IH by lia. simpl.
    replace (Z.to_nat (i + 1)) with (S (Z.to_nat i)) by lia.
    rewrite (take_S_r _ _ _ Hx), reverse_snoc. simpl.
    replace (Z.to_nat (i - 1 + 1)) with (Z.to_nat i) by lia.
    do 3 f_equal. lia.
Qed.

(** [k] calls of [Next] on a new iterator, [k] at most the length. *)
Lemma next_n_fresh d rev k :
  (k ≤ length (elems d))%nat →
  next_n k (NewSliceIterator d rev)
  = Ok (take k (iteration_order d rev),
        SliceIterator.mk d (len d)
          (if rev then len d - 1 - Z.of_nat k else Z.of_nat k) rev).
Proof.
  intros Hk. unfold SliceIterator.New, iteration_order.
  destruct rev; cbn [negb].
  - rewrite next_n_reverse by (unfold len; lia).
    replace (Z.to_nat (len d - 1 + 1)) with (length (elems d))
      by (unfold len; lia).
    by rewrite (take_ge (elems d)) by lia.
  - rewrite next_n_forward by (simpl; lia). by simpl.
Qed.

(** X1.  A new iterator hands out the elements of its slice one by one, from
    the first to the last when going forward and from the last to the first
    in reverse: after [k] calls of [Next] it has returned the first [k]
    elements of that order, [HasNext] tells whether one is left, and once
    none is left [Next] panics. *)
Theorem Next_visits_in_order (d : GoSlice T) (rev : bool) (k : nat) :
  (k ≤ length (elems d))%nat →
  ∃ it, next_n k (NewSliceIterator d rev)
        = Ok (take k (iteration_order d rev), it) ∧
        SliceIterator.HasNext it = bool_decide (k < length (elems d))%nat ∧
        (k = length (elems d) →
         SliceIterator.Next it = Panic NextNotGuarded).
Proof.
  intros Hk. eexists. split; [by apply next_n_fresh|].
  assert (Hhas : SliceIterator.HasNext
            (SliceIterator.mk d (len d)
               (if rev then len d - 1 - Z.of_nat k else Z.of_nat k) rev)
          = bool_decide (k < length (elems d))%nat).
  { unfold SliceIterator.HasNext, len. simpl.
    destruct rev; apply bool_decide_ext; lia. }
  split; [exact Hhas|].
  intros ->. unfold SliceIterator.Next. rewrite Hhas.
  by rewrite bool_decide_false by lia.
Qed.

Lemma Next_same_slice it x it' :
  SliceIterator.Next it = Ok (x, it') →
  SliceIterator.data it' = SliceIterator.data it ∧
  SliceIterator.length it' = SliceIterator.length it ∧
  SliceIterator.reverse it' = SliceIterator.reverse it.
Proof.
  unfold SliceIterator.Next. destruct (negb _); [done|].
  destruct (index_slice _ _); simpl; [|done]. by intros [= _ <-].
Qed.

Lemma next_n_same_slice k it xs it' :
  next_n k it = Ok (xs, it') →
  SliceIterator.data it' = SliceIterator.data it ∧
  SliceIterator.length it' = SliceIterator.length it ∧
  SliceIterator.reverse it' = SliceIterator.reverse it.
Proof.
  revert it xs. induction k as [|k IH]; intros it xs; simpl.
  - by intros [= _ <-].
  - destruct (SliceIterator.Next it) as [[x it1]|] eqn:Hnext; simpl; [|done].
    destruct (next_n k it1) as [[xs' it2]|] eqn:Hrest; simpl; [|done].
    intros [= _ <-].
    apply Next_same_slice in Hnext as (Hd & Hl & Hr).
    apply IH in Hrest as (Hd' & Hl' & Hr'). by rewrite Hd', Hl', Hr'.
Qed.

(** X2.  However many elements a new iterator has handed out, [Reset] puts
    it back to where it began: it is again the new iterator and visits the
    whole slice once more. *)
Theorem Reset_starts_over (d : GoSlice T) (rev : bool) (k : nat) xs it :
  next_n k (NewSliceIterator d rev) = Ok (xs, it) →
  SliceIterator.Reset it = NewSliceIterator d rev ∧
  SliceIterator.visited (SliceIterator.Reset it)
  = Ok (iteration_order d rev).
Proof.
  intros (Hd & Hl & Hr)%next_n_same_slice.
  assert (Hreset : SliceIterator.Reset it = NewSliceIterator d rev).
  { unfold SliceIterator.Reset, SliceIterator.New in *. simpl in *.
    by rewrite Hd, Hl, Hr. }
  split; [done|]. rewrite Hreset. apply visited_fresh.
Qed.

(** X3.  [First] returns the element a new iterator hands out first (the
    last element of the slice in reverse) and panics on an empty slice; it
    does not depend on how far the iterator has advanced. *)
Theorem First_is_first_visited (d : GoSlice T) (rev : bool) (k : nat) xs it :
  next_n k (NewSliceIterator d rev) = Ok (xs, it) →
  SliceIterator.First it
  = match head (iteration_order d rev) with
    | Some x => Ok x
    | None => Panic FirstOfEmpty
    end.
Proof.
  intros (Hd & Hl & Hr)%next_n_same_slice.
  unfold SliceIterator.First, iteration_order. rewrite Hd, Hl, Hr. simpl.
  unfold len. destruct (elems d) as [|x l] eqn:Hel using rev_ind; simpl.
  - by destruct rev.
  - clear IHl. rewrite bool_decide_false
      by (rewrite length_app; simpl; lia).
    unfold index_slice. destruct rev.
    + rewrite reverse_snoc. simpl.
      rewrite bool_decide_true by (rewrite length_app; simpl; lia).
      rewrite Hel.
      replace (Z.to_nat (Z.of_nat (length (l ++ [x])) - 1)) with (length l)
        by (rewrite length_app; simpl; lia).
      by rewrite lookup_app_r, Nat.sub_diag by lia.
    + rewrite bool_decide_true by done. rewrite Hel. simpl.
      by destruct l.
Qed.

End IteratorProtocol.

Section SubIterator.
Context {T : Type}.
Implicit Types (d : GoSlice T).

Lemma wrap64_above z :
  max_int < z ≤ 2 * max_int + 1 → wrap64 z = z - 2 ^ 64.
Proof.
  unfold wrap64, max_int. intros Hz.
  rewrite <- (Z.mod_unique_pos (z + 2 ^ 63) (2 ^ 64) 1 (z + 2 ^ 63 - 2 ^ 64));
    lia.
Qed.

Lemma wrap64_below z : 2 * min_int ≤ z < min_int → wrap64 z = z + 2 ^ 64.
Proof.
  unfold wrap64, min_int. intros Hz.
  rewrite <- (Z.mod_unique_pos (z + 2 ^ 63) (2 ^ 64) (-1)
                (z + 2 ^ 63 + 2 ^ 64)); lia.
Qed.

(** X4.  For an offset, a number of items and a capacity that are Go ints,
    [SliceIterator(from_inclusive, num_items)] returns exactly when
    [num_items] is not negative and the window lies in the backing array of
    the parent's slice.  Going forward that is [0 <= from_inclusive] and
    [from_inclusive + num_items <= cap]: the bound is the capacity, not
    the length.  In reverse it is
    [from_inclusive + num_items <= len] and [len - cap <= from_inclusive]:
    the bound is the length for an offset that is not negative, and a
    negative offset reaches the spare cells.  The sub-iterator then has
    length [num_items]; otherwise the call panics on the slice expression.
    The sums are the mathematical ones: a sum that wraps around panics. *)
Theorem SliceIterator_bounds (d : GoSlice T) (rev : bool)
    (from_inclusive num_items : Z) :
  min_int ≤ from_inclusive ≤ max_int → min_int ≤ num_items ≤ max_int →
  cap d ≤ max_int →
  match SliceIterator.SliceIterator (NewSliceIterator d rev)
          from_inclusive num_items with
  | Ok sub =>
      (0 ≤ num_items ∧
       if rev
       then len d - cap d ≤ from_inclusive ∧
            from_inclusive + num_items ≤ len d
       else 0 ≤ from_inclusive ∧ from_inclusive + num_items ≤ cap d) ∧
      SliceIterator.Length sub = num_items
  | Panic p =>
      ¬ (0 ≤ num_items ∧
         if rev
         then len d - cap d ≤ from_inclusive ∧
              from_inclusive + num_items ≤ len d
         else 0 ≤ from_inclusive ∧ from_inclusive + num_items ≤ cap d) ∧
      p = SliceBoundsOutOfRange
  end.
Proof.
  intros Hfrom Hnum Hcap.
  assert (Hlen : 0 ≤ len d ≤ cap d) by (unfold len, cap; lia).
  assert (Hmm : min_int = - max_int - 1) by done.
  assert (Hlength : ∀ lo hi,
    0 ≤ lo ∧ lo ≤ hi ∧ hi ≤ cap d →
    Z.of_nat (length (take (Z.to_nat (hi - lo))
                        (drop (Z.to_nat lo) (elems d ++ spare d))))
    = hi - lo).
  { intros lo hi Hb. rewrite length_take, length_drop, length_app.
    unfold cap in *. lia. }
  unfold SliceIterator.SliceIterator, SliceIterator.New. simpl.
  destruct rev; simpl.
  - unfold sub64, reslice.
    destruct (decide (max_int < len d - from_inclusive)) as [Hhi|Hhi].
    { rewrite (wrap64_above (len d - from_inclusive)) by lia.
      destruct (bool_decide_reflect
        (0 ≤ wrap64 (len d - from_inclusive - 2 ^ 64 - num_items)
         ∧ wrap64 (len d - from_inclusive - 2 ^ 64 - num_items)
           ≤ len d - from_inclusive - 2 ^ 64
         ∧ len d - from_inclusive - 2 ^ 64 ≤ cap d)) as [Hb|Hb]; simpl.
      - unfold max_int in *. lia.
      - split; [lia|done]. }
    rewrite (wrap64_small (len d - from_inclusive)) by lia.
    destruct (decide (len d - from_inclusive - num_items < min_int))
      as [Hlow|Hlow].
    { rewrite (wrap64_below (len d - from_inclusive - num_items))
        by (unfold min_int, max_int in *; lia).
      rewrite bool_decide_false by (unfold min_int, max_int in *; lia).
      split; [unfold min_int, max_int in *; lia|done]. }
    destruct (decide (max_int < len d - from_inclusive - num_items))
      as [Hup|Hup].
    { rewrite (wrap64_above (len d - from_inclusive - num_items)) by lia.
      rewrite bool_decide_false by (unfold min_int, max_int in *; lia).
      split; [lia|done]. }
    rewrite (wrap64_small (len d - from_inclusive - num_items)) by lia.
    case_bool_decide as Hb; simpl.
    + split; [lia|]. unfold SliceIterator.Length, len. simpl.
      rewrite Hlength by done. lia.
    + split; [lia|done].
  - unfold add64, reslice.
    destruct (decide (max_int < from_inclusive + num_items)) as [Hhigh|Hhigh].
    { rewrite (wrap64_above (from_inclusive + num_items)) by lia.
      rewrite bool_decide_false by (unfold max_int in *; lia).
      split; [lia|done]. }
    destruct (decide (from_inclusive + num_items < min_int)) as [Hlow|Hlow].
    { rewrite (wrap64_below (from_inclusive + num_items)) by lia.
      rewrite bool_decide_false by (unfold min_int, max_int in *; lia).
      split; [lia|done]. }
    rewrite (wrap64_small (from_inclusive + num_items)) by lia.
    case_bool_decide as Hb; simpl.
    + split; [lia|]. unfold SliceIterator.Length, len. simpl.
      rewrite Hlength by done. lia.
    + split; [lia|done].
Qed.

(** X5.  A forward sub-iterator that reaches beyond the length of the
    parent's slice, but not beyond its capacity, hands out the cells of the
    backing array that lie beyond the length. *)
Theorem SliceIterator_forward_reads_backing_array (d : GoSlice T)
    (from_inclusive num_items : Z) :
  0 ≤ from_inclusive → 0 ≤ num_items →
  from_inclusive + num_items ≤ cap d → cap d ≤ max_int →
  ∃ sub,
    SliceIterator.SliceIterator (NewSliceIterator d false)
      from_inclusive num_items = Ok sub ∧
    SliceIterator.visited sub
    = Ok (take (Z.to_nat num_items)
            (drop (Z.to_nat from_inclusive) (backing_array d))).
Proof.
  intros Hfrom Hnum Hsum Hcap.
  assert (Hmm : min_int = - max_int - 1) by done.
  set (arr := backing_array d).
  exists (NewSliceIterator
            (mkSlice (take (Z.to_nat num_items)
                        (drop (Z.to_nat from_inclusive) arr))
                     (drop (Z.to_nat (from_inclusive + num_items)) arr))
            false).
  split; [|by rewrite visited_fresh].
  unfold SliceIterator.SliceIterator.
  cbn [SliceIterator.New SliceIterator.reverse SliceIterator.data].
  unfold add64. rewrite wrap64_small by lia.
  unfold reslice. rewrite bool_decide_true by lia.
  cbn [mbind result_bind]. do 4 f_equal. lia.
Qed.

Lemma reslice_reslice d lo1 hi1 lo2 hi2 :
  0 ≤ lo1 ≤ hi1 → hi1 ≤ cap d → 0 ≤ lo2 ≤ hi2 → lo1 + hi2 ≤ cap d →
  (d1 ← reslice d lo1 hi1; reslice d1 lo2 hi2)
  = reslice d (lo1 + lo2) (lo1 + hi2).
Proof.
  intros H1 Hc1 H2 Hc2.
  set (arr := elems d ++ spare d).
  assert (Harr : Z.of_nat (length arr) = cap d).
  { unfold arr, cap. by rewrite length_app. }
  assert (Hd1 : reslice d lo1 hi1
                = Ok (mkSlice (take (Z.to_nat (hi1 - lo1))
                                 (drop (Z.to_nat lo1) arr))
                              (drop (Z.to_nat hi1) arr))).
  { unfold reslice. by rewrite bool_decide_true by lia. }
  rewrite Hd1. cbn [mbind result_bind].
  unfold reslice. fold arr.
  rewrite (bool_decide_true (_ ∧ _ ∧ lo1 + hi2 ≤ _)) by lia.
  assert (Hback : take (Z.to_nat (hi1 - lo1)) (drop (Z.to_nat lo1) arr)
                  ++ drop (Z.to_nat hi1) arr = drop (Z.to_nat lo1) arr).
  { replace (drop (Z.to_nat hi1) arr)
      with (drop (Z.to_nat (hi1 - lo1)) (drop (Z.to_nat lo1) arr))
      by (rewrite drop_drop; f_equal; lia).
    apply take_drop. }
  rewrite (bool_decide_true (_ ∧ _ ∧ hi2 ≤ _)).
  2:{ unfold cap. cbn [elems spare].
      rewrite <- length_app, Hback, length_drop. lia. }
  cbn [elems spare]. rewrite Hback.
  rewrite !drop_drop. do 2 f_equal; [f_equal|]; f_equal; lia.
Qed.

(** Within the length the offsets of a sub-iterator do not wrap. *)
Lemma SliceIterator_within d rev o c :
  0 ≤ o → 0 ≤ c → o + c ≤ len d → len d ≤ max_int →
  SliceIterator.SliceIterator (NewSliceIterator d rev) o c
  = (d' ← reslice d (if rev then len d - o - c else o)
                    (if rev then len d - o else o + c);
     Ok (NewSliceIterator d' rev)).
Proof.
  intros Ho Hc Hoc Hmax.
  assert (Hmm : min_int = - max_int - 1) by done.
  unfold SliceIterator.SliceIterator.
  cbn [SliceIterator.New SliceIterator.reverse SliceIterator.data
       SliceIterator.length].
  destruct rev.
  - unfold sub64.
    by rewrite (wrap64_small (len d - o)), (wrap64_small (len d - o - c))
      by lia.
  - unfold add64. by rewrite (wrap64_small (o + c)) by lia.
Qed.

(** X6.  A sub-iterator of a sub-iterator is the sub-iterator of the parent
    at the sum of the two offsets, in either direction, as long as each
    range lies within the one it is taken from. *)
Theorem SliceIterator_of_SliceIterator (d : GoSlice T) (rev : bool)
    (o1 c1 o2 c2 : Z) :
  0 ≤ o1 → 0 ≤ c1 → o1 + c1 ≤ len d →
  0 ≤ o2 → 0 ≤ c2 → o2 + c2 ≤ c1 → len d ≤ max_int →
  (sub ← SliceIterator.SliceIterator (NewSliceIterator d rev) o1 c1;
   SliceIterator.SliceIterator sub o2 c2)
  = SliceIterator.SliceIterator (NewSliceIterator d rev) (o1 + o2) c2.
Proof.
  intros Ho1 Hc1 H1 Ho2 Hc2 H2 Hmax.
  assert (Hcap : len d ≤ cap d) by (unfold len, cap; lia).
  rewrite (SliceIterator_within d rev o1 c1),
    (SliceIterator_within d rev (o1 + o2) c2) by lia.
  set (lo1 := if rev then len d - o1 - c1 else o1).
  set (hi1 := if rev then len d - o1 else o1 + c1).
  destruct (reslice_within d lo1 hi1) as (d1 & Hd1 & Hel);
    [destruct rev; lia..|].
  assert (Hlen1 : len d1 = c1).
  { unfold len in *. rewrite Hel, length_take, length_drop.
    subst lo1 hi1. destruct rev; lia. }
  pose proof (reslice_reslice d lo1 hi1
    (if rev then c1 - o2 - c2 else o2)
    (if rev then c1 - o2 else o2 + c2)) as Hcomp.
  rewrite Hd1 in Hcomp. cbn [mbind result_bind] in Hcomp.
  rewrite Hd1. cbn [mbind result_bind].
  rewrite (SliceIterator_within d1 rev o2 c2) by lia.
  rewrite Hlen1, Hcomp by (subst lo1 hi1; destruct rev; lia).
  subst lo1 hi1. destruct rev; do 2 f_equal; lia.
Qed.

End SubIterator.

(** * Time partitions *)

Lemma min_int_max_int : min_int = - max_int - 1.
Proof. done. Qed.

(** The lower boundary, before wrapping: the timestamp truncated towards
    zero to a multiple of the interval. *)
Lemma lower_boundary t i :
  i ≠ 0 → t - Z.rem t i = i * (t ÷ i).
Proof. intros Hi. pose proof (Z.quot_rem' t i). lia. Qed.

(** X7.  For a timestamp that is not negative and a positive interval, the
    lower partition boundary [GetTimePartition] returns is the greatest
    multiple of the interval that does not exceed the timestamp. *)
Theorem GetTimePartition_lower (timestamp interval : Z) :
  0 ≤ timestamp ≤ max_int → 0 < interval ≤ max_int →
  ∃ r, GetTimePartition timestamp interval false = Some r ∧
       r ≤ timestamp < r + interval ∧ r mod interval = 0.
Proof.
  intros Ht Hi. pose proof min_int_max_int.
  unfold GetTimePartition. rewrite bool_decide_false by lia. simpl.
  rewrite Z.rem_mod_nonneg by lia.
  pose proof (Z.mod_pos_bound timestamp interval ltac:(lia)).
  unfold sub64. rewrite wrap64_small by lia.
  eexists. split; [done|]. split; [lia|].
  rewrite (Z.mod_eq timestamp interval) by lia.
  replace (timestamp - (timestamp - interval * (timestamp / interval)))
    with (timestamp / interval * interval) by lia.
  apply Z.mod_mul. lia.
Qed.

(** X8.  For a timestamp that is not negative and a positive interval, when
    the timestamp increased by the interval still fits an [int64], the upper
    partition boundary [GetTimePartition] returns is the least multiple of
    the interval that is not below the timestamp. *)
Theorem GetTimePartition_upper (timestamp interval : Z) :
  0 ≤ timestamp → 0 < interval → timestamp + interval ≤ max_int →
  ∃ r, GetTimePartition timestamp interval true = Some r ∧
       timestamp ≤ r < timestamp + interval ∧ r mod interval = 0.
Proof.
  intros Ht Hi Hsum. pose proof min_int_max_int.
  unfold GetTimePartition. rewrite bool_decide_false by lia. simpl.
  rewrite Z.rem_mod_nonneg by lia.
  pose proof (Z.mod_pos_bound timestamp interval ltac:(lia)) as Hmod.
  unfold sub64. rewrite wrap64_small by lia.
  assert (Hlow : timestamp - timestamp mod interval
                 = timestamp / interval * interval).
  { rewrite (Z.mod_eq timestamp interval) by lia. lia. }
  case_bool_decide as Heq.
  - eexists. split; [done|]. split; [lia|].
    rewrite Hlow. apply Z.mod_mul. lia.
  - unfold quot64, add64, mul64. rewrite Hlow.
    assert (Hq : 0 ≤ timestamp / interval ≤ timestamp).
    { split; [apply Z.div_pos; lia|].
      apply Z.div_le_upper_bound; nia. }
    rewrite Z.quot_div_nonneg by nia.
    rewrite Z.div_mul by lia.
    rewrite (wrap64_small (timestamp / interval)) by lia.
    rewrite (wrap64_small (timestamp / interval + 1)) by lia.
    rewrite wrap64_small by nia.
    eexists. split; [done|]. split; [nia|].
    apply Z.mod_mul. lia.
Qed.

(** A multiple of the interval is its own lower and upper boundary,
    whatever the signs. *)
Lemma GetTimePartition_of_boundary (timestamp interval : Z) (upper : bool) :
  min_int ≤ timestamp ≤ max_int → interval ≠ 0 →
  Z.rem timestamp interval = 0 →
  GetTimePartition timestamp interval upper = Some timestamp.
Proof.
  intros Ht Hi Hrem. unfold GetTimePartition.
  rewrite bool_decide_false by done. cbv zeta.
  rewrite Hrem. unfold sub64. rewrite Z.sub_0_r, wrap64_small by done.
  rewrite bool_decide_true by done. by rewrite orb_true_r.
Qed.

(** X9.  [GetTimePartition] is idempotent: for a timestamp that is not
    negative and a positive interval (the timestamp increased by the
    interval fitting an [int64]), the boundary it returns, lower or upper,
    is its own lower and upper boundary. *)
Theorem GetTimePartition_idempotent (timestamp interval : Z)
    (upper upper' : bool) r :
  0 ≤ timestamp → 0 < interval → timestamp + interval ≤ max_int →
  GetTimePartition timestamp interval upper = Some r →
  GetTimePartition r interval upper' = Some r.
Proof.
  intros Ht Hi Hsum. pose proof min_int_max_int.
  unfold GetTimePartition at 1. rewrite bool_decide_false by lia. cbv zeta.
  rewrite Z.rem_mod_nonneg by lia.
  pose proof (Z.mod_pos_bound timestamp interval ltac:(lia)) as Hmod.
  unfold sub64. rewrite wrap64_small by lia.
  assert (Hlow : timestamp - timestamp mod interval
                 = timestamp / interval * interval).
  { rewrite (Z.mod_eq timestamp interval) by lia. lia. }
  assert (Hq : 0 ≤ timestamp / interval ≤ timestamp).
  { split; [apply Z.div_pos; lia|]. apply Z.div_le_upper_bound; nia. }
  assert (Hmul : ∀ q, 0 ≤ q * interval ≤ max_int →
            GetTimePartition (q * interval) interval upper'
            = Some (q * interval)).
  { intros q Hq'. apply GetTimePartition_of_boundary; [lia..|].
    apply Z.rem_mul. lia. }
  destruct (negb upper || bool_decide (_ = timestamp)).
  - intros [= <-]. rewrite Hlow. apply Hmul. nia.
  - unfold quot64, add64, mul64. rewrite Hlow.
    rewrite Z.quot_div_nonneg by nia.
    rewrite Z.div_mul by lia.
    rewrite (wrap64_small (timestamp / interval)) by lia.
    rewrite (wrap64_small (timestamp / interval + 1)) by lia.
    rewrite wrap64_small by nia.
    intros [= <-]. apply Hmul. nia.
Qed.

(** X10.  [GetTimePartition] rounds a negative timestamp that is not a
    multiple of the (positive) interval towards zero: its lower boundary
    lies above the timestamp, less than an interval away, and its upper
    boundary a whole interval further. *)
Theorem GetTimePartition_negative (timestamp interval : Z) :
  min_int ≤ timestamp < 0 → 0 < interval ≤ max_int →
  Z.rem timestamp interval ≠ 0 →
  ∃ r, GetTimePartition timestamp interval false = Some r ∧
       GetTimePartition timestamp interval true = Some (r + interval) ∧
       timestamp < r ≤ 0 ∧ r < timestamp + interval ∧
       Z.rem r interval = 0.
Proof.
  intros Ht Hi Hrem. pose proof min_int_max_int.
  unfold GetTimePartition. rewrite bool_decide_false by lia. cbv zeta.
  pose proof (Z.rem_nonpos timestamp interval ltac:(lia) ltac:(lia)) as Hneg.
  pose proof (Z.rem_opp_l timestamp interval ltac:(lia)) as Hopp.
  pose proof (Z.rem_bound_pos (- timestamp) interval ltac:(lia) ltac:(lia))
    as Hb.
  pose proof (Z.rem_le (- timestamp) interval ltac:(lia) ltac:(lia)) as Hle.
  pose proof (lower_boundary timestamp interval ltac:(lia)) as Hlow.
  unfold sub64. rewrite wrap64_small by lia.
  exists (timestamp - Z.rem timestamp interval).
  split; [done|].
  rewrite bool_decide_false by lia. cbn [negb orb].
  split; [|split; [lia|split; [lia|]]].
  - f_equal. unfold quot64, add64, mul64. rewrite Hlow.
    rewrite (Z.mul_comm interval), Z.quot_mul by lia.
    set (q := timestamp ÷ interval) in *.
    assert (Hq : timestamp ≤ q ≤ 0) by nia.
    rewrite (wrap64_small q) by lia.
    rewrite (wrap64_small (q + 1)) by lia.
    rewrite wrap64_small by nia. lia.
  - rewrite Hlow, Z.mul_comm. apply Z.rem_mul. lia.
Qed.

(** * The indices PrepareRaptorInput builds *)

Lemma elem_of_positions_from {A} (f : A → bool) l i0 i :
  i ∈ positions_from f i0 l ↔
  ∃ n x, l !! n = Some x ∧ f x = true ∧ i = i0 + Z.of_nat n.
Proof.
  revert i0. induction l as [|y l IH]; intros i0; simpl.
  - split; [by intros ?%elem_of_nil|]. by intros (n & x & Hn & _).
  - assert (i ∈ positions_from f (i0 + 1) l ↔
            ∃ n x, (y :: l) !! S n = Some x ∧ f x = true
                   ∧ i = i0 + Z.of_nat (S n)) as Htail.
    { rewrite IH. split; intros (n & x & Hn & Hx & ->);
        exists n, x; repeat split; auto; lia. }
    destruct (f y) eqn:Hy.
    + rewrite elem_of_cons, Htail. split.
      * intros [->|(n & x & Hn)]; [|by eauto].
        exists 0%nat, y. repeat split; auto. lia.
      * intros ([|n] & x & Hn & Hx & ->); [left; lia|right; eauto].
    + rewrite Htail. split; [by intros (n & x & Hn); eauto|].
      intros ([|n] & x & Hn & Hx & ->); [|by eauto].
      simpl in Hn. injection Hn as <-. congruence.
Qed.

Lemma positions_from_sorted {A} (f : A → bool) l i0 :
  StronglySorted Z.lt (positions_from f i0 l).
Proof.
  revert i0. induction l as [|y l IH]; intros i0; simpl; [constructor|].
  destruct (f y); [|apply IH].
  constructor; [apply IH|].
  apply Forall_forall. intros i (n & x & _ & _ & ->)%elem_of_positions_from.
  lia.
Qed.

Lemma range_fold_snd {A S1 S2} (f : Z → A → S1 * S2 → S1 * S2)
    (g : Z → A → S2 → S2) l i acc :
  (∀ i x acc, (f i x acc).2 = g i x acc.2) →
  (range_fold f i l acc).2 = range_fold g i l acc.2.
Proof.
  intros Hfg. revert i acc. induction l as [|x l IH]; intros i acc; simpl.
  - done.
  - by rewrite IH, Hfg.
Qed.

Section Indices.
Context {ID : Type} `{Countable ID}.
Variable growcap : nat → nat.

(** The index the building loop leaves under [k]: what was there, followed
    by the positions of the elements whose key is [k]. *)
Lemma range_fold_add_index {A} (key : A → ID) (l : list A) i0
    (m : gmap ID (GoSlice Z)) k :
  elems (index_of
           (range_fold (λ index x m, add_index growcap m (key x) index)
                       i0 l m) k)
  = elems (index_of m k)
    ++ positions_from (λ x, bool_decide (key x = k)) i0 l.
Proof.
  revert i0 m. induction l as [|x l IH]; intros i0 m; simpl.
  - by rewrite app_nil_r.
  - rewrite IH. unfold index_of at 1. rewrite lookup_add_index.
    case_decide as Hk.
    + rewrite bool_decide_true by done. subst k.
      cbn [default id]. rewrite elems_go_append. unfold index_of.
      by rewrite <- app_assoc.
    + by rewrite bool_decide_false.
Qed.

Lemma built_index_spec {A} (key : A → ID) (l : list A) k :
  let built :=
    range_fold (λ index x m, add_index growcap m (key x) index) 0 l ∅ in
  (∀ i, i ∈ elems (index_of built k) ↔
        ∃ x, index_list l i = Ok x ∧ key x = k) ∧
  StronglySorted Z.lt (elems (index_of built k)).
Proof.
  cbv zeta. rewrite range_fold_add_index.
  unfold index_of. rewrite lookup_empty. cbn [default elems nil_slice app].
  split.
  - intros i. rewrite elem_of_positions_from. split.
    + intros (n & x & Hn & Hx%bool_decide_eq_true & ->). exists x.
      split; [|done]. unfold index_list.
      rewrite bool_decide_true by lia.
      by replace (Z.to_nat (0 + Z.of_nat n)) with n by lia; rewrite Hn.
    + intros (x & [Hi Hx]%index_list_Ok & Hk).
      exists (Z.to_nat i), x. split; [done|].
      split; [by apply bool_decide_eq_true|lia].
  - apply positions_from_sorted.
Qed.

(** X11.  When the transfer index is not supplied, [PrepareRaptorInput]
    lists under each stop exactly the positions in [Transfers] of the
    transfers that leave that stop, in ascending order. *)
Theorem PrepareRaptorInput_builds_transfer_index
    (input : SimpleRaptorInput ID) by_stop by_trip k :
  let built :=
    p_TransfersByUniqueStopId
      (PrepareRaptorInput growcap (with_indices input None by_stop by_trip))
  in
  (∀ i, i ∈ elems (index_of built k) ↔
        ∃ transfer, index_list (Transfers input) i = Ok transfer ∧
                    GetFromUniqueStopID transfer = k) ∧
  StronglySorted Z.lt (elems (index_of built k)).
Proof.
  cbv zeta. unfold PrepareRaptorInput, with_indices.
  cbn [p_TransfersByUniqueStopId TransfersByUniqueStopId Transfers].
  apply (built_index_spec GetFromUniqueStopID).
Qed.

(** X12.  When the by-stop index is not supplied, [PrepareRaptorInput] lists
    under each stop exactly the positions in [StopTimes] of the stop times
    at that stop, in ascending order; when the by-trip-service index is not
    supplied, it lists under each trip service exactly the positions of its
    stop times, in ascending order.  Either holds whether or not the other
    index is supplied. *)
Theorem PrepareRaptorInput_builds_stop_time_indices
    (input : SimpleRaptorInput ID) transfers by_stop by_trip k :
  let built_by_stop :=
    p_StopTimesByUniqueStopId
      (PrepareRaptorInput growcap (with_indices input transfers None by_trip))
  in
  let built_by_trip :=
    p_StopTimesByUniqueTripServiceId
      (PrepareRaptorInput growcap (with_indices input transfers by_stop None))
  in
  ((∀ i, i ∈ elems (index_of built_by_stop k) ↔
         ∃ st, index_list (StopTimes input) i = Ok st ∧
               GetUniqueStopID st = k) ∧
   StronglySorted Z.lt (elems (index_of built_by_stop k))) ∧
  ((∀ i, i ∈ elems (index_of built_by_trip k) ↔
         ∃ st, index_list (StopTimes input) i = Ok st ∧
               GetUniqueTripServiceID st = k) ∧
   StronglySorted Z.lt (elems (index_of built_by_trip k))).
Proof.
  cbv zeta. unfold PrepareRaptorInput, with_indices.
  cbn [p_StopTimesByUniqueStopId p_StopTimesByUniqueTripServiceId
       StopTimesByUniqueStopId StopTimesByUniqueTripServiceId StopTimes].
  rewrite (bool_decide_false (is_Some None)) by (by intros [? ?]).
  split.
  - rewrite orb_true_l.
    rewrite (range_fold_fst _
      (λ index stop_time m,
         add_index growcap m (GetUniqueStopID stop_time) index)) by done.
    apply (built_index_spec GetUniqueStopID).
  - rewrite orb_true_r.
    rewrite (range_fold_snd _
      (λ index stop_time m,
         add_index growcap m (GetUniqueTripServiceID stop_time) index))
      by done.
    apply (built_index_spec GetUniqueTripServiceID).
Qed.

(** X13.  [PrepareRaptorInput] adopts a supplied index as it is, whether or
    not the other indices are supplied: the loop that builds a missing
    stop-time index leaves the supplied one alone. *)
Theorem PrepareRaptorInput_adopts_supplied_indices
    (input : SimpleRaptorInput ID) supplied others1 others2 :
  p_TransfersByUniqueStopId
    (PrepareRaptorInput growcap
       (with_indices input (Some supplied) others1 others2)) = supplied ∧
  p_StopTimesByUniqueStopId
    (PrepareRaptorInput growcap
       (with_indices input others1 (Some supplied) others2)) = supplied ∧
  p_StopTimesByUniqueTripServiceId
    (PrepareRaptorInput growcap
       (with_indices input others1 others2 (Some supplied))) = supplied.
Proof.
  unfold PrepareRaptorInput, with_indices.
  cbn [p_TransfersByUniqueStopId p_StopTimesByUniqueStopId
       p_StopTimesByUniqueTripServiceId TransfersByUniqueStopId
       StopTimesByUniqueStopId StopTimesByUniqueTripServiceId StopTimes].
  split; [done|]. split.
  - rewrite (bool_decide_true (is_Some (Some supplied))) by eauto.
    destruct (negb true || _); [|done].
    rewrite (range_fold_fst _ (λ _ _ m, m)) by done.
    by rewrite range_fold_id.
  - rewrite (bool_decide_true (is_Some (Some supplied))) by eauto.
    destruct (_ || negb true); [|done].
    rewrite (range_fold_snd _ (λ _ _ m, m)) by done.
    by rewrite range_fold_id.
Qed.

Lemma lookup_identity_map (stops : list (GtfsStopStruct ID)) k :
  foldl (λ m stop, <[GetUniqueID stop := GetUniqueID stop]> m)
        (∅ : gmap ID ID) stops !! k
  = if decide (k ∈ GetUniqueID <$> stops) then Some k else None.
Proof.
  case_decide as Hk.
  - apply list_elem_of_fmap in Hk as (stop & -> & Hstop).
    destruct (foldl_insert_is_Some GetUniqueID GetUniqueID stops ∅
                (GetUniqueID stop)) as [v Hv]; [left; eauto|].
    rewrite Hv.
    apply foldl_insert_lookup in Hv as [(x & _ & Hx & <-)|Hv];
      [by rewrite Hx|by rewrite lookup_empty in Hv].
  - destruct (foldl _ _ _ !! k) as [v|] eqn:Hv; [|done].
    apply foldl_insert_lookup in Hv as [(x & Hx & <- & _)|Hv].
    + destruct Hk. by apply list_elem_of_fmap_2.
    + by rewrite lookup_empty in Hv.
Qed.

(** X14.  The two terminal maps [PrepareRaptorInput] builds are the identity
    on the unique ids of [FromStops], respectively [ToStops], and have no
    other key. *)
Theorem PrepareRaptorInput_terminal_maps (input : SimpleRaptorInput ID) k :
  FromStopsByUniqueStopId (PrepareRaptorInput growcap input) !! k
  = (if decide (k ∈ GetUniqueID <$> FromStops input) then Some k else None) ∧
  ToStopsByUniqueStopId (PrepareRaptorInput growcap input) !! k
  = (if decide (k ∈ GetUniqueID <$> ToStops input) then Some k else None).
Proof. split; apply lookup_identity_map. Qed.

End Indices.

(** * Properties of the labels *)

Section LabelsGeneric.
Context {ID : Type} `{Countable ID}.
Variable L : ID → RoundSegment ID → Prop.
Variable J : Journey ID → Prop.

Lemma labels_invariant_insert kept (s : RaptorState ID) k segment :
  labels_invariant L J kept s → L k segment →
  labels_invariant L J (k :: kept) (set_segments (insert k segment) s).
Proof.
  intros [HA HB HC HK] Hseg. split; simpl.
  - intros k' seg'. rewrite lookup_insert. case_decide as Hk.
    + subst. by intros [= <-].
    + by apply HA.
  - intros k' m Hm. apply lookup_insert_is_Some'. right. by eapply HB.
  - done.
  - intros k' [->|Hk']%elem_of_cons.
    + rewrite lookup_insert_eq. eauto.
    + apply lookup_insert_is_Some'. right. by apply HK.
Qed.

Lemma labels_invariant_weaken kept kept' (s : RaptorState ID) :
  labels_invariant L J kept s → kept' ⊆ kept →
  labels_invariant L J kept' s.
Proof. intros [HA HB HC HK] Hsub. split; auto. Qed.

Lemma labels_invariant_mark kept (s : RaptorState ID) k source :
  labels_invariant L J kept s → is_Some (segments s !! k) →
  labels_invariant L J kept
    (set_marked_next (insert k (mark k source)) s).
Proof.
  intros [HA HB HC HK] Hk. split; simpl; try done.
  intros k' m. rewrite lookup_insert. case_decide.
  - by intros [= <-].
  - apply HB.
Qed.

(** Marking a stop and labelling it, in either order. *)
Lemma labels_invariant_relax kept (s : RaptorState ID) to time spans :
  labels_invariant L J kept s → L to (round_segment to time spans) →
  ∀ improves : bool,
    (improves = false → is_Some (segments s !! to)) →
    labels_invariant L J kept
      (let s1 :=
         match stops_marked_for_next_round s !! to with
         | Some _ => s
         | None =>
             set_marked_next
               (insert to (mark to RaptorMarkedStopSourceTransfer)) s
         end in
       if improves
       then set_segments (insert to (round_segment to time spans)) s1
       else s1).
Proof.
  intros Hs Hl improves Himp. cbv zeta.
  destruct improves.
  - destruct (stops_marked_for_next_round s !! to) eqn:Hm.
    + eapply labels_invariant_weaken;
        [by apply labels_invariant_insert|set_solver].
    + destruct Hs as [HA HB HC HK]. split; simpl.
      * intros k' seg'. rewrite lookup_insert. case_decide as Hk.
        -- subst. by intros [= <-].
        -- by apply HA.
      * intros k m. rewrite lookup_insert. case_decide.
        -- intros [= <-]. simpl. rewrite lookup_insert_eq. eauto.
        -- intros Hk. apply lookup_insert_is_Some'. right. by eapply HB.
      * done.
      * intros k Hk. apply lookup_insert_is_Some'. right. by apply HK.
  - destruct (stops_marked_for_next_round s !! to) eqn:Hm; [done|].
    apply labels_invariant_mark; auto.
Qed.

Lemma check_journey_labels (fmt_v : ID → string) kept segment
    (s : RaptorState ID) :
  (∀ first_span last_span,
     head (Spans segment) = Some first_span →
     last (Spans segment) = Some last_span →
     is_in_vehicle first_span = true → is_in_vehicle last_span = true →
     J (journey_of_spans first_span last_span (Spans segment))) →
  labels_invariant L J kept s →
  labels_invariant L J kept (check_journey fmt_v segment s).1.
Proof.
  intros Hseg Hs. unfold check_journey.
  destruct (potential_journey_fingerprints s !! _); [done|].
  destruct (head (Spans segment)) as [f|] eqn:Hf; [|done].
  destruct (last (Spans segment)) as [l|] eqn:Hl; [|done].
  destruct (is_in_vehicle f) eqn:Hvf; [|done].
  destruct (is_in_vehicle l) eqn:Hvl; [|done].
  destruct Hs as [HA HB HC HK]. split; simpl; try done.
  intros j [Hj|Hj]%elem_of_app; [by apply HC|].
  apply list_elem_of_singleton in Hj as ->. by apply Hseg.
Qed.

End LabelsGeneric.

Section DepartLabels.
Context {ID : Type} `{Countable ID}.
Variables (zero_ID : ID) (fmt_v : ID → string).
Variable input : SimpleRaptorInput ID.
Variable p : PreparedRaptorInput ID.
Variable L : ID → RoundSegment ID → Prop.
Variable J : Journey ID → Prop.

Hypothesis L_ride : ∀ m cur st fi fst,
  depart_boarded p L m cur st →
  index_list (StopTimes (Input p)) fi = Ok fst →
  L (GetUniqueStopID fst)
    (round_segment (GetUniqueStopID fst) (GetArrivalTimeInSeconds fst)
       (Spans cur ++ [depart_ride_span st fst])).

Hypothesis L_walk : ∀ m cur st fi fst ti tr,
  depart_boarded p L m cur st →
  index_list (StopTimes (Input p)) fi = Ok fst →
  index_list (Transfers (Input p)) ti = Ok tr →
  L (GetToUniqueStopID tr)
    (round_segment (GetToUniqueStopID tr)
       (add64 (GetArrivalTimeInSeconds fst)
              (GetMinimumTransferTimeInSeconds tr))
       ((Spans cur ++ [depart_ride_span st fst])
          ++ [depart_walk_span fst tr])).

Hypothesis J_emit : ∀ stop segment first_span last_span,
  L stop segment →
  is_Some (ToStopsByUniqueStopId p !! stop) →
  head (Spans segment) = Some first_span →
  last (Spans segment) = Some last_span →
  is_in_vehicle first_span = true → is_in_vehicle last_span = true →
  J (journey_of_spans first_span last_span (Spans segment)).

Lemma depart_relax_transfer_labels kept m cur st fi fst
    (s : RaptorState ID) ti :
  depart_boarded p L m cur st →
  index_list (StopTimes (Input p)) fi = Ok fst →
  labels_invariant L J kept s →
  holds (labels_invariant L J kept)
        (depart_relax_transfer p fst
           (round_segment (GetUniqueStopID fst) (GetArrivalTimeInSeconds fst)
              (Spans cur ++ [depart_ride_span st fst])) s ti).
Proof.
  intros Hb Hfst Hs. unfold depart_relax_transfer.
  destruct (index_list (Transfers _) _) as [tr|] eqn:Htr; simpl; [|done].
  pose proof (L_walk m cur st fi fst ti tr Hb Hfst Htr) as Hl.
  pose proof (labels_invariant_relax L J kept s _ _ _ Hs Hl) as Hr.
  cbv zeta in Hr.
  match goal with
  | |- holds _ (if ?b then _ else _) => specialize (Hr b); destruct b eqn:Hi
  end; simpl; apply Hr; [done|].
  intros _.
  destruct (stops_marked_for_next_round s !! GetToUniqueStopID tr);
    simpl in Hi; by destruct (segments s !! GetToUniqueStopID tr).
Qed.

Lemma depart_scan_labels kept m cur st fi (s : RaptorState ID) :
  depart_boarded p L m cur st →
  labels_invariant L J kept s →
  holds (λ r, labels_invariant L J kept r.1)
        (depart_scan zero_ID fmt_v input p cur m st fi s).
Proof.
  intros Hb Hs. unfold depart_scan.
  destruct (index_list _ _) as [fst|] eqn:Hfst; simpl; [|done].
  set (stop := GetUniqueStopID fst).
  pose proof (L_ride m cur st fi fst Hb Hfst) as Hl.
  eapply (holds_bind (labels_invariant L J (stop :: kept))).
  - match goal with
    | |- holds _ (if ?b then _ else _) => destruct b eqn:Himp
    end.
    + assert (Hs' : labels_invariant L J (stop :: kept)
                      (set_segments
                         (insert stop
                            (round_segment stop (GetArrivalTimeInSeconds fst)
                               (Spans cur ++ [depart_ride_span st fst])))
                         s)).
      { by apply labels_invariant_insert. }
      destruct (AllowTransferHopping input || _); simpl; [|exact Hs'].
      apply fold_result_inv; [|exact Hs'].
      intros s' ti _ Hs''.
      by apply (depart_relax_transfer_labels _ m cur st fi fst).
    + simpl. destruct (segments s !! stop) as [e|] eqn:He; [|done].
      destruct Hs as [HA HB HC HK]. split; try done.
      intros k [->|Hk]%elem_of_cons; [rewrite He; eauto|by apply HK].
  - intros s1 Hs1.
    assert (Hstop : is_Some (segments s1 !! stop)).
    { apply (li_kept _ _ _ _ Hs1). left. }
    assert (Hs2 : labels_invariant L J kept
              (set_marked_next
                 (insert stop (mark stop RaptorMarkedStopSourceArrival)) s1)).
    { apply labels_invariant_mark; [|done].
      eapply labels_invariant_weaken; [exact Hs1|set_solver]. }
    destruct (ToStopsByUniqueStopId p !! stop) eqn:Hto; simpl; [|exact Hs2].
    apply check_journey_labels; [|exact Hs2].
    destruct Hstop as [seg Hseg]. simpl. rewrite Hseg. simpl.
    intros f l Hf Hl' Hvf Hvl.
    apply (J_emit stop); try done.
    by apply (li_labels _ _ _ _ Hs1 stop).
Qed.

Lemma depart_board_labels kept m cur idx (s : RaptorState ID) :
  L (marked_ID m) cur →
  idx ∈ elems (index_of (p_StopTimesByUniqueStopId p) (marked_ID m)) →
  labels_invariant L J kept s →
  holds (λ r, labels_invariant L J kept r.1)
        (depart_board zero_ID fmt_v input p cur m idx s).
Proof.
  intros Hcur Hidx Hs. unfold depart_board.
  destruct (index_list _ _) as [st|] eqn:Hst; simpl; [|done].
  match goal with
  | |- holds _ (if ?b then _ else _) => destruct b eqn:Hskip
  end; simpl; [done|].
  apply orb_false_elim in Hskip as [Hdep _].
  apply bool_decide_eq_false in Hdep.
  assert (Hb : depart_boarded p L m cur st).
  { split; [done|]. split; [eauto|lia]. }
  destruct (SliceIterator.First _) as [fi|]; simpl; [|done].
  destruct (index_list _ fi) as [fst|]; simpl; [|done].
  match goal with
  | |- holds _ (mbind _ ?r) => destruct r as [sub|] eqn:Hsub; simpl; [|done]
  end.
  assert (∃ d, sub = NewSliceIterator d false) as [d ->].
  { destruct (bool_decide _) in Hsub;
      apply SliceIterator_fresh in Hsub; exact Hsub. }
  eapply (holds_bind (labels_invariant L J kept)); [|by intros].
  apply for_each_inv.
  - intros; by apply depart_scan_labels.
  - by destruct Hs.
Qed.

Lemma depart_marked_stop_labels kept (s : RaptorState ID) m :
  marked_ID m ∈ kept →
  labels_invariant L J kept s →
  holds (labels_invariant L J kept)
        (depart_marked_stop zero_ID fmt_v input p s m).
Proof.
  intros Hm Hs. unfold depart_marked_stop.
  destruct (li_kept _ _ _ _ Hs _ Hm) as [cur Hcur]. rewrite Hcur. simpl.
  apply for_each_inv; [|done].
  intros idx s' Hidx Hs'. apply depart_board_labels; [|done..].
  by apply (li_labels _ _ _ _ Hs).
Qed.

End DepartLabels.

Section ArriveLabels.
Context {ID : Type} `{Countable ID}.
Variables (zero_ID : ID) (fmt_v : ID → string).
Variable input : SimpleRaptorInput ID.
Variable p : PreparedRaptorInput ID.
Variable L : ID → RoundSegment ID → Prop.
Variable J : Journey ID → Prop.

Hypothesis L_ride : ∀ m cur st fi prec,
  arrive_boarded p L m cur st →
  index_list (StopTimes (Input p)) fi = Ok prec →
  L (GetUniqueStopID prec)
    (round_segment (GetUniqueStopID prec) (GetArrivalTimeInSeconds prec)
       (arrive_ride_span prec st :: Spans cur)).

Hypothesis L_walk : ∀ m cur st fi prec ti tr,
  arrive_boarded p L m cur st →
  index_list (StopTimes (Input p)) fi = Ok prec →
  index_list (Transfers (Input p)) ti = Ok tr →
  ti ∈ elems (index_of (p_TransfersByUniqueStopId p) (GetUniqueStopID prec)) →
  L (GetToUniqueStopID tr)
    (round_segment (GetToUniqueStopID tr)
       (sub64 (GetArrivalTimeInSeconds prec)
              (GetMinimumTransferTimeInSeconds tr))
       (arrive_walk_span prec tr :: arrive_ride_span prec st :: Spans cur)).

Hypothesis J_emit : ∀ stop segment first_span last_span,
  L stop segment →
  is_Some (FromStopsByUniqueStopId p !! stop) →
  head (Spans segment) = Some first_span →
  last (Spans segment) = Some last_span →
  is_in_vehicle first_span = true → is_in_vehicle last_span = true →
  J (journey_of_spans first_span last_span (Spans segment)).

Lemma arrive_relax_transfer_labels kept m cur st fi prec
    (s : RaptorState ID) ti :
  arrive_boarded p L m cur st →
  index_list (StopTimes (Input p)) fi = Ok prec →
  ti ∈ elems (index_of (p_TransfersByUniqueStopId p) (GetUniqueStopID prec)) →
  labels_invariant L J kept s →
  holds (labels_invariant L J kept)
        (arrive_relax_transfer p prec
           (round_segment (GetUniqueStopID prec) (GetArrivalTimeInSeconds prec)
              (arrive_ride_span prec st :: Spans cur)) s ti).
Proof.
  intros Hb Hprec Hti Hs. unfold arrive_relax_transfer.
  destruct (index_list (Transfers _) _) as [tr|] eqn:Htr; simpl; [|done].
  pose proof (L_walk m cur st fi prec ti tr Hb Hprec Htr Hti) as Hl.
  pose proof (labels_invariant_relax L J kept s _ _ _ Hs Hl) as Hr.
  cbv zeta in Hr.
  match goal with
  | |- holds _ (if ?b then _ else _) => specialize (Hr b); destruct b eqn:Hi
  end; simpl; apply Hr; [done|].
  intros _.
  destruct (stops_marked_for_next_round s !! GetToUniqueStopID tr);
    simpl in Hi; by destruct (segments s !! GetToUniqueStopID tr).
Qed.

Lemma arrive_scan_labels kept m cur st fi (s : RaptorState ID) :
  arrive_boarded p L m cur st →
  labels_invariant L J kept s →
  holds (λ r, labels_invariant L J kept r.1)
        (arrive_scan zero_ID fmt_v input p cur m st fi s).
Proof.
  intros Hb Hs. unfold arrive_scan.
  destruct (index_list _ _) as [prec|] eqn:Hprec; simpl; [|done].
  set (stop := GetUniqueStopID prec).
  pose proof (L_ride m cur st fi prec Hb Hprec) as Hl.
  eapply (holds_bind (labels_invariant L J (stop :: kept))).
  - match goal with
    | |- holds _ (if ?b then _ else _) => destruct b eqn:Himp
    end.
    + assert (Hs' : labels_invariant L J (stop :: kept)
                      (set_segments
                         (insert stop
                            (round_segment stop (GetArrivalTimeInSeconds prec)
                               (arrive_ride_span prec st :: Spans cur)))
                         s)).
      { by apply labels_invariant_insert. }
      destruct (AllowTransferHopping input || _); simpl; [|exact Hs'].
      apply fold_result_inv; [|exact Hs'].
      intros s' ti Hti Hs''.
      by apply (arrive_relax_transfer_labels _ m cur st fi prec).
    + simpl. destruct (segments s !! stop) as [e|] eqn:He; [|done].
      destruct Hs as [HA HB HC HK]. split; try done.
      intros k [->|Hk]%elem_of_cons; [rewrite He; eauto|by apply HK].
  - intros s1 Hs1.
    assert (Hstop : is_Some (segments s1 !! stop)).
    { apply (li_kept _ _ _ _ Hs1). left. }
    assert (Hs2 : labels_invariant L J kept
              (set_marked_next
                 (insert stop (mark stop RaptorMarkedStopSourceArrival)) s1)).
    { apply labels_invariant_mark; [|done].
      eapply labels_invariant_weaken; [exact Hs1|set_solver]. }
    destruct (FromStopsByUniqueStopId p !! stop) eqn:Hfrom; simpl;
      [|exact Hs2].
    apply check_journey_labels; [|exact Hs2].
    destruct Hstop as [seg Hseg]. simpl. rewrite Hseg. simpl.
    intros f l Hf Hl' Hvf Hvl.
    apply (J_emit stop); try done.
    by apply (li_labels _ _ _ _ Hs1 stop).
Qed.

Lemma arrive_board_labels kept m cur idx (s : RaptorState ID) :
  L (marked_ID m) cur →
  idx ∈ elems (index_of (p_StopTimesByUniqueStopId p) (marked_ID m)) →
  labels_invariant L J kept s →
  holds (λ r, labels_invariant L J kept r.1)
        (arrive_board zero_ID fmt_v input p cur m idx s).
Proof.
  intros Hcur Hidx Hs. unfold arrive_board.
  destruct (index_list _ _) as [st|] eqn:Hst; simpl; [|done].
  match goal with
  | |- holds _ (if ?b then _ else _) => destruct b eqn:Hskip
  end; simpl; [done|].
  apply orb_false_elim in Hskip as [Harr _].
  apply bool_decide_eq_false in Harr.
  assert (Hb : arrive_boarded p L m cur st).
  { split; [done|]. split; [eauto|lia]. }
  destruct (SliceIterator.First _) as [fi|]; simpl; [|done].
  destruct (index_list _ fi) as [lst|]; simpl; [|done].
  match goal with
  | |- holds _ (mbind _ ?r) => destruct r as [sub|] eqn:Hsub; simpl; [|done]
  end.
  assert (∃ d, sub = NewSliceIterator d true) as [d ->].
  { destruct (bool_decide _) in Hsub;
      apply SliceIterator_fresh in Hsub; exact Hsub. }
  eapply (holds_bind (labels_invariant L J kept)); [|by intros].
  apply for_each_inv.
  - intros; by apply arrive_scan_labels.
  - by destruct Hs.
Qed.

Lemma arrive_marked_stop_labels kept (s : RaptorState ID) m :
  marked_ID m ∈ kept →
  labels_invariant L J kept s →
  holds (labels_invariant L J kept)
        (arrive_marked_stop zero_ID fmt_v input p s m).
Proof.
  intros Hm Hs. unfold arrive_marked_stop.
  destruct (li_kept _ _ _ _ Hs _ Hm) as [cur Hcur]. rewrite Hcur. simpl.
  apply for_each_inv; [|done].
  intros idx s' Hidx Hs'. apply arrive_board_labels; [|done..].
  by apply (li_labels _ _ _ _ Hs).
Qed.

End ArriveLabels.

Section RoundsLabels.
Context {ID : Type} `{Countable ID}.
Variables (growcap : nat → nat) (range_order : nat → list nat).
Variable L : ID → RoundSegment ID → Prop.
Variable J : Journey ID → Prop.

(** A round body that keeps the invariant inside a round keeps it between
    rounds. *)
Lemma raptor_rounds_labels
    (process : RaptorState ID → RaptorMarkedStop ID → Result (RaptorState ID))
    n r (s : RaptorState ID) :
  (∀ kept s m, marked_ID m ∈ kept → labels_invariant L J kept s →
               holds (labels_invariant L J kept) (process s m)) →
  labels_round_invariant L J s →
  holds (labels_round_invariant L J) (raptor_rounds range_order process n r s).
Proof.
  intros Hp. revert r s.
  induction n as [|n IH]; intros r s Hs; simpl; [done|].
  eapply (holds_bind (labels_round_invariant L J)); [|by intros; apply IH].
  unfold raptor_round.
  set (marked := marked_in_order range_order r (stops_marked_for_round s)).
  destruct Hs as (HA & HM & HC).
  eapply (holds_bind (labels_invariant L J (marked_ID <$> marked))).
  - apply fold_result_inv.
    + intros s' m Hm Hs'. apply Hp; [|done]. by apply list_elem_of_fmap_2.
    + split; simpl; try done.
      intros k [m [-> Hm]]%list_elem_of_fmap.
      apply pick_order_elem_of in Hm.
      apply list_elem_of_fmap in Hm as [[k' m'] [-> Hm]].
      apply elem_of_map_to_list in Hm. by eapply HM.
  - intros s' [HA' HB' HC' _]. by split.
Qed.

(** The state before the first round satisfies the invariant when the
    labels of the terminals satisfy [L]. *)
Lemma initial_state_labels (input : SimpleRaptorInput ID) terminals :
  (∀ stop, stop ∈ terminals →
           L (GetUniqueID stop)
             (round_segment (GetUniqueID stop) (TimeInSeconds input) [])) →
  labels_round_invariant L J (initial_state input terminals).
Proof.
  intros Hinit. split; [|split]; simpl.
  - intros k segment [(x & Hx & <- & <-)|Hk]%foldl_insert_lookup.
    + by apply Hinit.
    + by rewrite lookup_empty in Hk.
  - intros k m [(x & Hx & <- & <-)|Hk]%foldl_insert_lookup.
    + simpl. apply (foldl_insert_is_Some GetUniqueID). left. eauto.
    + by rewrite lookup_empty in Hk.
  - intros j Hj. by apply elem_of_nil in Hj.
Qed.

End RoundsLabels.

Lemma adjacent_nil {A} (R : A → A → Prop) : adjacent R [].
Proof. intros i a b Ha. by rewrite lookup_nil in Ha. Qed.

Lemma adjacent_cons {A} (R : A → A → Prop) (y : A) l :
  adjacent R l → (∀ x, head l = Some x → R y x) → adjacent R (y :: l).
Proof.
  intros Hl Hy [|i] a b; simpl.
  - intros [= <-] Hb. apply Hy. by rewrite head_lookup.
  - apply Hl.
Qed.

Lemma adjacent_snoc {A} (R : A → A → Prop) (y : A) l :
  adjacent R l → (∀ x, last l = Some x → R x y) → adjacent R (l ++ [y]).
Proof.
  intros Hl Hy i a b Ha Hb.
  destruct (decide (S i < length l)%nat) as [Hlt|Hge].
  - rewrite lookup_app_l in Ha by lia. rewrite lookup_app_l in Hb by lia.
    by eapply Hl.
  - assert (S i = length l) as Hi.
    { apply lookup_lt_Some in Hb. rewrite length_app in Hb. simpl in Hb.
      lia. }
    rewrite lookup_app_l in Ha by lia.
    rewrite Hi, lookup_app_r, Nat.sub_diag in Hb by lia.
    injection Hb as <-. apply Hy.
    rewrite last_lookup. by replace (pred (length l)) with i by lia.
Qed.

Lemma head_snoc {A} (l : list A) y x :
  head (l ++ [y]) = Some x → head l = Some x ∨ (l = [] ∧ x = y).
Proof. destruct l; simpl; intros [= <-]; auto. Qed.

Section SearchLabels.
Context {ID : Type} `{Countable ID}.
Variables (zero_ID : ID) (fmt_v : ID → string).
Variables (growcap : nat → nat) (range_order : nat → list nat).
Variable input : SimpleRaptorInput ID.
Variable L : ID → RoundSegment ID → Prop.
Variable J : Journey ID → Prop.

Local Abbreviation p := (PrepareRaptorInput growcap input).

(** A property of the labels that the rides and walks of the depart-at
    search preserve, and that makes every emitted journey satisfy [J], makes
    every returned journey satisfy [J]. *)
Lemma SimpleRaptorDepartAt_labels :
  (∀ m cur st fi fst,
     depart_boarded p L m cur st →
     index_list (StopTimes input) fi = Ok fst →
     L (GetUniqueStopID fst)
       (round_segment (GetUniqueStopID fst) (GetArrivalTimeInSeconds fst)
          (Spans cur ++ [depart_ride_span st fst]))) →
  (∀ m cur st fi fst ti tr,
     depart_boarded p L m cur st →
     index_list (StopTimes input) fi = Ok fst →
     index_list (Transfers input) ti = Ok tr →
     L (GetToUniqueStopID tr)
       (round_segment (GetToUniqueStopID tr)
          (add64 (GetArrivalTimeInSeconds fst)
                 (GetMinimumTransferTimeInSeconds tr))
          ((Spans cur ++ [depart_ride_span st fst])
             ++ [depart_walk_span fst tr]))) →
  (∀ stop segment first_span last_span,
     L stop segment →
     stop ∈ GetUniqueID <$> ToStops input →
     head (Spans segment) = Some first_span →
     last (Spans segment) = Some last_span →
     is_in_vehicle first_span = true → is_in_vehicle last_span = true →
     J (journey_of_spans first_span last_span (Spans segment))) →
  (∀ stop, stop ∈ FromStops input →
           L (GetUniqueID stop)
             (round_segment (GetUniqueID stop) (TimeInSeconds input) [])) →
  holds (λ js, ∀ j, j ∈ js → J j)
        (SimpleRaptorDepartAt zero_ID fmt_v growcap range_order input).
Proof.
  intros Hride Hwalk Hemit Hinit. unfold SimpleRaptorDepartAt.
  eapply (holds_bind (labels_round_invariant L J)).
  - apply raptor_rounds_labels; [|by apply initial_state_labels].
    intros kept s m.
    apply (depart_marked_stop_labels zero_ID fmt_v input p L J); try done.
    intros stop segment f l Hseg [v Hv] Hf Hl.
    apply (Hemit stop); try done.
    simpl in Hv. apply foldl_insert_lookup in Hv as [(x & Hx & <- & _)|Hv].
    + by apply list_elem_of_fmap_2.
    + by rewrite lookup_empty in Hv.
  - intros s (_ & _ & HJ). simpl. exact HJ.
Qed.

(** The same for the arrive-by search.  A walk is built from a transfer
    the transfer index lists under the stop of the stop time reached. *)
Lemma SimpleRaptorArriveBy_labels_listed :
  (∀ m cur st fi prec,
     arrive_boarded p L m cur st →
     index_list (StopTimes input) fi = Ok prec →
     L (GetUniqueStopID prec)
       (round_segment (GetUniqueStopID prec) (GetArrivalTimeInSeconds prec)
          (arrive_ride_span prec st :: Spans cur))) →
  (∀ m cur st fi prec ti tr,
     arrive_boarded p L m cur st →
     index_list (StopTimes input) fi = Ok prec →
     index_list (Transfers input) ti = Ok tr →
     ti ∈ elems (index_of (p_TransfersByUniqueStopId p)
                          (GetUniqueStopID prec)) →
     L (GetToUniqueStopID tr)
       (round_segment (GetToUniqueStopID tr)
          (sub64 (GetArrivalTimeInSeconds prec)
                 (GetMinimumTransferTimeInSeconds tr))
          (arrive_walk_span prec tr :: arrive_ride_span prec st
             :: Spans cur))) →
  (∀ stop segment first_span last_span,
     L stop segment →
     stop ∈ GetUniqueID <$> FromStops input →
     head (Spans segment) = Some first_span →
     last (Spans segment) = Some last_span →
     is_in_vehicle first_span = true → is_in_vehicle last_span = true →
     J (journey_of_spans first_span last_span (Spans segment))) →
  (∀ stop, stop ∈ ToStops input →
           L (GetUniqueID stop)
             (round_segment (GetUniqueID stop) (TimeInSeconds input) [])) →
  holds (λ js, ∀ j, j ∈ js → J j)
        (SimpleRaptorArriveBy zero_ID fmt_v growcap range_order input).
Proof.
  intros Hride Hwalk Hemit Hinit. unfold SimpleRaptorArriveBy.
  eapply (holds_bind (labels_round_invariant L J)).
  - apply raptor_rounds_labels; [|by apply initial_state_labels].
    intros kept s m.
    apply (arrive_marked_stop_labels zero_ID fmt_v input p L J); try done.
    intros stop segment f l Hseg [v Hv] Hf Hl.
    apply (Hemit stop); try done.
    simpl in Hv. apply foldl_insert_lookup in Hv as [(x & Hx & <- & _)|Hv].
    + by apply list_elem_of_fmap_2.
    + by rewrite lookup_empty in Hv.
  - intros s (_ & _ & HJ). simpl. exact HJ.
Qed.

Lemma SimpleRaptorArriveBy_labels :
  (∀ m cur st fi prec,
     arrive_boarded p L m cur st →
     index_list (StopTimes input) fi = Ok prec →
     L (GetUniqueStopID prec)
       (round_segment (GetUniqueStopID prec) (GetArrivalTimeInSeconds prec)
          (arrive_ride_span prec st :: Spans cur))) →
  (∀ m cur st fi prec ti tr,
     arrive_boarded p L m cur st →
     index_list (StopTimes input) fi = Ok prec →
     index_list (Transfers input) ti = Ok tr →
     L (GetToUniqueStopID tr)
       (round_segment (GetToUniqueStopID tr)
          (sub64 (GetArrivalTimeInSeconds prec)
                 (GetMinimumTransferTimeInSeconds tr))
          (arrive_walk_span prec tr :: arrive_ride_span prec st
             :: Spans cur))) →
  (∀ stop segment first_span last_span,
     L stop segment →
     stop ∈ GetUniqueID <$> FromStops input →
     head (Spans segment) = Some first_span →
     last (Spans segment) = Some last_span →
     is_in_vehicle first_span = true → is_in_vehicle last_span = true →
     J (journey_of_spans first_span last_span (Spans segment))) →
  (∀ stop, stop ∈ ToStops input →
           L (GetUniqueID stop)
             (round_segment (GetUniqueID stop) (TimeInSeconds input) [])) →
  holds (λ js, ∀ j, j ∈ js → J j)
        (SimpleRaptorArriveBy zero_ID fmt_v growcap range_order input).
Proof.
  intros Hride Hwalk Hemit Hinit.
  apply SimpleRaptorArriveBy_labels_listed; try done.
  intros m cur st fi prec ti tr Hb Hprec Htr _. by eapply Hwalk.
Qed.

End SearchLabels.

(** * Properties of every journey *)

Lemma last_cons_cons' {A} (x : A) l y :
  last l = Some y → last (x :: l) = Some y.
Proof. destruct l; [done|]. by rewrite last_cons_cons. Qed.

Lemma last_cons_inv {A} (x : A) l y :
  last (x :: l) = Some y → last l = Some y ∨ (l = [] ∧ y = x).
Proof.
  destruct l as [|z l]; simpl.
  - intros [= <-]. by right.
  - intros Hl. by left.
Qed.

Section SearchProperties.
Context {ID : Type} `{Countable ID}.
Variables (zero_ID : ID) (fmt_v : ID → string).
Variables (growcap : nat → nat) (range_order : nat → list nat).

(** X18.  In depart-at mode every journey returned ends at a destination:
    its [ToUniqueStopID], which is that of its last leg, is the unique id of
    one of the [ToStops].  This holds for every input, supplied indices
    included. *)
Theorem depart_at_journeys_end_at_destination (input : SimpleRaptorInput ID)
    js :
  SimpleRaptorDepartAt zero_ID fmt_v growcap range_order input = Ok js →
  ∀ j, j ∈ js →
    j_ToUniqueStopID j ∈ GetUniqueID <$> ToStops input ∧
    ∃ last_leg, last (Legs j) = Some last_leg ∧
                ToUniqueStopID last_leg = j_ToUniqueStopID j.
Proof.
  intros Hrun.
  pose proof (SimpleRaptorDepartAt_labels zero_ID fmt_v growcap range_order
    input
    (λ k segment, ∀ span, last (Spans segment) = Some span →
                          ToUniqueStopID span = k)
    (λ j, j_ToUniqueStopID j ∈ GetUniqueID <$> ToStops input ∧
          ∃ last_leg, last (Legs j) = Some last_leg ∧
                      ToUniqueStopID last_leg = j_ToUniqueStopID j)) as Hl.
  rewrite Hrun in Hl. apply Hl; clear Hl Hrun.
  - intros m cur st fi fst _ _ span. simpl. rewrite last_snoc.
    by intros [= <-].
  - intros m cur st fi fst ti tr _ _ _ span. simpl. rewrite last_snoc.
    by intros [= <-].
  - intros stop segment f l Hseg Hstop Hf Hlast _ _. simpl.
    rewrite (Hseg l Hlast). eauto.
  - intros stop _ span. simpl. done.
Qed.

(** X22.  In arrive-by mode every journey returned begins at an origin: its
    [FromUniqueStopID], which is that of its first leg, is the unique id of
    one of the [FromStops].  This holds for every input, supplied indices
    included. *)
Theorem arrive_by_journeys_begin_at_origin (input : SimpleRaptorInput ID)
    js :
  SimpleRaptorArriveBy zero_ID fmt_v growcap range_order input = Ok js →
  ∀ j, j ∈ js →
    j_FromUniqueStopID j ∈ GetUniqueID <$> FromStops input ∧
    ∃ first_leg, head (Legs j) = Some first_leg ∧
                 FromUniqueStopID first_leg = j_FromUniqueStopID j.
Proof.
  intros Hrun.
  pose proof (SimpleRaptorArriveBy_labels zero_ID fmt_v growcap range_order
    input
    (λ k segment, ∀ span, head (Spans segment) = Some span →
                          FromUniqueStopID span = k)
    (λ j, j_FromUniqueStopID j ∈ GetUniqueID <$> FromStops input ∧
          ∃ first_leg, head (Legs j) = Some first_leg ∧
                       FromUniqueStopID first_leg = j_FromUniqueStopID j))
    as Hl.
  rewrite Hrun in Hl. apply Hl; clear Hl Hrun.
  - intros m cur st fi prec _ _ span. simpl. by intros [= <-].
  - intros m cur st fi prec ti tr _ _ _ span. simpl. by intros [= <-].
  - intros stop segment f l Hseg Hstop Hf Hlast _ _. simpl.
    rewrite (Hseg f Hf). eauto.
  - intros stop _ span. simpl. done.
Qed.

(** X19.  In depart-at mode no journey returned departs before the requested
    time: its departure time, which is that of its first leg, is at least
    [TimeInSeconds].  This holds for every input. *)
Theorem depart_at_journeys_depart_after_time (input : SimpleRaptorInput ID)
    js :
  SimpleRaptorDepartAt zero_ID fmt_v growcap range_order input = Ok js →
  ∀ j, j ∈ js →
    TimeInSeconds input ≤ j_DepartureTimeInSeconds j ∧
    ∃ first_leg, head (Legs j) = Some first_leg ∧
                 DepartureTimeInSecondsFromUniqueStopID first_leg
                 = j_DepartureTimeInSeconds j.
Proof.
  intros Hrun.
  pose proof (SimpleRaptorDepartAt_labels zero_ID fmt_v growcap range_order
    input
    (λ k segment,
       (Spans segment = [] →
        seg_ArrivalTimeInSeconds segment = TimeInSeconds input) ∧
       ∀ span, head (Spans segment) = Some span →
               TimeInSeconds input
               ≤ DepartureTimeInSecondsFromUniqueStopID span)
    (λ j, TimeInSeconds input ≤ j_DepartureTimeInSeconds j ∧
          ∃ first_leg, head (Legs j) = Some first_leg ∧
                       DepartureTimeInSecondsFromUniqueStopID first_leg
                       = j_DepartureTimeInSeconds j)) as Hl.
  rewrite Hrun in Hl. apply Hl; clear Hl Hrun.
  - intros m cur st fi fst ([Hnil Hhead] & _ & Hdep) _. simpl. split.
    + by intros [_ [=]]%app_eq_nil.
    + intros span [Hsp|[Hcur ->]]%head_snoc; [by apply Hhead|].
      simpl. rewrite <- (Hnil Hcur). exact Hdep.
  - intros m cur st fi fst ti tr ([Hnil Hhead] & _ & Hdep) _ _. simpl.
    split.
    + by intros [_ [=]]%app_eq_nil.
    + intros span [[Hsp|[Hcur ->]]%head_snoc|[[? [=]]%app_eq_nil _]]%head_snoc;
        [by apply Hhead|].
      simpl. rewrite <- (Hnil Hcur). exact Hdep.
  - intros stop segment f l [_ Hseg] _ Hf _ _ _. simpl. eauto.
  - intros stop _. by simpl.
Qed.

(** X24.  In arrive-by mode no journey returned arrives after the requested
    time: its arrival time, which is that of its last leg, is at most
    [TimeInSeconds].  This holds for every input. *)
Theorem arrive_by_journeys_arrive_before_time (input : SimpleRaptorInput ID)
    js :
  SimpleRaptorArriveBy zero_ID fmt_v growcap range_order input = Ok js →
  ∀ j, j ∈ js →
    j_ArrivalTimeInSeconds j ≤ TimeInSeconds input ∧
    ∃ last_leg, last (Legs j) = Some last_leg ∧
                ArrivalTimeInSecondsToUniqueStopID last_leg
                = j_ArrivalTimeInSeconds j.
Proof.
  intros Hrun.
  pose proof (SimpleRaptorArriveBy_labels zero_ID fmt_v growcap range_order
    input
    (λ k segment,
       (Spans segment = [] →
        seg_ArrivalTimeInSeconds segment = TimeInSeconds input) ∧
       ∀ span, last (Spans segment) = Some span →
               ArrivalTimeInSecondsToUniqueStopID span
               ≤ TimeInSeconds input)
    (λ j, j_ArrivalTimeInSeconds j ≤ TimeInSeconds input ∧
          ∃ last_leg, last (Legs j) = Some last_leg ∧
                      ArrivalTimeInSecondsToUniqueStopID last_leg
                      = j_ArrivalTimeInSeconds j)) as Hl.
  rewrite Hrun in Hl. apply Hl; clear Hl Hrun.
  - intros m cur st fi prec ([Hnil Hlast] & _ & Harr) _.
    unfold round_segment; cbn [Spans seg_ArrivalTimeInSeconds]. split.
    + done.
    + intros span [Hsp|[Hcur ->]]%last_cons_inv; [by apply Hlast|].
      simpl. rewrite <- (Hnil Hcur). exact Harr.
  - intros m cur st fi prec ti tr ([Hnil Hlast] & _ & Harr) _ _.
    unfold round_segment; cbn [Spans seg_ArrivalTimeInSeconds]. split.
    + done.
    + intros span [[Hsp|[Hcur ->]]%last_cons_inv|[[=] _]]%last_cons_inv;
        [by apply Hlast|].
      simpl. rewrite <- (Hnil Hcur). exact Harr.
  - intros stop segment f l [_ Hseg] _ _ Hlast _ _. simpl. eauto.
  - intros stop _. by simpl.
Qed.

(** X20.  In depart-at mode, in every journey returned, each leg arrives no
    later than the next leg departs.  This holds for every input, whatever
    its stop times and transfer times. *)
Theorem depart_at_legs_chained_in_time (input : SimpleRaptorInput ID) js :
  SimpleRaptorDepartAt zero_ID fmt_v growcap range_order input = Ok js →
  ∀ j, j ∈ js → legs_chained_in_time (Legs j).
Proof.
  intros Hrun.
  pose proof (SimpleRaptorDepartAt_labels zero_ID fmt_v growcap range_order
    input
    (λ k segment,
       legs_chained_in_time (Spans segment) ∧
       ∀ span, last (Spans segment) = Some span →
               ArrivalTimeInSecondsToUniqueStopID span
               = seg_ArrivalTimeInSeconds segment)
    (λ j, legs_chained_in_time (Legs j))) as Hl.
  rewrite Hrun in Hl. apply Hl; clear Hl Hrun.
  - intros m cur st fi fst ([Hch Hlast] & _ & Hdep) _.
    unfold round_segment; cbn [Spans seg_ArrivalTimeInSeconds]. split.
    + apply adjacent_snoc; [done|]. intros x Hx.
      rewrite (Hlast x Hx). exact Hdep.
    + intros span. rewrite last_snoc. by intros [= <-].
  - intros m cur st fi fst ti tr ([Hch Hlast] & _ & Hdep) _ _.
    unfold round_segment; cbn [Spans seg_ArrivalTimeInSeconds]. split.
    + apply adjacent_snoc.
      * apply adjacent_snoc; [done|]. intros x Hx.
        rewrite (Hlast x Hx). exact Hdep.
      * intros x. rewrite last_snoc. intros [= <-]. simpl. lia.
    + intros span. rewrite last_snoc. by intros [= <-].
  - intros stop segment f l [Hseg _] _ _ _ _ _. exact Hseg.
  - intros stop _. split; [apply adjacent_nil|done].
Qed.

(** X25.  In arrive-by mode, when every stop time of the input arrives no
    later than it departs, in every journey returned each leg arrives no
    later than the next leg departs. *)
Theorem arrive_by_legs_chained_in_time (input : SimpleRaptorInput ID) js :
  (∀ st, st ∈ StopTimes input →
         GetArrivalTimeInSeconds st ≤ GetDepartureTimeInSeconds st) →
  SimpleRaptorArriveBy zero_ID fmt_v growcap range_order input = Ok js →
  ∀ j, j ∈ js → legs_chained_in_time (Legs j).
Proof.
  intros Hsts Hrun.
  pose proof (SimpleRaptorArriveBy_labels zero_ID fmt_v growcap range_order
    input
    (λ k segment,
       legs_chained_in_time (Spans segment) ∧
       ∀ span, head (Spans segment) = Some span →
               seg_ArrivalTimeInSeconds segment
               ≤ DepartureTimeInSecondsFromUniqueStopID span)
    (λ j, legs_chained_in_time (Legs j))) as Hl.
  rewrite Hrun in Hl. apply Hl; clear Hl Hrun.
  - intros m cur st fi prec ([Hch Hhead] & _ & Harr) Hprec.
    apply index_list_Ok in Hprec as [_ Hprec%list_elem_of_lookup_2%Hsts].
    unfold round_segment; cbn [Spans seg_ArrivalTimeInSeconds]. split.
    + apply adjacent_cons; [done|]. intros x Hx.
      specialize (Hhead x Hx). simpl. lia.
    + intros span [= <-]. exact Hprec.
  - intros m cur st fi prec ti tr ([Hch Hhead] & _ & Harr) Hprec _.
    apply index_list_Ok in Hprec as [_ Hprec%list_elem_of_lookup_2%Hsts].
    unfold round_segment; cbn [Spans seg_ArrivalTimeInSeconds]. split.
    + apply adjacent_cons.
      * apply adjacent_cons; [done|]. intros x Hx.
        specialize (Hhead x Hx). simpl. lia.
      * intros x [= <-]. exact Hprec.
    + intros span [= <-]. simpl. lia.
  - intros stop segment f l [Hseg _] _ _ _ _ _. exact Hseg.
  - intros stop _. split; [apply adjacent_nil|done].
Qed.

(** X16.  In both modes no journey returned walks twice in a row: of any two
    successive legs at least one is a ride, whether or not
    [AllowTransferHopping] is set. *)
Theorem journeys_never_walk_twice_in_a_row (input : SimpleRaptorInput ID)
    js :
  SimpleRaptor zero_ID fmt_v growcap range_order input = Ok js →
  ∀ j, j ∈ js → no_consecutive_walks (Legs j).
Proof.
  unfold SimpleRaptor. case_bool_decide; intros Hrun.
  - pose proof (SimpleRaptorDepartAt_labels zero_ID fmt_v growcap
      range_order input
      (λ k segment, no_consecutive_walks (Spans segment))
      (λ j, no_consecutive_walks (Legs j))) as Hl.
    rewrite Hrun in Hl. apply Hl; clear Hl Hrun.
    + intros m cur st fi fst (Hcur & _) _. simpl.
      apply adjacent_snoc; [done|]. intros x _. by right.
    + intros m cur st fi fst ti tr (Hcur & _) _ _. simpl.
      apply adjacent_snoc.
      * apply adjacent_snoc; [done|]. intros x _. by right.
      * intros x. rewrite last_snoc. intros [= <-]. by left.
    + intros stop segment f l Hseg _ _ _ _ _. exact Hseg.
    + intros stop _. apply adjacent_nil.
  - pose proof (SimpleRaptorArriveBy_labels zero_ID fmt_v growcap
      range_order input
      (λ k segment, no_consecutive_walks (Spans segment))
      (λ j, no_consecutive_walks (Legs j))) as Hl.
    rewrite Hrun in Hl. apply Hl; clear Hl Hrun.
    + intros m cur st fi prec (Hcur & _) _.
      unfold round_segment; cbn [Spans]. 
      apply adjacent_cons; [done|]. intros x _. by left.
    + intros m cur st fi prec ti tr (Hcur & _) _ _.
      unfold round_segment; cbn [Spans].
      apply adjacent_cons.
      * apply adjacent_cons; [done|]. intros x _. by left.
      * intros x [= <-]. by right.
    + intros stop segment f l Hseg _ _ _ _ _. exact Hseg.
    + intros stop _. apply adjacent_nil.
Qed.

(** The stop time the search boards (or alights) at is a stop time at the
    marked stop when the by-stop index is sound. *)
Lemma boarded_at_marked_stop (input : SimpleRaptorInput ID) k idx st :
  by_stop_index_sound input →
  idx ∈ elems (index_of
                 (p_StopTimesByUniqueStopId (PrepareRaptorInput growcap input))
                 k) →
  index_list (StopTimes input) idx = Ok st →
  GetUniqueStopID st = k.
Proof.
  intros Hsound Hidx Hst. unfold index_of in Hidx.
  destruct (p_StopTimesByUniqueStopId _ !! k) as [sl|] eqn:Hsl.
  - by eapply (prepared_by_stop_sound growcap input Hsound).
  - by apply elem_of_nil in Hidx.
Qed.

(** X17.  In both modes, when the by-stop index is the one
    [PrepareRaptorInput] builds, or a supplied one that lists under each
    stop only stop times at that stop, the legs of every journey returned
    form a path: each leg ends at the stop where the next one begins. *)
Theorem journeys_legs_connected (input : SimpleRaptorInput ID) js :
  by_stop_index_sound input →
  SimpleRaptor zero_ID fmt_v growcap range_order input = Ok js →
  ∀ j, j ∈ js → legs_connected (Legs j).
Proof.
  intros Hsound. unfold SimpleRaptor. case_bool_decide; intros Hrun.
  - pose proof (SimpleRaptorDepartAt_labels zero_ID fmt_v growcap
      range_order input
      (λ k segment,
         legs_connected (Spans segment) ∧
         ∀ span, last (Spans segment) = Some span → ToUniqueStopID span = k)
      (λ j, legs_connected (Legs j))) as Hl.
    rewrite Hrun in Hl. apply Hl; clear Hl Hrun.
    + intros m cur st fi fst ([Hc Hlast] & (idx & Hidx & Hst) & _) _.
      apply (boarded_at_marked_stop input _ _ _ Hsound Hidx) in Hst.
      unfold round_segment; cbn [Spans]. split.
      * apply adjacent_snoc; [done|]. intros x Hx.
        rewrite (Hlast x Hx). by simpl.
      * intros span. rewrite last_snoc. by intros [= <-].
    + intros m cur st fi fst ti tr ([Hc Hlast] & (idx & Hidx & Hst) & _) _ _.
      apply (boarded_at_marked_stop input _ _ _ Hsound Hidx) in Hst.
      unfold round_segment; cbn [Spans]. split.
      * apply adjacent_snoc.
        -- apply adjacent_snoc; [done|]. intros x Hx.
           rewrite (Hlast x Hx). by simpl.
        -- intros x. rewrite last_snoc. by intros [= <-].
      * intros span. rewrite last_snoc. by intros [= <-].
    + intros stop segment f l [Hseg _] _ _ _ _ _. exact Hseg.
    + intros stop _. split; [apply adjacent_nil|done].
  - pose proof (SimpleRaptorArriveBy_labels zero_ID fmt_v growcap
      range_order input
      (λ k segment,
         legs_connected (Spans segment) ∧
         ∀ span, head (Spans segment) = Some span →
                 FromUniqueStopID span = k)
      (λ j, legs_connected (Legs j))) as Hl.
    rewrite Hrun in Hl. apply Hl; clear Hl Hrun.
    + intros m cur st fi prec ([Hc Hhead] & (idx & Hidx & Hst) & _) _.
      apply (boarded_at_marked_stop input _ _ _ Hsound Hidx) in Hst.
      unfold round_segment; cbn [Spans]. split.
      * apply adjacent_cons; [done|]. intros x Hx.
        rewrite (Hhead x Hx). by simpl.
      * by intros span [= <-].
    + intros m cur st fi prec ti tr ([Hc Hhead] & (idx & Hidx & Hst) & _) _ _.
      apply (boarded_at_marked_stop input _ _ _ Hsound Hidx) in Hst.
      unfold round_segment; cbn [Spans]. split.
      * apply adjacent_cons.
        -- apply adjacent_cons; [done|]. intros x Hx.
           rewrite (Hhead x Hx). by simpl.
        -- by intros x [= <-].
      * by intros span [= <-].
    + intros stop segment f l [Hseg _] _ _ _ _ _. exact Hseg.
    + intros stop _. split; [apply adjacent_nil|done].
Qed.

(** X23.  In arrive-by mode, when the by-stop index is the one
    [PrepareRaptorInput] builds, or a supplied one that lists under each
    stop only stop times at that stop, every journey returned ends at a
    destination: its [ToUniqueStopID], which is that of its last leg, is the
    unique id of one of the [ToStops]. *)
Theorem arrive_by_journeys_end_at_destination (input : SimpleRaptorInput ID)
    js :
  by_stop_index_sound input →
  SimpleRaptorArriveBy zero_ID fmt_v growcap range_order input = Ok js →
  ∀ j, j ∈ js →
    j_ToUniqueStopID j ∈ GetUniqueID <$> ToStops input ∧
    ∃ last_leg, last (Legs j) = Some last_leg ∧
                ToUniqueStopID last_leg = j_ToUniqueStopID j.
Proof.
  intros Hsound Hrun.
  pose proof (SimpleRaptorArriveBy_labels zero_ID fmt_v growcap range_order
    input
    (λ k segment,
       (Spans segment = [] → k ∈ GetUniqueID <$> ToStops input) ∧
       ∀ span, last (Spans segment) = Some span →
               ToUniqueStopID span ∈ GetUniqueID <$> ToStops input)
    (λ j, j_ToUniqueStopID j ∈ GetUniqueID <$> ToStops input ∧
          ∃ last_leg, last (Legs j) = Some last_leg ∧
                      ToUniqueStopID last_leg = j_ToUniqueStopID j)) as Hl.
  rewrite Hrun in Hl. apply Hl; clear Hl Hrun.
  - intros m cur st fi prec ([Hnil Hlast] & (idx & Hidx & Hst) & _) _.
    apply (boarded_at_marked_stop input _ _ _ Hsound Hidx) in Hst.
    unfold round_segment; cbn [Spans]. split; [done|].
    intros span [Hsp|[Hcur ->]]%last_cons_inv; [by apply Hlast|].
    simpl. rewrite Hst. by apply Hnil.
  - intros m cur st fi prec ti tr ([Hnil Hlast] & (idx & Hidx & Hst) & _) _ _.
    apply (boarded_at_marked_stop input _ _ _ Hsound Hidx) in Hst.
    unfold round_segment; cbn [Spans]. split; [done|].
    intros span [[Hsp|[Hcur ->]]%last_cons_inv|[[=] _]]%last_cons_inv;
      [by apply Hlast|].
    simpl. rewrite Hst. by apply Hnil.
  - intros stop segment f l [_ Hseg] _ _ Hlast _ _. simpl. eauto.
  - intros stop Hstop. split; [|done].
    intros _. by apply list_elem_of_fmap_2.
Qed.

(** X15.  In both modes the four summary fields of every journey returned
    are read off its legs: the origin and the departure time are those of
    the first leg, the destination and the arrival time those of the last. *)
Theorem journeys_summarise_their_legs (input : SimpleRaptorInput ID) js :
  SimpleRaptor zero_ID fmt_v growcap range_order input = Ok js →
  ∀ j, j ∈ js →
    ∃ first_leg last_leg,
      head (Legs j) = Some first_leg ∧ last (Legs j) = Some last_leg ∧
      j_FromUniqueStopID j = FromUniqueStopID first_leg ∧
      j_DepartureTimeInSeconds j
      = DepartureTimeInSecondsFromUniqueStopID first_leg ∧
      j_ToUniqueStopID j = ToUniqueStopID last_leg ∧
      j_ArrivalTimeInSeconds j
      = ArrivalTimeInSecondsToUniqueStopID last_leg.
Proof.
  intros Hrun.
  set (ok := λ j : Journey ID,
    ∃ first_leg last_leg,
      head (Legs j) = Some first_leg ∧ last (Legs j) = Some last_leg ∧
      j_FromUniqueStopID j = FromUniqueStopID first_leg ∧
      j_DepartureTimeInSeconds j
      = DepartureTimeInSecondsFromUniqueStopID first_leg ∧
      j_ToUniqueStopID j = ToUniqueStopID last_leg ∧
      j_ArrivalTimeInSeconds j
      = ArrivalTimeInSecondsToUniqueStopID last_leg).
  cut (holds (λ js, ∃ fps : gmap string bool, ∀ j, j ∈ js → ok j)
             (SimpleRaptor zero_ID fmt_v growcap range_order input)).
  { rewrite Hrun. by intros [_ ?]. }
  apply (SimpleRaptor_journal zero_ID fmt_v (λ js _, ∀ j, j ∈ js → ok j)).
  - intros js0 fps seg f l Hjs _ Hf Hl _ _ j' [Hj'|Hj']%elem_of_app.
    + by apply Hjs.
    + apply list_elem_of_singleton in Hj' as ->. by exists f, l.
  - intros j' Hj'. by apply elem_of_nil in Hj'.
Qed.

(** X21.  In depart-at mode every leg of every journey returned is built
    from the input: a ride from two stop times of [StopTimes], the one
    boarded at and the one alighted at, or a walk from a stop time and a
    transfer of [Transfers]. *)
Theorem depart_at_legs_come_from_the_input (input : SimpleRaptorInput ID)
    js :
  SimpleRaptorDepartAt zero_ID fmt_v growcap range_order input = Ok js →
  ∀ j leg, j ∈ js → leg ∈ Legs j →
    (∃ boarded alighted,
       boarded ∈ StopTimes input ∧ alighted ∈ StopTimes input ∧
       leg = depart_ride_span boarded alighted) ∨
    (∃ alighted transfer,
       alighted ∈ StopTimes input ∧ transfer ∈ Transfers input ∧
       leg = depart_walk_span alighted transfer).
Proof.
  intros Hrun j leg Hj Hleg. revert leg Hleg. apply Forall_forall.
  revert j Hj.
  pose proof (SimpleRaptorDepartAt_labels zero_ID fmt_v growcap range_order
    input
    (λ k segment, Forall (depart_leg_of_input input) (Spans segment))
    (λ j, Forall (depart_leg_of_input input) (Legs j))) as Hl.
  rewrite Hrun in Hl. apply Hl; clear Hl Hrun.
  - intros m cur st fi fst (Hcur & (idx & _ & Hst) & _) Hfst.
    apply index_list_Ok in Hst as [_ Hst%list_elem_of_lookup_2].
    apply index_list_Ok in Hfst as [_ Hfst%list_elem_of_lookup_2].
    unfold round_segment; cbn [Spans]. apply Forall_app. split; [done|].
    apply Forall_singleton. left. eauto.
  - intros m cur st fi fst ti tr (Hcur & (idx & _ & Hst) & _) Hfst Htr.
    apply index_list_Ok in Hst as [_ Hst%list_elem_of_lookup_2].
    apply index_list_Ok in Hfst as [_ Hfst%list_elem_of_lookup_2].
    apply index_list_Ok in Htr as [_ Htr%list_elem_of_lookup_2].
    unfold round_segment; cbn [Spans]. apply Forall_app. split.
    + apply Forall_app. split; [done|].
      apply Forall_singleton. left. eauto.
    + apply Forall_singleton. right. eauto.
  - intros stop segment f l Hseg _ _ _ _ _. exact Hseg.
  - intros stop _. constructor.
Qed.

(** X26.  In arrive-by mode every leg of every journey returned is built
    from the input: a ride from two stop times of [StopTimes], or a walk
    from a stop time of [StopTimes] and a transfer of [Transfers] that the
    transfer index lists under the stop of that stop time, the stop the
    walk reaches.  The walk leaves the stop the transfer leads to.  When
    the transfer index is the one [PrepareRaptorInput] builds, the stop the
    walk reaches is the stop the transfer leaves: the walk runs against
    its transfer. *)
Theorem arrive_by_legs_come_from_the_input (input : SimpleRaptorInput ID)
    js :
  SimpleRaptorArriveBy zero_ID fmt_v growcap range_order input = Ok js →
  ∀ j leg, j ∈ js → leg ∈ Legs j →
    (∃ boarded alighted,
       boarded ∈ StopTimes input ∧ alighted ∈ StopTimes input ∧
       leg = arrive_ride_span boarded alighted) ∨
    (∃ boarded index transfer,
       boarded ∈ StopTimes input ∧
       index ∈ elems (index_of
                        (p_TransfersByUniqueStopId
                           (PrepareRaptorInput growcap input))
                        (ToUniqueStopID leg)) ∧
       index_list (Transfers input) index = Ok transfer ∧
       leg = arrive_walk_span boarded transfer ∧
       FromUniqueStopID leg = GetToUniqueStopID transfer ∧
       (TransfersByUniqueStopId input = None →
        ToUniqueStopID leg = GetFromUniqueStopID transfer)).
Proof.
  intros Hrun j leg Hj Hleg.
  set (by_stop := p_TransfersByUniqueStopId
                    (PrepareRaptorInput growcap input)).
  cut (arrive_leg_of_input input by_stop leg).
  { intros [Hride|(boarded & index & transfer & Hb & Hi & Htr & ->)];
      [by left|right].
    exists boarded, index, transfer. do 4 (split; [done|]).
    split; [done|]. intros Hnil. cbn [arrive_walk_span ToUniqueStopID].
    subst by_stop. unfold PrepareRaptorInput in Hi.
    cbn [p_TransfersByUniqueStopId] in Hi. rewrite Hnil in Hi.
    apply (built_index_spec growcap GetFromUniqueStopID) in Hi
      as (x & Hx & <-).
    congruence. }
  revert leg Hleg. apply Forall_forall. revert j Hj.
  pose proof (SimpleRaptorArriveBy_labels_listed zero_ID fmt_v growcap
    range_order input
    (λ k segment, Forall (arrive_leg_of_input input by_stop) (Spans segment))
    (λ j, Forall (arrive_leg_of_input input by_stop) (Legs j))) as Hl.
  rewrite Hrun in Hl. apply Hl; clear Hl Hrun.
  - intros m cur st fi prec (Hcur & (idx & _ & Hst) & _) Hprec.
    apply index_list_Ok in Hst as [_ Hst%list_elem_of_lookup_2].
    apply index_list_Ok in Hprec as [_ Hprec%list_elem_of_lookup_2].
    unfold round_segment; cbn [Spans]. constructor; [|done]. left. eauto.
  - intros m cur st fi prec ti tr (Hcur & (idx & _ & Hst) & _) Hprec Htr Hti.
    apply index_list_Ok in Hst as [_ Hst%list_elem_of_lookup_2].
    pose proof Hprec as [_ Hprec'%list_elem_of_lookup_2]%index_list_Ok.
    unfold round_segment; cbn [Spans]. constructor.
    + right. exists prec, ti, tr. eauto.
    + constructor; [|done]. left. eauto.
  - intros stop segment f l Hseg _ _ _ _ _. exact Hseg.
  - intros stop _. constructor.
Qed.

End SearchProperties.

(** * Idle searches and further rounds *)

Section EdgeCases.
Context {ID : Type} `{Countable ID}.
Variables (zero_ID : ID) (fmt_v : ID → string).
Variables (growcap : nat → nat) (range_order : nat → list nat).

Lemma fold_result_idle {A St} (f : St → A → Result St) l s :
  (∀ s x, f s x = Ok s) → fold_result f l s = Ok s.
Proof.
  intros Hf. induction l as [|x l IH]; simpl; [done|]. by rewrite Hf.
Qed.

(** Rounds in which no marked stop does anything leave the journeys as they
    are. *)
Lemma raptor_rounds_idle
    (process : RaptorState ID → RaptorMarkedStop ID → Result (RaptorState ID))
    n r (s : RaptorState ID) :
  (∀ s m, process s m = Ok s) →
  ∃ s', raptor_rounds range_order process n r s = Ok s' ∧
        potential_journeys_found s' = potential_journeys_found s.
Proof.
  intros Hp. revert r s. induction n as [|n IH]; intros r s; simpl; [eauto|].
  unfold raptor_round. rewrite fold_result_idle by done. simpl.
  destruct (IH (S r) (end_round (begin_round s))) as (s' & -> & Hs').
  eauto.
Qed.

(** Rounds that begin with no stop marked leave the journeys as they are. *)
Lemma raptor_rounds_unmarked
    (process : RaptorState ID → RaptorMarkedStop ID → Result (RaptorState ID))
    n r (s : RaptorState ID) :
  stops_marked_for_round s = ∅ →
  ∃ s', raptor_rounds range_order process n r s = Ok s' ∧
        potential_journeys_found s' = potential_journeys_found s.
Proof.
  revert r s. induction n as [|n IH]; intros r s Hs; simpl; [eauto|].
  unfold raptor_round, marked_in_order.
  rewrite Hs, map_to_list_empty. cbn [fmap list_fmap].
  rewrite pick_order_nil. simpl.
  destruct (IH (S r) (end_round (begin_round s))) as (s' & -> & Hs');
    [done|eauto].
Qed.

(** X27.  With nothing to do the search returns no journey, and does not
    panic whatever the rest of the input.  This is so with a bound of zero
    (or a negative one) on the rounds: the number of rounds is
    [MaximumTransfers] itself, so that not even a direct ride is found.  It
    is so without a stop to start from (no origin when departing, no
    destination when arriving), and without stop times (and without a
    supplied by-stop index). *)
Theorem idle_search_returns_no_journey (input : SimpleRaptorInput ID) :
  MaximumTransfers input ≤ 0 ∨
  starting_stops input = [] ∨
  (StopTimes input = [] ∧ StopTimesByUniqueStopId input = None) →
  SimpleRaptor zero_ID fmt_v growcap range_order input = Ok [].
Proof.
  unfold starting_stops, SimpleRaptor, SimpleRaptorDepartAt,
    SimpleRaptorArriveBy.
  intros [Hn|[Hstart|[Hsts Hidx]]].
  - replace (Z.to_nat (MaximumTransfers input)) with 0%nat by lia.
    by case_bool_decide.
  - case_bool_decide; rewrite Hstart;
      match goal with
      | |- context [raptor_rounds _ ?process ?n ?r ?s] =>
          destruct (raptor_rounds_unmarked process n r s) as (s' & -> & Hs');
            [done|]
      end; simpl; by rewrite Hs'.
  - assert (Hp : p_StopTimesByUniqueStopId (PrepareRaptorInput growcap input)
                 = ∅).
    { unfold PrepareRaptorInput. cbn [p_StopTimesByUniqueStopId].
      by rewrite Hsts, Hidx. }
    case_bool_decide;
      match goal with
      | |- context [raptor_rounds _ ?process ?n ?r ?s] =>
          destruct (raptor_rounds_idle process n r s) as (s' & -> & Hs')
      end; simpl; try by rewrite Hs'.
    + intros s m. unfold depart_marked_stop. rewrite Hp.
      unfold index_of. rewrite lookup_empty. simpl.
      by rewrite for_each_fresh.
    + intros s m. unfold arrive_marked_stop. rewrite Hp.
      unfold index_of. rewrite lookup_empty. simpl.
      by rewrite for_each_fresh.
Qed.

Lemma raptor_rounds_add
    (process : RaptorState ID → RaptorMarkedStop ID → Result (RaptorState ID))
    n k r (s : RaptorState ID) :
  raptor_rounds range_order process (n + k) r s
  = (s' ← raptor_rounds range_order process n r s;
     raptor_rounds range_order process k (r + n) s').
Proof.
  revert r s. induction n as [|n IH]; intros r s.
  - simpl. by rewrite Nat.add_0_r.
  - cbn [raptor_rounds Nat.add].
    destruct (raptor_round range_order process r s) as [s1|]; [|done].
    cbn [mbind result_bind]. rewrite <- Nat.add_succ_comm. apply IH.
Qed.

(** The rounds only consult the visiting order of the rounds they run. *)
Lemma raptor_rounds_same_order (range_order' : nat → list nat)
    (process : RaptorState ID → RaptorMarkedStop ID → Result (RaptorState ID))
    n r (s : RaptorState ID) :
  (∀ k, (r ≤ k < r + n)%nat → range_order' k = range_order k) →
  raptor_rounds range_order' process n r s
  = raptor_rounds range_order process n r s.
Proof.
  revert r s. induction n as [|n IH]; intros r s Hsame; simpl; [done|].
  unfold raptor_round, marked_in_order. rewrite Hsame by lia.
  destruct (fold_result _ _ _) as [s1|]; simpl; [|done].
  apply IH. intros k Hk. apply Hsame. lia.
Qed.

(** X28.  Take two runs on the same input but for the bound on the number
    of rounds, which visit the marked stops in the same order in every
    round of the run with the smaller bound (each round ranges over a map,
    so that every run has an order of its own).  When the run with the
    greater bound returns, the other one returns too, and what it returns
    is a prefix of the former: raising [MaximumTransfers] keeps every
    journey found before, in the same order, and adds the journeys of the
    further rounds after them. *)
Theorem fewer_rounds_return_a_prefix (input : SimpleRaptorInput ID)
    (range_order' : nat → list nat) (n m : Z) js' :
  n ≤ m →
  (∀ r, (r < Z.to_nat n)%nat → range_order' r = range_order r) →
  SimpleRaptor zero_ID fmt_v growcap range_order
    (with_maximum_transfers input m) = Ok js' →
  ∃ js, SimpleRaptor zero_ID fmt_v growcap range_order'
          (with_maximum_transfers input n) = Ok js ∧
        js `prefix_of` js'.
Proof.
  intros Hnm Hsame. unfold SimpleRaptor.
  change (Mode (with_maximum_transfers input _)) with (Mode input).
  assert (Hadd : ∀ base js0 (fps : gmap string bool)
                   (seg : RoundSegment ID) f l,
    base `prefix_of` js0 →
    fps !! GetFingerPrint fmt_v seg = None →
    head (Spans seg) = Some f → last (Spans seg) = Some l →
    is_in_vehicle f = true → is_in_vehicle l = true →
    base `prefix_of`
      js0 ++ [ {| j_FromUniqueStopID := FromUniqueStopID f;
                  j_ToUniqueStopID := ToUniqueStopID l;
                  j_DepartureTimeInSeconds :=
                    DepartureTimeInSecondsFromUniqueStopID f;
                  j_ArrivalTimeInSeconds :=
                    ArrivalTimeInSecondsToUniqueStopID l;
                  Legs := Spans seg |} ]).
  { intros. by apply prefix_app_r. }
  assert (Hsplit : Z.to_nat m
                   = (Z.to_nat n + (Z.to_nat m - Z.to_nat n))%nat) by lia.
  case_bool_decide.
  - unfold SimpleRaptorDepartAt.
    rewrite !(depart_marked_stop_same_data zero_ID fmt_v input
                (with_maximum_transfers input _)
                (PrepareRaptorInput growcap input)) by done.
    change (Z.to_nat (MaximumTransfers (with_maximum_transfers input n)))
      with (Z.to_nat n).
    change (Z.to_nat (MaximumTransfers (with_maximum_transfers input m)))
      with (Z.to_nat m).
    rewrite (raptor_rounds_same_order range_order')
      by (intros k Hk; apply Hsame; lia).
    rewrite Hsplit, raptor_rounds_add.
    change (initial_state (with_maximum_transfers input m)
              (FromStops (with_maximum_transfers input m)))
      with (initial_state (with_maximum_transfers input n)
              (FromStops (with_maximum_transfers input n))).
    destruct (raptor_rounds _ _ (Z.to_nat n) _ _) as [s|]; simpl; [|done].
    pose proof (raptor_rounds_journal
      (λ js _, potential_journeys_found s `prefix_of` js) range_order
      (depart_marked_stop zero_ID fmt_v input
         (PrepareRaptorInput growcap input))
      (Z.to_nat m - Z.to_nat n) (0 + Z.to_nat n) s) as Hr.
    destruct (raptor_rounds _ _ _ _ _) as [s'|]; simpl; [|done].
    intros [= <-]. eexists. split; [done|]. apply Hr; [|done].
    intros s0 m0.
    apply (depart_marked_stop_journal zero_ID fmt_v
             (λ js _, potential_journeys_found s `prefix_of` js)).
    intros js0 fps. apply Hadd.
  - unfold SimpleRaptorArriveBy.
    rewrite !(arrive_marked_stop_same_data zero_ID fmt_v input
                (with_maximum_transfers input _)
                (PrepareRaptorInput growcap input)) by done.
    change (Z.to_nat (MaximumTransfers (with_maximum_transfers input n)))
      with (Z.to_nat n).
    change (Z.to_nat (MaximumTransfers (with_maximum_transfers input m)))
      with (Z.to_nat m).
    rewrite (raptor_rounds_same_order range_order')
      by (intros k Hk; apply Hsame; lia).
    rewrite Hsplit, raptor_rounds_add.
    change (initial_state (with_maximum_transfers input m)
              (ToStops (with_maximum_transfers input m)))
      with (initial_state (with_maximum_transfers input n)
              (ToStops (with_maximum_transfers input n))).
    destruct (raptor_rounds _ _ (Z.to_nat n) _ _) as [s|]; simpl; [|done].
    pose proof (raptor_rounds_journal
      (λ js _, potential_journeys_found s `prefix_of` js) range_order
      (arrive_marked_stop zero_ID fmt_v input
         (PrepareRaptorInput growcap input))
      (Z.to_nat m - Z.to_nat n) (0 + Z.to_nat n) s) as Hr.
    destruct (raptor_rounds _ _ _ _ _) as [s'|]; simpl; [|done].
    intros [= <-]. eexists. split; [done|]. apply Hr; [|done].
    intros s0 m0.
    apply (arrive_marked_stop_journal zero_ID fmt_v
             (λ js _, potential_journeys_found s `prefix_of` js)).
    intros js0 fps. apply Hadd.
Qed.

End EdgeCases.

(** * The panics of a search on built indices *)

Lemma only_slice_bounds_bind {A B} (r : Result A) (k : A → Result B) :
  only_slice_bounds r → (∀ a, r = Ok a → only_slice_bounds (k a)) →
  only_slice_bounds (r ≫= k).
Proof. destruct r; simpl; auto. Qed.

Lemma only_slice_bounds_fold {A St} (f : St → A → Result St) l s :
  (∀ s x, x ∈ l → only_slice_bounds (f s x)) →
  only_slice_bounds (fold_result f l s).
Proof.
  revert s. induction l as [|x l IH]; intros s Hf; simpl; [done|].
  apply only_slice_bounds_bind; [apply Hf; left|].
  intros s' _. apply IH. intros s'' y Hy. apply Hf. by right.
Qed.

Lemma only_slice_bounds_loop {A St} (body : A → St → Result (St * bool))
    l s :
  (∀ x s, x ∈ l → only_slice_bounds (body x s)) →
  only_slice_bounds (list_loop body l s).
Proof.
  revert s. induction l as [|x l IH]; intros s Hb; simpl; [done|].
  apply only_slice_bounds_bind; [apply Hb; left|].
  intros [s' brk] _. destruct brk; [done|].
  apply IH. intros y s'' Hy. apply Hb. by right.
Qed.

Lemma only_slice_bounds_for_each {T St}
    (body : T → St → Result (St * bool)) d rev s :
  (∀ x s, x ∈ elems d → only_slice_bounds (body x s)) →
  only_slice_bounds (SliceIterator.for_each (NewSliceIterator d rev) body s).
Proof.
  intros Hb. rewrite for_each_fresh. apply only_slice_bounds_loop.
  intros x s' Hx. apply Hb. unfold iteration_order in Hx.
  destruct rev; [by apply elem_of_reverse|done].
Qed.

Lemma index_list_valid {A} (l : list A) i :
  0 ≤ i < Z.of_nat (length l) → ∃ x, index_list l i = Ok x.
Proof.
  intros Hi. unfold index_list. rewrite bool_decide_true by lia.
  destruct (l !! Z.to_nat i) as [x|] eqn:Hx; [eauto|].
  apply lookup_ge_None in Hx. lia.
Qed.

Lemma index_list_Ok_valid {A} (l : list A) i x :
  index_list l i = Ok x → 0 ≤ i < Z.of_nat (length l).
Proof.
  intros [Hi Hx%lookup_lt_Some]%index_list_Ok. lia.
Qed.

(** A sub-iterator only visits cells of the backing array of its parent's
    slice, and a failed one stopped on the slice expression. *)
Lemma SliceIterator_cells {T} (d : GoSlice T) rev from num :
  match SliceIterator.SliceIterator (NewSliceIterator d rev) from num with
  | Ok sub => ∃ d', sub = NewSliceIterator d' rev ∧
                    ∀ x, x ∈ elems d' → x ∈ backing_array d
  | Panic p => p = SliceBoundsOutOfRange
  end.
Proof.
  assert (Hre : ∀ lo hi,
    match reslice d lo hi with
    | Ok d' => ∀ x, x ∈ elems d' → x ∈ backing_array d
    | Panic p => p = SliceBoundsOutOfRange
    end).
  { intros lo hi. unfold reslice. case_bool_decide; [|done]. simpl.
    intros x Hx. unfold backing_array.
    apply (subseteq_drop (Z.to_nat lo)).
    by apply (subseteq_take (Z.to_nat (hi - lo))). }
  unfold SliceIterator.SliceIterator.
  cbn [SliceIterator.New SliceIterator.reverse SliceIterator.data
       SliceIterator.length].
  destruct rev.
  - specialize (Hre (sub64 (sub64 (len d) from) num) (sub64 (len d) from)).
    destruct (reslice _ _ _) as [d'|p]; simpl; eauto.
  - specialize (Hre from (add64 from num)).
    destruct (reslice _ _ _) as [d'|p]; simpl; eauto.
Qed.

Lemma First_nonempty {T} (d : GoSlice T) rev :
  elems d ≠ [] →
  ∃ x, SliceIterator.First (NewSliceIterator d rev) = Ok x ∧ x ∈ elems d.
Proof.
  intros Hne. unfold SliceIterator.First, SliceIterator.New, len. simpl.
  assert (0 < length (elems d))%nat as Hpos.
  { destruct (elems d); [done|simpl; lia]. }
  rewrite bool_decide_false by lia. unfold index_slice.
  destruct rev; rewrite bool_decide_true by lia.
  - destruct (elems d !! _) as [x|] eqn:Hx.
    + exists x. split; [done|]. by eapply list_elem_of_lookup_2.
    + apply lookup_ge_None in Hx. lia.
  - destruct (elems d !! _) as [x|] eqn:Hx.
    + exists x. split; [done|]. by eapply list_elem_of_lookup_2.
    + apply lookup_ge_None in Hx. simpl in Hx. lia.
Qed.

Section OnlySliceBounds.
Context {ID : Type} `{Countable ID}.
Variables (zero_ID : ID) (fmt_v : ID → string).
Variable input : SimpleRaptorInput ID.
Variable p : PreparedRaptorInput ID.

(** What the search needs of the prepared indices to stay clear of every
    panic but the one of the slice expression: they list positions of the
    input lists, the cells beyond the length of a trip's slice hold
    position 0, and every stop time is listed under its trip service. *)
Hypothesis by_stop_valid : ∀ k i,
  i ∈ elems (index_of (p_StopTimesByUniqueStopId p) k) →
  0 ≤ i < Z.of_nat (length (StopTimes (Input p))).
Hypothesis by_trip_valid : ∀ k i,
  i ∈ backing_array (index_of (p_StopTimesByUniqueTripServiceId p) k) →
  StopTimes (Input p) ≠ [] →
  0 ≤ i < Z.of_nat (length (StopTimes (Input p))).
Hypothesis by_trip_complete : ∀ i st,
  index_list (StopTimes (Input p)) i = Ok st →
  elems (index_of (p_StopTimesByUniqueTripServiceId p)
                  (GetUniqueTripServiceID st)) ≠ [].
Hypothesis transfers_valid : ∀ k i,
  i ∈ elems (index_of (p_TransfersByUniqueStopId p) k) →
  0 ≤ i < Z.of_nat (length (Transfers (Input p))).

Lemma depart_relax_transfer_only_slice_bounds fst existing
    (s : RaptorState ID) ti :
  0 ≤ ti < Z.of_nat (length (Transfers (Input p))) →
  only_slice_bounds (depart_relax_transfer p fst existing s ti).
Proof.
  intros [tr Htr]%index_list_valid. unfold depart_relax_transfer.
  rewrite Htr. simpl. by case_match.
Qed.

Lemma arrive_relax_transfer_only_slice_bounds prec existing
    (s : RaptorState ID) ti :
  0 ≤ ti < Z.of_nat (length (Transfers (Input p))) →
  only_slice_bounds (arrive_relax_transfer p prec existing s ti).
Proof.
  intros [tr Htr]%index_list_valid. unfold arrive_relax_transfer.
  rewrite Htr. simpl. by case_match.
Qed.

Lemma depart_scan_only_slice_bounds cur m st fi (s : RaptorState ID) :
  0 ≤ fi < Z.of_nat (length (StopTimes (Input p))) →
  only_slice_bounds (depart_scan zero_ID fmt_v input p cur m st fi s).
Proof.
  intros [fst Hfst]%index_list_valid. unfold depart_scan.
  rewrite Hfst. cbn [mbind result_bind].
  apply only_slice_bounds_bind.
  - match goal with
    | |- only_slice_bounds (if ?b then _ else _) => destruct b
    end; [|done].
    match goal with
    | |- only_slice_bounds (if ?b then _ else _) => destruct b
    end; [|done].
    apply only_slice_bounds_fold. intros s' ti Hti.
    apply depart_relax_transfer_only_slice_bounds. by eapply transfers_valid.
  - intros s1 _. by case_match.
Qed.

Lemma arrive_scan_only_slice_bounds cur m st fi (s : RaptorState ID) :
  0 ≤ fi < Z.of_nat (length (StopTimes (Input p))) →
  only_slice_bounds (arrive_scan zero_ID fmt_v input p cur m st fi s).
Proof.
  intros [prec Hprec]%index_list_valid. unfold arrive_scan.
  rewrite Hprec. cbn [mbind result_bind].
  apply only_slice_bounds_bind.
  - match goal with
    | |- only_slice_bounds (if ?b then _ else _) => destruct b
    end; [|done].
    match goal with
    | |- only_slice_bounds (if ?b then _ else _) => destruct b
    end; [|done].
    apply only_slice_bounds_fold. intros s' ti Hti.
    apply arrive_relax_transfer_only_slice_bounds. by eapply transfers_valid.
  - intros s1 _. by case_match.
Qed.

Lemma depart_board_only_slice_bounds cur m idx (s : RaptorState ID) :
  0 ≤ idx < Z.of_nat (length (StopTimes (Input p))) →
  only_slice_bounds (depart_board zero_ID fmt_v input p cur m idx s).
Proof.
  intros Hidx. destruct (index_list_valid _ _ Hidx) as [st Hst].
  assert (Hne : StopTimes (Input p) ≠ []).
  { intros Hnil. rewrite Hnil in Hidx. simpl in Hidx. lia. }
  unfold depart_board. rewrite Hst. cbn [mbind result_bind].
  case_match; [done|].
  set (trip := index_of _ (GetUniqueTripServiceID st)).
  destruct (First_nonempty trip false) as (fi & -> & Hfi);
    [by eapply by_trip_complete|].
  cbn [mbind result_bind].
  destruct (index_list_valid (StopTimes (Input p)) fi) as [fst ->].
  { apply (by_trip_valid (GetUniqueTripServiceID st)); [|done].
    apply elem_of_app. by left. }
  cbn [mbind result_bind].
  apply only_slice_bounds_bind.
  - case_match; 
      match goal with
      | |- only_slice_bounds (SliceIterator.SliceIterator _ ?a ?b) =>
          pose proof (SliceIterator_cells trip false a b) as Hc;
          by destruct (SliceIterator.SliceIterator _ a b)
      end.
  - intros sub Hsub.
    assert (∃ d', sub = NewSliceIterator d' false ∧
                  ∀ x, x ∈ elems d' → x ∈ backing_array trip)
      as (d' & -> & Hd').
    { case_match;
        match type of Hsub with
        | SliceIterator.SliceIterator _ ?a ?b = _ =>
            pose proof (SliceIterator_cells trip false a b) as Hc;
            by rewrite Hsub in Hc
        end. }
    apply only_slice_bounds_bind; [|done].
    apply only_slice_bounds_for_each. intros x s' Hx.
    apply depart_scan_only_slice_bounds.
    apply (by_trip_valid (GetUniqueTripServiceID st)); [|done]. by apply Hd'.
Qed.

Lemma arrive_board_only_slice_bounds cur m idx (s : RaptorState ID) :
  0 ≤ idx < Z.of_nat (length (StopTimes (Input p))) →
  only_slice_bounds (arrive_board zero_ID fmt_v input p cur m idx s).
Proof.
  intros Hidx. destruct (index_list_valid _ _ Hidx) as [st Hst].
  assert (Hne : StopTimes (Input p) ≠ []).
  { intros Hnil. rewrite Hnil in Hidx. simpl in Hidx. lia. }
  unfold arrive_board. rewrite Hst. cbn [mbind result_bind].
  case_match; [done|].
  set (trip := index_of _ (GetUniqueTripServiceID st)).
  destruct (First_nonempty trip true) as (fi & -> & Hfi);
    [by eapply by_trip_complete|].
  cbn [mbind result_bind].
  destruct (index_list_valid (StopTimes (Input p)) fi) as [lst ->].
  { apply (by_trip_valid (GetUniqueTripServiceID st)); [|done].
    apply elem_of_app. by left. }
  cbn [mbind result_bind].
  apply only_slice_bounds_bind.
  - case_match; 
      match goal with
      | |- only_slice_bounds (SliceIterator.SliceIterator _ ?a ?b) =>
          pose proof (SliceIterator_cells trip true a b) as Hc;
          by destruct (SliceIterator.SliceIterator _ a b)
      end.
  - intros sub Hsub.
    assert (∃ d', sub = NewSliceIterator d' true ∧
                  ∀ x, x ∈ elems d' → x ∈ backing_array trip)
      as (d' & -> & Hd').
    { case_match;
        match type of Hsub with
        | SliceIterator.SliceIterator _ ?a ?b = _ =>
            pose proof (SliceIterator_cells trip true a b) as Hc;
            by rewrite Hsub in Hc
        end. }
    apply only_slice_bounds_bind; [|done].
    apply only_slice_bounds_for_each. intros x s' Hx.
    apply arrive_scan_only_slice_bounds.
    apply (by_trip_valid (GetUniqueTripServiceID st)); [|done]. by apply Hd'.
Qed.

Lemma depart_marked_stop_only_slice_bounds (s : RaptorState ID) m :
  only_slice_bounds (depart_marked_stop zero_ID fmt_v input p s m).
Proof.
  unfold depart_marked_stop. apply only_slice_bounds_for_each.
  intros idx s' Hidx. apply depart_board_only_slice_bounds.
  by eapply by_stop_valid.
Qed.

Lemma arrive_marked_stop_only_slice_bounds (s : RaptorState ID) m :
  only_slice_bounds (arrive_marked_stop zero_ID fmt_v input p s m).
Proof.
  unfold arrive_marked_stop. apply only_slice_bounds_for_each.
  intros idx s' Hidx. apply arrive_board_only_slice_bounds.
  by eapply by_stop_valid.
Qed.

End OnlySliceBounds.

Section BuiltIndices.
Context {ID : Type} `{Countable ID}.
Variables (zero_ID : ID) (fmt_v : ID → string).
Variables (growcap : nat → nat) (range_order : nat → list nat).

Lemma raptor_rounds_only_slice_bounds
    (process : RaptorState ID → RaptorMarkedStop ID → Result (RaptorState ID))
    n r (s : RaptorState ID) :
  (∀ s m, only_slice_bounds (process s m)) →
  only_slice_bounds (raptor_rounds range_order process n r s).
Proof.
  intros Hp. revert r s. induction n as [|n IH]; intros r s; simpl; [done|].
  apply only_slice_bounds_bind; [|by intros].
  unfold raptor_round. apply only_slice_bounds_bind; [|done].
  apply only_slice_bounds_fold. intros; apply Hp.
Qed.

(** The cells beyond the length of a slice the building loop appended to
    are the zeroes of the array [append] allocated. *)
Lemma built_index_spare {A} (key : A → ID) (l : list A) i0
    (m : gmap ID (GoSlice Z)) :
  (∀ k sl, m !! k = Some sl → Forall (λ i, i = 0) (spare sl)) →
  ∀ k sl,
    range_fold (λ index x m, add_index growcap m (key x) index) i0 l m !! k
    = Some sl →
    Forall (λ i, i = 0) (spare sl).
Proof.
  revert i0 m. induction l as [|x l IH]; intros i0 m Hm; simpl; [done|].
  apply IH. intros k sl. rewrite lookup_add_index. case_decide; [|apply Hm].
  intros [= <-]. unfold go_append. cbn [spare].
  destruct (m !! key x) as [old|] eqn:Hold; cbn [default id].
  - specialize (Hm _ _ Hold). destruct (spare old) as [|c sp].
    + by apply Forall_replicate.
    + by apply Forall_cons in Hm as [_ Hm].
  - simpl. by apply Forall_replicate.
Qed.

Lemma built_index_cells {A} (key : A → ID) (l : list A) k i :
  i ∈ backing_array
        (index_of
           (range_fold (λ index x m, add_index growcap m (key x) index)
                       0 l ∅) k) →
  l ≠ [] → 0 ≤ i < Z.of_nat (length l).
Proof.
  intros [Hi|Hi]%elem_of_app Hne.
  - apply (built_index_spec growcap key l k) in Hi as (x & Hx & _).
    by eapply index_list_Ok_valid.
  - unfold index_of in Hi.
    destruct (range_fold _ _ _ _ !! k) as [sl|] eqn:Hsl;
      [|by apply elem_of_nil in Hi].
    pose proof (built_index_spare key l 0 ∅) as Hz.
    eapply Forall_forall in Hz; [| |exact Hsl|exact Hi].
    + subst i. destruct l; [done|simpl; lia].
    + intros k' sl'. by rewrite lookup_empty.
Qed.

(** The three maps [PrepareRaptorInput] builds when none is supplied. *)
Lemma PrepareRaptorInput_without_indices (input : SimpleRaptorInput ID) :
  let prepared := PrepareRaptorInput growcap (without_indices input) in
  p_TransfersByUniqueStopId prepared
  = range_fold (λ index x m,
                  add_index growcap m (GetFromUniqueStopID x) index)
               0 (Transfers input) ∅ ∧
  p_StopTimesByUniqueStopId prepared
  = range_fold (λ index x m, add_index growcap m (GetUniqueStopID x) index)
               0 (StopTimes input) ∅ ∧
  p_StopTimesByUniqueTripServiceId prepared
  = range_fold (λ index x m,
                  add_index growcap m (GetUniqueTripServiceID x) index)
               0 (StopTimes input) ∅.
Proof.
  cbv zeta. unfold PrepareRaptorInput, without_indices, with_indices.
  cbn [p_TransfersByUniqueStopId p_StopTimesByUniqueStopId
       p_StopTimesByUniqueTripServiceId TransfersByUniqueStopId
       StopTimesByUniqueStopId StopTimesByUniqueTripServiceId StopTimes
       Transfers].
  rewrite (bool_decide_false (is_Some None)) by (by intros [? ?]).
  cbn [negb orb default]. split; [done|]. split.
  - by rewrite (range_fold_fst _
      (λ index x m, add_index growcap m (GetUniqueStopID x) index)).
  - by rewrite (range_fold_snd _
      (λ index x m, add_index growcap m (GetUniqueTripServiceID x) index)).
Qed.

(** X29.  When the three indices are left to [PrepareRaptorInput], the only
    panic either search can stop on is the slice expression of the
    sub-iterator out of range: no list is indexed out of range, [First] is
    never asked of an empty slice and [Next] is never called unguarded. *)
Theorem built_indices_only_slice_bounds (input : SimpleRaptorInput ID) p :
  SimpleRaptor zero_ID fmt_v growcap range_order (without_indices input)
  = Panic p →
  p = SliceBoundsOutOfRange.
Proof.
  intros Hrun.
  cut (only_slice_bounds
         (SimpleRaptor zero_ID fmt_v growcap range_order
            (without_indices input))).
  { by rewrite Hrun. }
  clear Hrun.
  destruct (PrepareRaptorInput_without_indices input) as (Htr & Hst & Htrip).
  set (prepared := PrepareRaptorInput growcap (without_indices input)) in *.
  assert (Hstop : ∀ k i,
    i ∈ elems (index_of (p_StopTimesByUniqueStopId prepared) k) →
    0 ≤ i < Z.of_nat (length (StopTimes (Input prepared)))).
  { intros k i Hi. rewrite Hst in Hi.
    apply (built_index_cells GetUniqueStopID (StopTimes input) k).
    - apply elem_of_app. by left.
    - intros Hnil. rewrite Hnil in Hi. by apply elem_of_nil in Hi. }
  assert (Htrip_cells : ∀ k i,
    i ∈ backing_array
          (index_of (p_StopTimesByUniqueTripServiceId prepared) k) →
    StopTimes (Input prepared) ≠ [] →
    0 ≤ i < Z.of_nat (length (StopTimes (Input prepared)))).
  { intros k i Hi Hne. rewrite Htrip in Hi.
    by apply (built_index_cells GetUniqueTripServiceID (StopTimes input) k). }
  assert (Htrip_complete : ∀ i st,
    index_list (StopTimes (Input prepared)) i = Ok st →
    elems (index_of (p_StopTimesByUniqueTripServiceId prepared)
                    (GetUniqueTripServiceID st)) ≠ []).
  { intros i st Hi. rewrite Htrip.
    assert (i ∈ elems (index_of
              (range_fold
                 (λ index x m,
                    add_index growcap m (GetUniqueTripServiceID x) index)
                 0 (StopTimes input) ∅)
              (GetUniqueTripServiceID st))) as Hin.
    { apply (built_index_spec growcap GetUniqueTripServiceID). eauto. }
    intros Hnil. rewrite Hnil in Hin. by apply elem_of_nil in Hin. }
  assert (Htransfers : ∀ k i,
    i ∈ elems (index_of (p_TransfersByUniqueStopId prepared) k) →
    0 ≤ i < Z.of_nat (length (Transfers (Input prepared)))).
  { intros k i Hi. rewrite Htr in Hi.
    apply (built_index_cells GetFromUniqueStopID (Transfers input) k).
    - apply elem_of_app. by left.
    - intros Hnil. rewrite Hnil in Hi. by apply elem_of_nil in Hi. }
  unfold SimpleRaptor, SimpleRaptorDepartAt, SimpleRaptorArriveBy.
  fold prepared. case_bool_decide.
  - apply only_slice_bounds_bind; [|done].
    apply raptor_rounds_only_slice_bounds. intros s m.
    by apply depart_marked_stop_only_slice_bounds.
  - apply only_slice_bounds_bind; [|done].
    apply raptor_rounds_only_slice_bounds. intros s m.
    by apply arrive_marked_stop_only_slice_bounds.
Qed.

End BuiltIndices.

(** * Ascending timetables *)

(** The stop times at the positions listed are the stop times filtered. *)
Lemma positions_from_filter {A} (P : A → Prop) `{∀ x, Decision (P x)}
    (l : list A) i0 :
  Forall2 (λ i x, 0 ≤ i - i0 ∧ l !! Z.to_nat (i - i0) = Some x)
          (positions_from (λ x, bool_decide (P x)) i0 l) (filter P l).
Proof.
  revert i0. induction l as [|y l IH]; intros i0; simpl; [constructor|].
  assert (Htail : Forall2
            (λ i x, 0 ≤ i - i0 ∧ (y :: l) !! Z.to_nat (i - i0) = Some x)
            (positions_from (λ x, bool_decide (P x)) (i0 + 1) l)
            (filter P l)).
  { eapply Forall2_impl; [apply IH|]. intros i x [Hi Hx]. simpl in *.
    split; [lia|].
    replace (Z.to_nat (i - i0)) with (S (Z.to_nat (i - (i0 + 1)))) by lia.
    done. }
  rewrite filter_cons. case_bool_decide as Hy.
  - rewrite decide_True by done. constructor; [|done].
    split; [lia|]. by rewrite Z.sub_diag.
  - by rewrite decide_False by done.
Qed.

(** A loop whose body either leaves the state alone or panics. *)
Lemma list_loop_skips {A St} (body : A → St → Result (St * bool)) l s :
  (∀ x, x ∈ l → body x s = Ok (s, false)) → list_loop body l s = Ok s.
Proof.
  induction l as [|x l IH]; intros Hb; simpl; [done|].
  rewrite Hb by left. simpl. apply IH. intros y Hy. apply Hb. by right.
Qed.

Lemma list_loop_panics {A St} (body : A → St → Result (St * bool)) l s p :
  (∀ x, x ∈ l → body x s = Ok (s, false) ∨ body x s = Panic p) →
  (∃ x, x ∈ l ∧ body x s = Panic p) →
  list_loop body l s = Panic p.
Proof.
  induction l as [|x l IH]; intros Hb (y & Hy & Hp); simpl.
  - by apply elem_of_nil in Hy.
  - destruct (Hb x) as [Hx|Hx]; [left|..]; rewrite Hx; simpl; [|done].
    apply IH; [intros z Hz; apply Hb; by right|].
    apply elem_of_cons in Hy as [->|Hy]; [congruence|eauto].
Qed.

Lemma fold_result_skips {A St} (f : St → A → Result St) l s :
  (∀ x, x ∈ l → f s x = Ok s) → fold_result f l s = Ok s.
Proof.
  induction l as [|x l IH]; intros Hf; simpl; [done|].
  rewrite Hf by left. simpl. apply IH. intros y Hy. apply Hf. by right.
Qed.

Lemma fold_result_panics {A St} (f : St → A → Result St) l s p :
  (∀ x, x ∈ l → f s x = Ok s ∨ f s x = Panic p) →
  (∃ x, x ∈ l ∧ f s x = Panic p) →
  fold_result f l s = Panic p.
Proof.
  induction l as [|x l IH]; intros Hf (y & Hy & Hp); simpl.
  - by apply elem_of_nil in Hy.
  - destruct (Hf x) as [Hx|Hx]; [left|..]; rewrite Hx; simpl; [|done].
    apply IH; [intros z Hz; apply Hf; by right|].
    apply elem_of_cons in Hy as [->|Hy]; [congruence|eauto].
Qed.

(** A visiting order visits every entry. *)
Lemma pick_order_Permutation {A} (choices : list nat) (l : list A) :
  pick_order choices l ≡ₚ l.
Proof.
  revert l. induction choices as [|c cs IH]; intros l; simpl; [done|].
  destruct (l !! _) as [y|] eqn:Hy; [|done].
  rewrite IH. symmetry. by apply delete_Permutation.
Qed.

Section AscendingTrips.
Context {ID : Type} `{Countable ID}.

(** In a trip listed in ascending order the first stop time has the least
    stop sequence and the last one the greatest. *)
Lemma trip_ascending_head (sts : list (GtfsStopTimeStruct ID)) first st :
  trip_ascending sts = true → head sts = Some first → st ∈ sts →
  GetStopSequence first ≤ GetStopSequence st.
Proof.
  destruct sts as [|x rest]; [done|]. simpl. intros Hasc [= ->].
  revert first Hasc. induction rest as [|y rest IH]; intros first Hasc.
  - intros ->%list_elem_of_singleton. lia.
  - intros [->|Hst]%elem_of_cons; [lia|].
    apply andb_prop in Hasc as [[_ [Hlt _]%andb_prop]%andb_prop Hrest].
    apply bool_decide_eq_true in Hlt.
    etrans; [|apply (IH y); [exact Hrest|exact Hst]]. lia.
Qed.

Lemma trip_ascending_last (sts : list (GtfsStopTimeStruct ID)) lst st :
  trip_ascending sts = true → last sts = Some lst → st ∈ sts →
  GetStopSequence st ≤ GetStopSequence lst.
Proof.
  induction sts as [|x rest IH]; [done|].
  intros Hasc Hlast [->|Hst]%elem_of_cons.
  - destruct rest as [|y rest]; [by injection Hlast as ->|].
    rewrite last_cons_cons in Hlast.
    pose proof (trip_ascending_head (y :: rest) y lst) as Hhead.
    simpl in Hasc.
    apply andb_prop in Hasc as [[_ [Hlt _]%andb_prop]%andb_prop Hrest].
    apply bool_decide_eq_true in Hlt.
    etrans; [|apply Hhead; [exact Hrest|done|]].
    + lia.
    + rewrite last_lookup in Hlast. by eapply list_elem_of_lookup_2.
  - destruct rest as [|y rest]; [by apply elem_of_nil in Hst|].
    rewrite last_cons_cons in Hlast. apply IH; [|done..].
    simpl in Hasc. by apply andb_prop in Hasc as [_ Hrest].
Qed.

End AscendingTrips.

(** [First] reads the head of a forward iterator and the last element of a
    reverse one. *)
Lemma First_Ok {T} (d : GoSlice T) rev x :
  SliceIterator.First (NewSliceIterator d rev) = Ok x →
  (if rev then last (elems d) else head (elems d)) = Some x.
Proof.
  unfold SliceIterator.First, SliceIterator.New, len, index_slice. simpl.
  case_bool_decide as Hlen; [done|].
  destruct rev.
  - case_bool_decide; [|done].
    destruct (elems d !! _) as [y|] eqn:Hy; [|done]. intros [= ->].
    rewrite last_lookup. rewrite <- Hy. f_equal. lia.
  - simpl. destruct (elems d) as [|y l]; [done|]. by intros [= ->].
Qed.

(** The offsets the arrive-by search passes on an ascending trip, where
    the number of items is the whole length and the start is at least one,
    are out of range. *)
Lemma SliceIterator_reverse_whole_length {T} (d : GoSlice T) from :
  len d ≤ max_int → 1 ≤ from ≤ 2 ^ 62 + 1 →
  SliceIterator.SliceIterator (NewSliceIterator d true) from
    (SliceIterator.Length (NewSliceIterator d true))
  = Panic SliceBoundsOutOfRange.
Proof.
  intros Hlen Hfrom. unfold SliceIterator.SliceIterator, SliceIterator.Length.
  cbn [SliceIterator.New SliceIterator.reverse SliceIterator.data
       SliceIterator.length].
  assert (0 ≤ len d) by (unfold len; lia).
  unfold max_int in Hlen.
  assert (Hin : sub64 (len d) from = len d - from).
  { unfold sub64. apply wrap64_small. unfold min_int, max_int. lia. }
  rewrite Hin.
  assert (Hlo : sub64 (len d - from) (len d) = - from).
  { unfold sub64. rewrite wrap64_small; [lia|]. unfold min_int, max_int. lia. }
  rewrite Hlo. unfold reslice. by rewrite bool_decide_false by lia.
Qed.

Section AscendingTimetable.
Context {ID : Type} `{Countable ID}.
Variables (zero_ID : ID) (fmt_v : ID → string).
Variables (growcap : nat → nat) (range_order : nat → list nat).
Variable input : SimpleRaptorInput ID.

Hypothesis ascending : timetable_precondition input = true.
Hypothesis in_range : sequences_in_range input.

Local Abbreviation p := (PrepareRaptorInput growcap (without_indices input)).
Local Abbreviation trip_of st :=
  (index_of (p_StopTimesByUniqueTripServiceId p) (GetUniqueTripServiceID st)).
Local Abbreviation service_of st :=
  (filter (λ st', GetUniqueTripServiceID st' = GetUniqueTripServiceID st)
          (StopTimes input)).
Local Abbreviation panics := (Panic SliceBoundsOutOfRange).

Lemma trip_of_positions st :
  elems (trip_of st)
  = positions_from
      (λ x, bool_decide (GetUniqueTripServiceID x = GetUniqueTripServiceID st))
      0 (StopTimes input).
Proof.
  destruct (PrepareRaptorInput_without_indices growcap input)
    as (_ & _ & ->).
  rewrite range_fold_add_index. unfold index_of. by rewrite lookup_empty.
Qed.

Lemma trip_of_service st :
  Forall2 (λ i x, 0 ≤ i ∧ StopTimes input !! Z.to_nat i = Some x)
          (elems (trip_of st)) (service_of st).
Proof.
  rewrite trip_of_positions.
  eapply Forall2_impl; [apply positions_from_filter|].
  intros i x [Hi Hx]. by rewrite Z.sub_0_r in Hi, Hx.
Qed.

Lemma trip_of_len st : len (trip_of st) ≤ max_int.
Proof.
  unfold len. rewrite (Forall2_length _ _ _ (trip_of_service st)).
  pose proof (length_filter
    (λ st', GetUniqueTripServiceID st' = GetUniqueTripServiceID st)
    (StopTimes input)).
  destruct in_range as [Hlen _]. lia.
Qed.

Lemma service_of_ascending st :
  st ∈ StopTimes input → trip_ascending (service_of st) = true.
Proof.
  intros Hst. apply andb_prop in ascending as [Hasc _].
  rewrite forallb_forall in Hasc. apply Hasc. by apply list_elem_of_In.
Qed.

(** The stop time alighted at is no later in its trip than the last one
    the trip lists. *)
Lemma boarded_before_last idx st li lst :
  index_list (StopTimes input) idx = Ok st →
  last (elems (trip_of st)) = Some li →
  index_list (StopTimes input) li = Ok lst →
  0 ≤ GetStopSequence lst - GetStopSequence st ≤ 2 ^ 62.
Proof.
  intros [_ Hst]%index_list_Ok Hlast [_ Hlst]%index_list_Ok.
  assert (st ∈ StopTimes input) as Hin by by eapply list_elem_of_lookup_2.
  assert (lst ∈ StopTimes input) as Hin' by by eapply list_elem_of_lookup_2.
  destruct in_range as [_ Hseq].
  pose proof (Hseq _ Hin). pose proof (Hseq _ Hin').
  cut (GetStopSequence st ≤ GetStopSequence lst); [lia|].
  apply (trip_ascending_last (service_of st)).
  - by apply service_of_ascending.
  - pose proof (trip_of_service st) as Hall.
    rewrite last_lookup in Hlast.
    destruct (Forall2_lookup_l _ _ _ _ _ Hall Hlast) as (x & Hx & _ & Hx').
    rewrite last_lookup.
    rewrite <- (Forall2_length _ _ _ Hall). rewrite Hx. congruence.
  - by apply list_elem_of_filter.
Qed.


(** With no trip scanned yet, a stop time that is not skipped stops the
    search: the sub-iterator over its trip is out of range. *)
Lemma arrive_board_ascending cur m idx st (s : RaptorState ID) :
  index_list (StopTimes input) idx = Ok st →
  trips_scanned_from_sequence s = ∅ →
  arrive_board zero_ID fmt_v (without_indices input) p cur m idx s
  = if bool_decide (GetArrivalTimeInSeconds st
                    > seg_ArrivalTimeInSeconds cur)
    then Ok (s, false) else panics.
Proof.
  intros Hst Hscanned. unfold arrive_board.
  change (StopTimes (Input p)) with (StopTimes input).
  rewrite Hst. cbn [mbind result_bind].
  rewrite Hscanned, lookup_empty.
  rewrite (bool_decide_false (is_Some None)) by (by intros [? ?]).
  cbn [andb]. rewrite orb_false_r.
  case_bool_decide; [done|].
  pose proof (trip_of_service st) as Hall.
  assert (Hin : st ∈ service_of st).
  { apply list_elem_of_filter. split; [done|].
    apply index_list_Ok in Hst as [_ Hst]. by eapply list_elem_of_lookup_2. }
  destruct (First_nonempty (trip_of st) true) as (li & Hli & Hli').
  { intros Hnil. rewrite Hnil in Hall. apply Forall2_nil_inv_l in Hall.
    rewrite Hall in Hin. by apply elem_of_nil in Hin. }
  rewrite Hli. cbn [mbind result_bind].
  apply list_elem_of_lookup in Hli' as [n Hn].
  destruct (Forall2_lookup_l _ _ _ _ _ Hall Hn) as (lst & _ & Hpos & Hlst).
  assert (Hlst' : index_list (StopTimes input) li = Ok lst).
  { unfold index_list. rewrite bool_decide_true by done. by rewrite Hlst. }
  rewrite Hlst'. cbn [mbind result_bind].
  apply First_Ok in Hli.
  pose proof (boarded_before_last _ _ _ _ Hst Hli Hlst') as Hseq.
  rewrite SliceIterator_reverse_whole_length; [done|apply trip_of_len|].
  unfold add64, sub64.
  rewrite (wrap64_small (_ - _)) by (unfold min_int, max_int; lia).
  rewrite wrap64_small by (unfold min_int, max_int; lia). lia.
Qed.

Lemma by_stop_positions k i :
  i ∈ elems (index_of (p_StopTimesByUniqueStopId p) k) ↔
  ∃ st, index_list (StopTimes input) i = Ok st ∧ GetUniqueStopID st = k.
Proof.
  destruct (PrepareRaptorInput_without_indices growcap input)
    as (_ & -> & _).
  apply (built_index_spec growcap GetUniqueStopID).
Qed.

(** With no trip scanned yet, a marked stop stops the search when one of
    its stop times arrives by the time of its label, and leaves the state
    as it is otherwise. *)
Lemma arrive_marked_stop_ascending (s : RaptorState ID) m :
  trips_scanned_from_sequence s = ∅ →
  arrive_marked_stop zero_ID fmt_v (without_indices input) p s m
  = if bool_decide
         (Exists (λ st, GetUniqueStopID st = marked_ID m ∧
                        GetArrivalTimeInSeconds st
                        ≤ seg_ArrivalTimeInSeconds
                            (default (zero_segment zero_ID)
                                     (segments s !! marked_ID m)))
                 (StopTimes input))
    then panics else Ok s.
Proof.
  intros Hscanned. unfold arrive_marked_stop. rewrite for_each_fresh.
  unfold iteration_order.
  set (cur := default (zero_segment zero_ID) (segments s !! marked_ID m)).
  case_bool_decide as Hex.
  - apply list_loop_panics.
    + intros idx (st & Hst & _)%elem_of_reverse%by_stop_positions.
      rewrite (arrive_board_ascending _ _ _ st) by done.
      case_bool_decide; eauto.
    + apply Exists_exists in Hex as (st & Hin & Hstop & Harr).
      apply list_elem_of_lookup in Hin as [n Hn].
      assert (Hst : index_list (StopTimes input) (Z.of_nat n) = Ok st).
      { unfold index_list. rewrite bool_decide_true by lia.
        by rewrite Nat2Z.id, Hn. }
      exists (Z.of_nat n). split.
      * apply elem_of_reverse, by_stop_positions. eauto.
      * rewrite (arrive_board_ascending _ _ _ st) by done.
        by rewrite bool_decide_false by lia.
  - apply list_loop_skips.
    intros idx (st & Hst & Hstop)%elem_of_reverse%by_stop_positions.
    rewrite (arrive_board_ascending _ _ _ st) by done.
    rewrite bool_decide_true; [done|].
    destruct (decide (GetArrivalTimeInSeconds st
                      > seg_ArrivalTimeInSeconds cur)) as [|Hle]; [done|].
    destruct Hex. apply Exists_exists. exists st.
    split; [|split; [done|lia]].
    apply index_list_Ok in Hst as [_ Hst]. by eapply list_elem_of_lookup_2.
Qed.

Local Abbreviation start :=
  (initial_state (without_indices input) (ToStops input)).

(** Before the first round the destinations, and no other stop, are marked
    and labelled with the requested time. *)
Lemma initial_marks_destinations m :
  m ∈ (map_to_list (stops_marked_for_round start)).*2 →
  marked_ID m ∈ GetUniqueID <$> ToStops input ∧
  seg_ArrivalTimeInSeconds
    (default (zero_segment zero_ID) (segments start !! marked_ID m))
  = TimeInSeconds input.
Proof.
  intros ([k m'] & -> & Hm%elem_of_map_to_list)%list_elem_of_fmap.
  simpl in *.
  apply foldl_insert_lookup in Hm as [(x & Hx & <- & <-)|Hm];
    [|by rewrite lookup_empty in Hm].
  simpl. split; [by apply list_elem_of_fmap_2|].
  destruct (foldl_insert_is_Some GetUniqueID
              (λ stop : GtfsStopStruct ID,
                 {| seg_UniqueStopID := GetUniqueID stop;
                    seg_ArrivalTimeInSeconds := TimeInSeconds input;
                    Spans := [] |})
              (ToStops input) ∅ (GetUniqueID x)) as [seg Hseg];
    [left; eauto|].
  rewrite Hseg. simpl.
  apply foldl_insert_lookup in Hseg as [(y & _ & _ & <-)|Hseg];
    [done|by rewrite lookup_empty in Hseg].
Qed.

Lemma destinations_initially_marked k :
  k ∈ GetUniqueID <$> ToStops input →
  ∃ m, m ∈ (map_to_list (stops_marked_for_round start)).*2 ∧
       marked_ID m = k.
Proof.
  intros (x & -> & Hx)%list_elem_of_fmap.
  destruct (foldl_insert_is_Some GetUniqueID
              (λ stop : GtfsStopStruct ID,
                 mark (GetUniqueID stop) RaptorMarkedStopSourceArrival)
              (ToStops input) ∅ (GetUniqueID x)) as [m Hm];
    [left; eauto|].
  exists m. split.
  - apply list_elem_of_fmap. exists (GetUniqueID x, m).
    split; [done|]. by apply elem_of_map_to_list.
  - apply foldl_insert_lookup in Hm as [(y & _ & Hy & <-)|Hm];
      [done|by rewrite lookup_empty in Hm].
Qed.

(** The first round stops the search when a stop time reaches a
    destination in time, and marks nothing otherwise. *)
Lemma first_round_ascending :
  raptor_round range_order
    (arrive_marked_stop zero_ID fmt_v (without_indices input) p) 0 start
  = if bool_decide (Exists (reaches_in_time input) (StopTimes input))
    then panics else Ok (end_round (begin_round start)).
Proof.
  unfold raptor_round, marked_in_order.
  change (stops_marked_for_round (begin_round start))
    with (stops_marked_for_round start).
  assert (Hstep : ∀ m,
    m ∈ pick_order (range_order 0)
          (map_to_list (stops_marked_for_round start)).*2 →
    marked_ID m ∈ GetUniqueID <$> ToStops input ∧
    arrive_marked_stop zero_ID fmt_v (without_indices input) p
      (begin_round start) m
    = if bool_decide
           (Exists (λ st, GetUniqueStopID st = marked_ID m ∧
                          GetArrivalTimeInSeconds st ≤ TimeInSeconds input)
                   (StopTimes input))
      then panics else Ok (begin_round start)).
  { intros m Hm. rewrite pick_order_Permutation in Hm.
    destruct (initial_marks_destinations m Hm) as [Hk Htime].
    split; [done|]. rewrite arrive_marked_stop_ascending by done.
    change (segments (begin_round start)) with (segments start).
    by rewrite Htime. }
  case_bool_decide as Hex.
  - rewrite (fold_result_panics _ _ _ SliceBoundsOutOfRange); [done|..].
    + intros m [_ ->]%Hstep. case_bool_decide; eauto.
    + apply Exists_exists in Hex as (st & Hin & Hk & Harr).
      destruct (destinations_initially_marked _ Hk) as (m & Hm & Hid).
      rewrite <- (pick_order_Permutation (range_order 0)) in Hm.
      exists m. split; [done|].
      destruct (Hstep m Hm) as [_ ->]. rewrite bool_decide_true; [done|].
      apply Exists_exists. eauto.
  - rewrite fold_result_skips; [done|].
    intros m [Hk ->]%Hstep. rewrite bool_decide_false; [done|].
    intros (st & Hin & Hid & Harr)%Exists_exists. destruct Hex.
    apply Exists_exists. exists st. split; [done|]. split; [|done].
    by rewrite Hid.
Qed.

End AscendingTimetable.

Section ArriveByAscending.
Context {ID : Type} `{Countable ID}.
Variables (zero_ID : ID) (fmt_v : ID → string).
Variables (growcap : nat → nat) (range_order : nat → list nat).

(** X30.  Take a timetable that meets the input precondition (each trip
    listed by ascending stop sequence), with stop sequences between 0 and
    2^62 and no more stop times than a slice can hold, and leave the
    indices to [PrepareRaptorInput].  The arrive-by search then never
    returns a journey, whatever capacity [append] gave the index slices
    and whatever the visiting order.  With a round to run and a stop time
    that reaches a destination no later than the requested time, it
    panics: the sub-iterator over that trip is out of range.  Otherwise it
    returns the empty list. *)
Theorem arrive_by_ascending_timetable (input : SimpleRaptorInput ID) :
  timetable_precondition input = true →
  sequences_in_range input →
  SimpleRaptorArriveBy zero_ID fmt_v growcap range_order
    (without_indices input)
  = if bool_decide (0 < MaximumTransfers input ∧
                    Exists (reaches_in_time input) (StopTimes input))
    then Panic SliceBoundsOutOfRange else Ok [].
Proof.
  intros Hasc Hrange. unfold SimpleRaptorArriveBy.
  change (MaximumTransfers (without_indices input))
    with (MaximumTransfers input).
  change (ToStops (without_indices input)) with (ToStops input).
  destruct (Z.to_nat (MaximumTransfers input)) as [|n] eqn:Hn.
  { rewrite bool_decide_false by lia. done. }
  cbn [raptor_rounds].
  rewrite (first_round_ascending zero_ID fmt_v growcap range_order input)
    by done.
  destruct (decide (Exists (reaches_in_time input) (StopTimes input)))
    as [Hex|Hex].
  - rewrite (bool_decide_true (Exists _ _)) by done.
    by rewrite bool_decide_true by (split; [lia|done]).
  - rewrite (bool_decide_false (Exists _ _)) by done.
    rewrite bool_decide_false by tauto. cbn [mbind result_bind].
    match goal with
    | |- context [raptor_rounds _ ?process ?k ?r ?s] =>
        destruct (raptor_rounds_unmarked range_order process k r s)
          as (s' & -> & Hs'); [done|]
    end.
    simpl. by rewrite Hs'.
Qed.

End ArriveByAscending.

(** * A scenario with a walk *)

(** On [walk_input] both searches return one journey of three legs: a ride,
    the walk and a ride. *)
Example walk_depart_input_journey :
  ∃ j, run exact_growcap as_listed walk_depart_input = Ok [j] ∧
       journey_fingerprint id j = "O|t1|X->X||Y->Y|t2|Z".
Proof. eexists. split; vm_compute; reflexivity. Qed.

Example walk_arrive_input_journey :
  ∃ j, run exact_growcap as_listed walk_arrive_input = Ok [j] ∧
       journey_fingerprint id j = "O|t1|X->X||Y->Y|t2|Z".
Proof. eexists. split; vm_compute; reflexivity. Qed.

(** * Witnesses *)

Lemma SliceIterator_sub_range_witness :
  ∃ sub parent_order x,
    SliceIterator.SliceIterator
      (NewSliceIterator (mkSlice [10; 20; 30; 40] [0]) true) 0 2 = Ok sub ∧
    SliceIterator.visited
      (NewSliceIterator (mkSlice [10; 20; 30; 40] [0]) true)
      = Ok parent_order ∧
    SliceIterator.visited sub
      = Ok (take (Z.to_nat 2) (drop (Z.to_nat 0) parent_order)) ∧
    last (elems (mkSlice [10; 20; 30; 40] [0])) = Some x ∧
    SliceIterator.First sub = Ok x.
Proof.
  destruct (SliceIterator_sub_range (mkSlice [10; 20; 30; 40] [0]) true 0 2)
    as (sub & parent_order & Hsub & Hparent & Hvisited & Htail);
    [vm_compute; congruence..|].
  destruct (Htail eq_refl eq_refl) as (x & Hlast & Hfirst); [lia|].
  by exists sub, parent_order, x.
Defined.

Lemma journeys_boundary_legs_in_vehicle_witness :
  ∃ js j, run gc_growcap as_listed descending_depart_input = Ok js ∧
          j ∈ js ∧ boundary_legs_in_vehicle j.
Proof.
  eexists _, _. split; [vm_compute; reflexivity|]. split; [left|].
  eapply (journeys_boundary_legs_in_vehicle EmptyString id gc_growcap
            as_listed descending_depart_input);
    [vm_compute; reflexivity|left].
Defined.

Lemma journeys_fingerprints_distinct_witness :
  ∃ js, run gc_growcap x_then_y_then_w chained_input = Ok js ∧
        length js = 4%nat ∧ NoDup (journey_fingerprint id <$> js).
Proof.
  eexists. split; [vm_compute; reflexivity|]. split; [reflexivity|].
  apply (journeys_fingerprints_distinct EmptyString id gc_growcap
           x_then_y_then_w chained_input).
  vm_compute. reflexivity.
Defined.

Lemma impossible_mode_runs_arrive_by_witness :
  Mode descending_trip_input ≠ RaptorModeDepartAt ∧
  run gc_growcap as_listed descending_trip_input
  = SimpleRaptorArriveBy EmptyString id gc_growcap as_listed
      descending_trip_input.
Proof.
  split; [discriminate|].
  apply (impossible_mode_runs_arrive_by EmptyString id gc_growcap as_listed
           descending_trip_input).
  discriminate.
Defined.


Lemma Next_visits_in_order_witness :
  ∃ it, next_n 2 (NewSliceIterator (mkSlice [10; 20; 30] [0]) true)
        = Ok ([30; 20], it) ∧
        SliceIterator.HasNext it = true.
Proof.
  destruct (Next_visits_in_order (mkSlice [10; 20; 30] [0]) true 2)
    as (it & Hnext & Hhas & _); [simpl; lia|].
  exists it. split; [exact Hnext|exact Hhas].
Defined.

Lemma Reset_starts_over_witness :
  ∃ it, next_n 2 (NewSliceIterator (mkSlice [10; 20; 30] [0]) true)
        = Ok ([30; 20], it) ∧
        SliceIterator.Reset it
        = NewSliceIterator (mkSlice [10; 20; 30] [0]) true ∧
        SliceIterator.visited (SliceIterator.Reset it) = Ok [30; 20; 10].
Proof.
  eexists. split; [vm_compute; reflexivity|].
  apply (Reset_starts_over (mkSlice [10; 20; 30] [0]) true 2 [30; 20]).
  vm_compute. reflexivity.
Defined.

Lemma First_is_first_visited_witness :
  ∃ it, next_n 2 (NewSliceIterator (mkSlice [10; 20; 30] [0]) true)
        = Ok ([30; 20], it) ∧
        SliceIterator.First it = Ok 30.
Proof.
  eexists. split; [vm_compute; reflexivity|].
  apply (First_is_first_visited (mkSlice [10; 20; 30] [0]) true 2 [30; 20]).
  vm_compute. reflexivity.
Defined.

Lemma SliceIterator_bounds_witness :
  ∃ sub,
    SliceIterator.SliceIterator
      (NewSliceIterator (mkSlice [10; 20; 30] [0]) true) (-1) 1 = Ok sub ∧
    SliceIterator.visited sub = Ok [0] ∧
    len (mkSlice [10; 20; 30] [0]) - cap (mkSlice [10; 20; 30] [0]) ≤ -1 ∧
    SliceIterator.Length sub = 1.
Proof.
  pose proof (SliceIterator_bounds (mkSlice [10; 20; 30] [0]) true (-1) 1)
    as Hb.
  destruct (SliceIterator.SliceIterator _ (-1) 1) as [sub|p] eqn:Hsub.
  - exists sub. split; [reflexivity|].
    split; [by injection Hsub as <-|].
    destruct Hb as [(_ & Hfrom & _) Hlength];
      [vm_compute; try split; congruence..|].
    split; [exact Hfrom|exact Hlength].
  - vm_compute in Hsub. discriminate Hsub.
Defined.

Lemma SliceIterator_forward_reads_backing_array_witness :
  ∃ sub,
    SliceIterator.SliceIterator
      (NewSliceIterator (mkSlice [10; 20; 30] [0]) false) 1 3 = Ok sub ∧
    SliceIterator.visited sub = Ok [20; 30; 0].
Proof.
  destruct (SliceIterator_forward_reads_backing_array
              (mkSlice [10; 20; 30] [0]) 1 3)
    as (sub & Hsub & Hvisited); [vm_compute; congruence..|].
  exists sub. split; [exact Hsub|exact Hvisited].
Defined.

Lemma SliceIterator_of_SliceIterator_witness :
  (sub ← SliceIterator.SliceIterator
           (NewSliceIterator (mkSlice [10; 20; 30; 40; 50] []) true) 1 3;
   SliceIterator.SliceIterator sub 1 2)
  = SliceIterator.SliceIterator
      (NewSliceIterator (mkSlice [10; 20; 30; 40; 50] []) true) (1 + 1) 2.
Proof.
  apply (SliceIterator_of_SliceIterator (mkSlice [10; 20; 30; 40; 50] [])
           true 1 3 1 2); vm_compute; congruence.
Defined.

Lemma GetTimePartition_lower_witness :
  ∃ r, GetTimePartition (T_ref + 3600) 86400 false = Some r ∧
       r ≤ T_ref + 3600 < r + 86400 ∧ r mod 86400 = 0.
Proof.
  apply (GetTimePartition_lower (T_ref + 3600) 86400);
    vm_compute; try split; congruence.
Defined.

Lemma GetTimePartition_upper_witness :
  ∃ r, GetTimePartition (T_ref + 3600) 86400 true = Some r ∧
       T_ref + 3600 ≤ r < T_ref + 3600 + 86400 ∧ r mod 86400 = 0.
Proof.
  apply (GetTimePartition_upper (T_ref + 3600) 86400);
    vm_compute; congruence.
Defined.

Lemma GetTimePartition_idempotent_witness :
  GetTimePartition (T_ref + 3600) 86400 true = Some 1755993600 ∧
  GetTimePartition 1755993600 86400 false = Some 1755993600.
Proof.
  split; [vm_compute; reflexivity|].
  apply (GetTimePartition_idempotent (T_ref + 3600) 86400 true false);
    vm_compute; congruence.
Defined.

Lemma GetTimePartition_negative_witness :
  ∃ r, GetTimePartition (-5) 10 false = Some r ∧
       GetTimePartition (-5) 10 true = Some (r + 10) ∧
       -5 < r ≤ 0 ∧ r < -5 + 10 ∧ Z.rem r 10 = 0.
Proof.
  apply (GetTimePartition_negative (-5) 10);
    vm_compute; try split; congruence.
Defined.

Lemma journeys_summarise_their_legs_witness :
  ∃ js j first_leg last_leg,
    run exact_growcap as_listed walk_depart_input = Ok js ∧ j ∈ js ∧
    head (Legs j) = Some first_leg ∧ last (Legs j) = Some last_leg ∧
    j_FromUniqueStopID j = FromUniqueStopID first_leg ∧
    j_DepartureTimeInSeconds j
    = DepartureTimeInSecondsFromUniqueStopID first_leg ∧
    j_ToUniqueStopID j = ToUniqueStopID last_leg ∧
    j_ArrivalTimeInSeconds j = ArrivalTimeInSecondsToUniqueStopID last_leg.
Proof.
  eexists _, _.
  edestruct (journeys_summarise_their_legs EmptyString id exact_growcap
               as_listed walk_depart_input) as (f & l & Hlegs);
    [vm_compute; reflexivity|left|].
  exists f, l. split; [vm_compute; reflexivity|]. split; [left|exact Hlegs].
Defined.

Lemma journeys_never_walk_twice_in_a_row_witness :
  ∃ js j, run exact_growcap as_listed walk_arrive_input = Ok js ∧ j ∈ js ∧
          length (Legs j) = 3%nat ∧ no_consecutive_walks (Legs j).
Proof.
  eexists _, _. split; [vm_compute; reflexivity|]. split; [left|].
  split; [reflexivity|].
  eapply (journeys_never_walk_twice_in_a_row EmptyString id exact_growcap
            as_listed walk_arrive_input);
    [vm_compute; reflexivity|left].
Defined.

Lemma journeys_legs_connected_witness :
  by_stop_index_sound walk_arrive_input ∧
  ∃ js j, run exact_growcap as_listed walk_arrive_input = Ok js ∧ j ∈ js ∧
          length (Legs j) = 3%nat ∧ legs_connected (Legs j).
Proof.
  split; [exact I|].
  eexists _, _. split; [vm_compute; reflexivity|]. split; [left|].
  split; [reflexivity|].
  eapply (journeys_legs_connected EmptyString id exact_growcap
            as_listed walk_arrive_input);
    [exact I|vm_compute; reflexivity|left].
Defined.

Lemma depart_at_journeys_end_at_destination_witness :
  ∃ js j, SimpleRaptorDepartAt EmptyString id exact_growcap as_listed
            walk_depart_input = Ok js ∧ j ∈ js ∧
          j_ToUniqueStopID j ∈ GetUniqueID <$> ToStops walk_depart_input ∧
          ∃ last_leg, last (Legs j) = Some last_leg ∧
                      ToUniqueStopID last_leg = j_ToUniqueStopID j.
Proof.
  eexists _, _. split; [vm_compute; reflexivity|]. split; [left|].
  eapply (depart_at_journeys_end_at_destination EmptyString id exact_growcap
            as_listed walk_depart_input);
    [vm_compute; reflexivity|left].
Defined.

Lemma depart_at_journeys_depart_after_time_witness :
  ∃ js j, SimpleRaptorDepartAt EmptyString id exact_growcap as_listed
            walk_depart_input = Ok js ∧ j ∈ js ∧
          TimeInSeconds walk_depart_input ≤ j_DepartureTimeInSeconds j ∧
          ∃ first_leg, head (Legs j) = Some first_leg ∧
                       DepartureTimeInSecondsFromUniqueStopID first_leg
                       = j_DepartureTimeInSeconds j.
Proof.
  eexists _, _. split; [vm_compute; reflexivity|]. split; [left|].
  eapply (depart_at_journeys_depart_after_time EmptyString id exact_growcap
            as_listed walk_depart_input);
    [vm_compute; reflexivity|left].
Defined.

Lemma depart_at_legs_chained_in_time_witness :
  ∃ js j, SimpleRaptorDepartAt EmptyString id exact_growcap as_listed
            walk_depart_input = Ok js ∧ j ∈ js ∧
          length (Legs j) = 3%nat ∧ legs_chained_in_time (Legs j).
Proof.
  eexists _, _. split; [vm_compute; reflexivity|]. split; [left|].
  split; [reflexivity|].
  eapply (depart_at_legs_chained_in_time EmptyString id exact_growcap
            as_listed walk_depart_input);
    [vm_compute; reflexivity|left].
Defined.

Lemma depart_at_legs_come_from_the_input_witness :
  ∃ js j leg,
    SimpleRaptorDepartAt EmptyString id exact_growcap as_listed
      walk_depart_input = Ok js ∧ j ∈ js ∧ Legs j !! 1%nat = Some leg ∧
    ((∃ boarded alighted,
        boarded ∈ StopTimes walk_depart_input ∧
        alighted ∈ StopTimes walk_depart_input ∧
        leg = depart_ride_span boarded alighted) ∨
     (∃ alighted transfer,
        alighted ∈ StopTimes walk_depart_input ∧
        transfer ∈ Transfers walk_depart_input ∧
        leg = depart_walk_span alighted transfer)).
Proof.
  eexists _, _, _. split; [vm_compute; reflexivity|]. split; [left|].
  split; [reflexivity|].
  eapply (depart_at_legs_come_from_the_input EmptyString id exact_growcap
            as_listed walk_depart_input);
    [vm_compute; reflexivity|left|right; left].
Defined.

Lemma arrive_by_journeys_begin_at_origin_witness :
  ∃ js j, SimpleRaptorArriveBy EmptyString id exact_growcap as_listed
            walk_arrive_input = Ok js ∧ j ∈ js ∧
          j_FromUniqueStopID j ∈ GetUniqueID <$> FromStops walk_arrive_input ∧
          ∃ first_leg, head (Legs j) = Some first_leg ∧
                       FromUniqueStopID first_leg = j_FromUniqueStopID j.
Proof.
  eexists _, _. split; [vm_compute; reflexivity|]. split; [left|].
  eapply (arrive_by_journeys_begin_at_origin EmptyString id exact_growcap
            as_listed walk_arrive_input);
    [vm_compute; reflexivity|left].
Defined.

Lemma arrive_by_journeys_end_at_destination_witness :
  by_stop_index_sound walk_arrive_input ∧
  ∃ js j, SimpleRaptorArriveBy EmptyString id exact_growcap as_listed
            walk_arrive_input = Ok js ∧ j ∈ js ∧
          j_ToUniqueStopID j ∈ GetUniqueID <$> ToStops walk_arrive_input ∧
          ∃ last_leg, last (Legs j) = Some last_leg ∧
                      ToUniqueStopID last_leg = j_ToUniqueStopID j.
Proof.
  split; [exact I|].
  eexists _, _. split; [vm_compute; reflexivity|]. split; [left|].
  eapply (arrive_by_journeys_end_at_destination EmptyString id exact_growcap
            as_listed walk_arrive_input);
    [exact I|vm_compute; reflexivity|left].
Defined.

Lemma arrive_by_journeys_arrive_before_time_witness :
  ∃ js j, SimpleRaptorArriveBy EmptyString id exact_growcap as_listed
            walk_arrive_input = Ok js ∧ j ∈ js ∧
          j_ArrivalTimeInSeconds j ≤ TimeInSeconds walk_arrive_input ∧
          ∃ last_leg, last (Legs j) = Some last_leg ∧
                      ArrivalTimeInSecondsToUniqueStopID last_leg
                      = j_ArrivalTimeInSeconds j.
Proof.
  eexists _, _. split; [vm_compute; reflexivity|]. split; [left|].
  eapply (arrive_by_journeys_arrive_before_time EmptyString id exact_growcap
            as_listed walk_arrive_input);
    [vm_compute; reflexivity|left].
Defined.

Lemma arrive_by_legs_chained_in_time_witness :
  Forall (λ st, GetArrivalTimeInSeconds st ≤ GetDepartureTimeInSeconds st)
         (StopTimes walk_arrive_input) ∧
  ∃ js j, SimpleRaptorArriveBy EmptyString id exact_growcap as_listed
            walk_arrive_input = Ok js ∧ j ∈ js ∧
          length (Legs j) = 3%nat ∧ legs_chained_in_time (Legs j).
Proof.
  assert (Hsts : Forall (λ st, GetArrivalTimeInSeconds st
                               ≤ GetDepartureTimeInSeconds st)
                        (StopTimes walk_arrive_input)).
  { repeat constructor; simpl; lia. }
  split; [exact Hsts|].
  eexists _, _. split; [vm_compute; reflexivity|]. split; [left|].
  split; [reflexivity|].
  eapply (arrive_by_legs_chained_in_time EmptyString id exact_growcap
            as_listed walk_arrive_input);
    [by apply Forall_forall|vm_compute; reflexivity|left].
Defined.

Lemma arrive_by_legs_come_from_the_input_witness :
  ∃ js j leg,
    SimpleRaptorArriveBy EmptyString id exact_growcap as_listed
      walk_arrive_input = Ok js ∧ j ∈ js ∧ Legs j !! 1%nat = Some leg ∧
    ((∃ boarded alighted,
        boarded ∈ StopTimes walk_arrive_input ∧
        alighted ∈ StopTimes walk_arrive_input ∧
        leg = arrive_ride_span boarded alighted) ∨
     (∃ boarded index transfer,
        boarded ∈ StopTimes walk_arrive_input ∧
        index ∈ elems (index_of
                         (p_TransfersByUniqueStopId
                            (PrepareRaptorInput exact_growcap
                               walk_arrive_input))
                         (ToUniqueStopID leg)) ∧
        index_list (Transfers walk_arrive_input) index = Ok transfer ∧
        leg = arrive_walk_span boarded transfer ∧
        FromUniqueStopID leg = GetToUniqueStopID transfer ∧
        (TransfersByUniqueStopId walk_arrive_input = None →
         ToUniqueStopID leg = GetFromUniqueStopID transfer))).
Proof.
  eexists _, _, _. split; [vm_compute; reflexivity|]. split; [left|].
  split; [reflexivity|].
  eapply (arrive_by_legs_come_from_the_input EmptyString id exact_growcap
            as_listed walk_arrive_input);
    [vm_compute; reflexivity|left|right; left].
Defined.

Lemma idle_search_returns_no_journey_witness :
  MaximumTransfers (with_maximum_transfers walk_depart_input 0) ≤ 0 ∧
  run exact_growcap as_listed (with_maximum_transfers walk_depart_input 0)
  = Ok [] ∧
  starting_stops no_origin_input = [] ∧
  run gc_growcap as_listed no_origin_input = Ok [] ∧
  StopTimes no_stop_time_input = [] ∧
  run gc_growcap as_listed no_stop_time_input = Ok [].
Proof.
  split; [simpl; lia|]. split.
  { apply (idle_search_returns_no_journey EmptyString id exact_growcap
             as_listed (with_maximum_transfers walk_depart_input 0)).
    left. simpl. lia. }
  split; [reflexivity|]. split.
  { apply (idle_search_returns_no_journey EmptyString id gc_growcap
             as_listed no_origin_input).
    right. left. reflexivity. }
  split; [reflexivity|].
  apply (idle_search_returns_no_journey EmptyString id gc_growcap as_listed
           no_stop_time_input).
  right. right. split; reflexivity.
Defined.

Lemma fewer_rounds_return_a_prefix_witness :
  ∃ js js',
    run gc_growcap x_then_y_then_w_later
      (with_maximum_transfers chained_input 2) = Ok js' ∧
    run gc_growcap as_listed (with_maximum_transfers chained_input 1)
    = Ok js ∧
    length js = 1%nat ∧ length js' = 4%nat ∧ js `prefix_of` js'.
Proof.
  edestruct (fewer_rounds_return_a_prefix EmptyString id gc_growcap
               x_then_y_then_w_later chained_input as_listed 1 2)
    as (js & Hjs & Hprefix);
    [lia|by intros [|r] Hr; [|simpl in Hr; lia]|vm_compute; reflexivity|].
  eexists js, _. split; [vm_compute; reflexivity|].
  split; [exact Hjs|].
  split; [|split; [reflexivity|exact Hprefix]].
  vm_compute in Hjs. by injection Hjs as <-.
Defined.

Lemma built_indices_only_slice_bounds_witness :
  ∃ p, run gc_growcap as_listed (without_indices S1_input) = Panic p ∧
       p = SliceBoundsOutOfRange.
Proof.
  eexists. split; [vm_compute; reflexivity|].
  eapply (built_indices_only_slice_bounds EmptyString id gc_growcap
            as_listed S1_input).
  vm_compute. reflexivity.
Defined.

Lemma arrive_by_ascending_timetable_witness :
  timetable_precondition S2_input = true ∧
  sequences_in_range S2_input ∧
  Exists (reaches_in_time S2_input) (StopTimes S2_input) ∧
  SimpleRaptorArriveBy EmptyString id gc_growcap as_listed
    (without_indices S2_input) = Panic SliceBoundsOutOfRange ∧
  ¬ Exists (reaches_in_time too_early_input) (StopTimes too_early_input) ∧
  SimpleRaptorArriveBy EmptyString id gc_growcap as_listed
    (without_indices too_early_input) = Ok [].
Proof.
  assert (Hrange : ∀ mode time,
    sequences_in_range
      (scenario ["High St"] ["Franklin Av"] single_trip mode time 4)).
  { intros mode time. split; [by vm_compute|]. intros st Hst.
    repeat (apply elem_of_cons in Hst as [->|Hst]; [by vm_compute|]).
    by apply elem_of_nil in Hst. }
  assert (Hreaches :
    Exists (reaches_in_time S2_input) (StopTimes S2_input)).
  { apply Exists_cons_tl, Exists_cons_hd. split; [by left|simpl; lia]. }
  assert (Hearly :
    ¬ Exists (reaches_in_time too_early_input) (StopTimes too_early_input)).
  { intros Hex. apply Exists_exists in Hex as (st & Hst & Hk & Harr).
    repeat (apply elem_of_cons in Hst as [->|Hst];
            [try (by vm_compute in Harr);
             by (apply elem_of_cons in Hk as [Hk|Hk%elem_of_nil])|]).
    by apply elem_of_nil in Hst. }
  split; [vm_compute; reflexivity|]. split; [apply Hrange|].
  split; [exact Hreaches|]. split.
  { rewrite (arrive_by_ascending_timetable EmptyString id gc_growcap
               as_listed S2_input);
      [|vm_compute; reflexivity|apply Hrange].
    by rewrite bool_decide_true by (split; [simpl; lia|exact Hreaches]). }
  split; [exact Hearly|].
  rewrite (arrive_by_ascending_timetable EmptyString id gc_growcap
             as_listed too_early_input);
    [|vm_compute; reflexivity|apply Hrange].
  by rewrite bool_decide_false by (intros [_ Hex]; by apply Hearly).
Defined.
